(** * Vectis Python SDK: the Vector class and the HTTP client

    A shallow embedding of [python-sdk/vectis/vector.py] and
    [python-sdk/vectis/client.py], and of [gen_sample.py].

    - NumPy's float32 arrays are lists of IEEE 754 binary32 numbers; the
      arithmetic is the Standard Library's executable specification of
      IEEE 754 ([SpecFloat]) at precision 24 (binary32) and 53 (binary64,
      Python's [float]).
    - A [Vector] object holds a reference to its array in a heap of
      arrays, so that copies and in-place writes are what they are in
      Python.
    - The client runs in a state-and-exception monad over the heap and
      the world behind [requests.Session].
    - [gen_sample.py] writes bytes ([struct.pack]) into a file; the
      [random] module is a parameter. *)

From Stdlib Require Import ZArith Floats.SpecFloat Bool List Ascii String Lia.
From stdpp Require Import gmap strings list.
From coqutil Require Import Byte LittleEndianList.

Open Scope Z_scope.

(** ** IEEE 754 numbers *)

(** Both formats share [spec_float]; a binary32 number seen as a
  binary64 one has the same real value and a longer mantissa. *)
Definition float32 := spec_float.
Definition float64 := spec_float.

Module Fmt.
Section Format.
Variables prec emax : Z.

(** Conversion into the format, rounding to nearest even. *)
Definition round (x : spec_float) : spec_float :=
  match x with
  | S754_finite s m e => binary_round prec emax s m e
  | _ => x
  end.

Definition of_Z (z : Z) : spec_float := binary_normalize prec emax z 0 false.

(** [m * 2^e], rounded. *)
Definition of_bits (m e : Z) : spec_float := binary_normalize prec emax m e false.
End Format.

Definition is_nan (x : spec_float) : bool :=
  match x with S754_nan => true | _ => false end.

Definition is_finite (x : spec_float) : bool :=
  match x with S754_zero _ | S754_finite _ _ _ => true | _ => false end.

(** The sign bit of a number is [s]; a NaN has none. *)
Definition has_sign (s : bool) (x : spec_float) : bool :=
  match x with
  | S754_zero s' | S754_infinity s' | S754_finite s' _ _ => Bool.eqb s s'
  | S754_nan => false
  end.

(** Sign bit clear, NaN excluded: [+0], a positive number or [+inf]. *)
Definition nonneg (x : spec_float) : bool :=
  match x with
  | S754_zero s | S754_infinity s | S754_finite s _ _ => negb s
  | S754_nan => false
  end.

Definition is_zero (x : spec_float) : bool :=
  match x with S754_zero _ => true | _ => false end.

(** [|x| <= 2^p]: for [x = m * 2^e] that is [m <= 2^(p - e)], which
  no [m] satisfies when [p < e]. *)
Definition at_most_pow2 (p : Z) (x : spec_float) : bool :=
  match x with
  | S754_zero _ => true
  | S754_finite _ m e => (e <=? p) && (Z.pos m <=? 2 ^ (p - e))
  | _ => false
  end.

(** Two numbers, of the same format or not, that are the same real
  number, the same zero, the same infinity, or both NaN: for finite
  numbers the mantissas agree once brought to the lesser exponent. *)
Definition same_number (x y : spec_float) : bool :=
  match x, y with
  | S754_zero s, S754_zero s' | S754_infinity s, S754_infinity s' => Bool.eqb s s'
  | S754_nan, S754_nan => true
  | S754_finite s m e, S754_finite s' m' e' =>
      Bool.eqb s s'
      && (Z.pos m * 2 ^ (e - Z.min e e') =? Z.pos m' * 2 ^ (e' - Z.min e e'))
  | _, _ => false
  end.

(** The exponent of a finite number is not below [emin]. *)
Definition exponent_from (emin : Z) (x : spec_float) : bool :=
  match x with
  | S754_finite _ _ e => emin <=? e
  | _ => true
  end.
End Fmt.

Module F32.
Definition prec := 24.
Definition emax := 128.
Definition zero : float32 := S754_zero false.
Definition add : float32 -> float32 -> float32 := SFadd prec emax.
Definition sub : float32 -> float32 -> float32 := SFsub prec emax.
Definition mul : float32 -> float32 -> float32 := SFmul prec emax.
Definition div : float32 -> float32 -> float32 := SFdiv prec emax.
Definition sqrt : float32 -> float32 := SFsqrt prec emax.
Definition eqb : float32 -> float32 -> bool := SFeqb.
Definition ltb : float32 -> float32 -> bool := SFltb.
Definition leb : float32 -> float32 -> bool := SFleb.
Definition valid : float32 -> bool := valid_binary prec emax.
(** [astype(np.float32)] on a double. *)
Definition of_f64 : float64 -> float32 := Fmt.round prec emax.
Definition of_bits : Z -> Z -> float32 := Fmt.of_bits prec emax.
End F32.

Module F64.
Definition prec := 53.
Definition emax := 1024.
Definition zero : float64 := S754_zero false.
Definition eqb : float64 -> float64 -> bool := SFeqb.
Definition leb : float64 -> float64 -> bool := SFleb.
Definition div : float64 -> float64 -> float64 := SFdiv prec emax.
Definition valid : float64 -> bool := valid_binary prec emax.
(** [float(x)] on an [np.float32], and [tolist()]: exact. *)
Definition of_f32 : float32 -> float64 := Fmt.round prec emax.
Definition of_Z : Z -> float64 := Fmt.of_Z prec emax.
Definition of_bits : Z -> Z -> float64 := Fmt.of_bits prec emax.
End F64.

(** ** Exceptions and the monad of Python code *)

Inductive exn :=
| ValueError            (* NumPy: shapes not aligned, operands not broadcastable *)
| IndexError            (* NumPy: index out of bounds *)
| OverflowError         (* a Python int too large for a C integer or for a float *)
| TypeError
| KeyError
| AttributeError
| JSONDecodeError       (* response.json() on a body that is no JSON document *)
| SystemError           (* a reference to no object: unreachable from Python *)
| VectisError (msg : string)
| VectisConnectionError (msg : string)
| VectisNotFoundError (msg : string).   (* declared, raised nowhere *)

(** [VectisConnectionError] and [VectisNotFoundError] are subclasses of
    [VectisError]. *)
Definition isinstance_VectisError (e : exn) : bool :=
  match e with
  | VectisError _ | VectisConnectionError _ | VectisNotFoundError _ => true
  | _ => false
  end.

Definition Py (S A : Type) : Type := S -> (exn + A) * S.

Definition ret {S A} (a : A) : Py S A := fun s => (inr a, s).
Definition raise {S A} (e : exn) : Py S A := fun s => (inl e, s).
Definition bind {S A B} (c : Py S A) (k : A -> Py S B) : Py S B :=
  fun s => match c s with
           | (inr a, s') => k a s'
           | (inl e, s') => (inl e, s')
           end.
Definition lift {S A} (r : exn + A) : Py S A := fun s => (r, s).
Definition try_except {S A} (c : Py S A) (h : exn -> Py S A) : Py S A :=
  fun s => match c s with
           | (inl e, s') => h e s'
           | r => r
           end.

Declare Scope py_scope.
Delimit Scope py_scope with py.
Notation "x <- c ;; k" := (bind c (fun x => k))
  (at level 100, c at next level, right associativity) : py_scope.
Notation "c ;;; k" := (bind c (fun _ => k))
  (at level 100, right associativity) : py_scope.
Open Scope py_scope.

(** ** NumPy on one-dimensional float32 arrays *)

Module np.
(** [np.array(data, dtype=np.float32)] on a list of Python floats. *)
Definition array (data : list float64) : list float32 := map F32.of_f64 data.

(** [a.tolist()]: every component as a Python float. *)
Definition tolist (a : list float32) : list float64 := map F64.of_f32 a.

(** The sum of the componentwise products, accumulated in float32 in
    index order, starting from [+0.0].  NumPy leaves the additions to
    the kernel it is linked with (BLAS), which may add in another order
    and so round differently, and which for a single component may
    return the product itself, whose zero can be negative.  What is
    proved below of a sum holds in any order of addition: that two sums
    of the same products are equal, and that a sum of squares is no NaN,
    not negative, and zero exactly when every square is. *)
Definition accumulate (acc : float32) (xy : float32 * float32) : float32 :=
  F32.add acc (F32.mul (fst xy) (snd xy)).

Definition sum_of_products (a b : list float32) : float32 :=
  fold_left accumulate (combine a b) F32.zero.

(** [np.dot(a, b)] on 1-D arrays: sizes must agree, nothing is
    broadcast. *)
Definition dot (a b : list float32) : exn + float32 :=
  if (length a =? length b)%nat then inr (sum_of_products a b)
  else inl ValueError.

(** [np.linalg.norm(a)]: [sqrt(a.dot(a))], in float32. *)
Definition linalg_norm (a : list float32) : float32 :=
  F32.sqrt (sum_of_products a a).

(** Broadcasting of two 1-D shapes: equal sizes pair up, a size-1
    operand is repeated along the other, anything else is an error. *)
Definition broadcast (a b : list float32) : exn + list (float32 * float32) :=
  if (length a =? length b)%nat then inr (combine a b)
  else match a, b with
       | [x], _ => inr (map (fun y => (x, y)) b)
       | _, [y] => inr (map (fun x => (x, y)) a)
       | _, _ => inl ValueError
       end.

(** [a - b]. *)
Definition subtract (a b : list float32) : exn + list float32 :=
  match broadcast a b with
  | inr ps => inr (map (fun xy => F32.sub (fst xy) (snd xy)) ps)
  | inl e => inl e
  end.

(** [a / s] for a float32 scalar [s]. *)
Definition divide_scalar (a : list float32) (s : float32) : list float32 :=
  map (fun x => F32.div x s) a.

(** An integer index into an array of [n] components: [-n <= i < n],
    negative indices counting from the end.  NumPy takes the index as a
    C integer of 64 bits ([intp]): a Python int that does not fit is
    refused with [OverflowError], any other index out of bounds with
    [IndexError].  (An array holds fewer than [2^63] components, so an
    index within bounds always fits.) *)
Definition index (n : nat) (i : Z) : exn + nat :=
  if (0 <=? i) && (i <? Z.of_nat n) then inr (Z.to_nat i)
  else if (- Z.of_nat n <=? i) && (i <? 0) then inr (Z.to_nat (i + Z.of_nat n))
  else if (- 2 ^ 63 <=? i) && (i <? 2 ^ 63) then inl IndexError
  else inl OverflowError.
End np.

(** ** The heap of arrays *)

Definition loc := positive.
Abbreviation ndheap := (gmap loc (list float32)).

Definition alloc (a : list float32) : Py ndheap loc :=
  fun h => let l := fresh (dom h) in (inr l, <[l := a]> h).

Definition load (l : loc) : Py ndheap (list float32) :=
  fun h => match h !! l with
           | Some a => (inr a, h)
           | None => (inl SystemError, h)
           end.

Definition store (l : loc) (a : list float32) : Py ndheap unit :=
  fun h => (inr tt, <[l := a]> h).

(** ** class Vector *)

Module Vector.
Record t := { data : loc }.

(** What the constructor is given: a list of floats or an array. *)
Inductive init_arg :=
  | of_list (l : list float64)
  | of_ndarray (a : loc).

Definition __init__ (arg : init_arg) : Py ndheap t :=
  match arg with
  | of_ndarray a =>
      (* data.flatten().astype(np.float32): a fresh array *)
      x <- load a ;;
      l <- alloc x ;;
      ret {| data := l |}
  | of_list d =>
      l <- alloc (np.array d) ;;
      ret {| data := l |}
  end.

Definition to_list (self : t) : Py ndheap (list float64) :=
  a <- load (data self) ;;
  ret (np.tolist a).

Definition to_numpy (self : t) : Py ndheap loc :=
  ret (data self).

Definition normalize (self : t) : Py ndheap t :=
  a <- load (data self) ;;
  let norm := np.linalg_norm a in
  if F32.ltb F32.zero norm then
    q <- alloc (np.divide_scalar a norm) ;;
    __init__ (of_ndarray q)
  else __init__ (of_ndarray (data self)).

Definition cosine_similarity (self other : t) : Py ndheap float64 :=
  a <- load (data self) ;;
  b <- load (data other) ;;
  dot_product <- lift (np.dot a b) ;;
  let norm_self := np.linalg_norm a in
  let norm_other := np.linalg_norm b in
  if F32.eqb norm_self F32.zero || F32.eqb norm_other F32.zero then
    ret F64.zero
  else
    ret (F64.of_f32 (F32.div dot_product (F32.mul norm_self norm_other))).

Definition euclidean_distance (self other : t) : Py ndheap float64 :=
  a <- load (data self) ;;
  b <- load (data other) ;;
  d <- lift (np.subtract a b) ;;
  ret (F64.of_f32 (np.linalg_norm d)).

Definition dot_product (self other : t) : Py ndheap float64 :=
  a <- load (data self) ;;
  b <- load (data other) ;;
  p <- lift (np.dot a b) ;;
  ret (F64.of_f32 p).

Definition __len__ (self : t) : Py ndheap nat :=
  a <- load (data self) ;;
  ret (length a).

Definition __getitem__ (self : t) (index : Z) : Py ndheap float32 :=
  a <- load (data self) ;;
  match np.index (length a) index with
  | inr i =>
      match a !! i with
      | Some x => ret x
      | None => raise IndexError
      end
  | inl e => raise e
  end.

Definition __setitem__ (self : t) (index : Z) (value : float64) : Py ndheap unit :=
  a <- load (data self) ;;
  match np.index (length a) index with
  | inr i => store (data self) (<[i := F32.of_f64 value]> a)
  | inl e => raise e
  end.
End Vector.


(** ** JSON documents and Python values *)

(** A decoded JSON document; [JNull] is Python's [None].  An object
  lists its members in order, with distinct names. *)
#[warnings="-register-all"] Inductive json :=
| JNull
| JBool (b : bool)
| JInt (z : Z)
| JFloat (x : float64)
| JStr (s : string)
| JArr (l : list json)
| JObj (members : list (string * json)).

(** Python truthiness, as [if v] tests it. *)
Definition truthy (v : json) : bool :=
  match v with
  | JNull => false
  | JBool b => b
  | JInt z => negb (z =? 0)
  | JFloat x => negb (F64.eqb x F64.zero)
  | JStr s => negb (String.eqb s "")
  | JArr l => match l with [] => false | _ => true end
  | JObj m => match m with [] => false | _ => true end
  end.

(** [v if v else None]. *)
Definition or_None (v : json) : json := if truthy v then v else JNull.

Definition assoc (k : string) (m : list (string * json)) : option json :=
  snd <$> find (fun kv => String.eqb (fst kv) k) m.

(** [d.get(name, [])]: only a dict has [get]. *)
Definition dict_get (d : json) (name : string) : exn + json :=
  match d with
  | JObj m => inr (default (JArr []) (assoc name m))
  | _ => inl AttributeError
  end.

(** [item[name]]. *)
Definition subscript (item : json) (name : string) : exn + json :=
  match item with
  | JObj m => match assoc name m with Some v => inr v | None => inl KeyError end
  | _ => inl TypeError
  end.

Fixpoint chars (s : string) : list json :=
  match s with
  | EmptyString => []
  | String c s' => JStr (String c EmptyString) :: chars s'
  end.

(** The items a [for] loop or [zip] draws from a value. *)
Definition iterate (v : json) : exn + list json :=
  match v with
  | JArr l => inr l
  | JStr s => inr (chars s)
  | JObj m => inr (map (fun kv => JStr (fst kv)) m)
  | _ => inl TypeError
  end.

(** One component of [np.array(l, dtype=np.float32)], as the double
  NumPy makes of it before the cast: a float is taken as it is, an int
  and a bool through Python's [float()], which refuses an int beyond
  the range of a double, and [None] is not-a-number.  A number written
  in a string and a nested list, which NumPy accepts too (the one
  through [float()] on the text, the other as an array of rank two,
  which [ndheap] does not hold), are outside this embedding and refused
  here; no property below rests on them. *)
Definition number (v : json) : exn + float64 :=
  match v with
  | JInt z =>
      match F64.of_Z z with
      | S754_infinity _ => inl OverflowError
      | x => inr x
      end
  | JFloat x => inr x
  | JBool b => inr (F64.of_Z (if b then 1 else 0))
  | JNull => inr S754_nan
  | _ => inl TypeError
  end.

Fixpoint mapM {A B} (f : A -> exn + B) (l : list A) : exn + list B :=
  match l with
  | [] => inr []
  | x :: l' =>
      match f x with
      | inl e => inl e
      | inr y => match mapM f l' with
                 | inl e => inl e
                 | inr ys => inr (y :: ys)
                 end
      end
  end.

Definition numbers (v : json) : exn + list float64 :=
  match v with
  | JArr l => mapM number l
  | _ => inl TypeError
  end.

(** [s.rstrip('/')]. *)
Fixpoint rstrip_slash (s : string) : string :=
  match s with
  | EmptyString => EmptyString
  | String c s' =>
      match rstrip_slash s' with
      | EmptyString => if Ascii.eqb c "/"%char then EmptyString else String c EmptyString
      | r => String c r
      end
  end.

(** [str(e)]: the message, for the exceptions of this package.  The
  built-in ones carry no message in [exn]; their class name stands for
  the text Python gives, and nothing below depends on that text. *)
Definition str (e : exn) : string :=
  match e with
  | VectisError m | VectisConnectionError m | VectisNotFoundError m => m
  | ValueError => "ValueError"
  | IndexError => "IndexError"
  | OverflowError => "OverflowError"
  | TypeError => "TypeError"
  | KeyError => "KeyError"
  | AttributeError => "AttributeError"
  | JSONDecodeError => "JSONDecodeError"
  | SystemError => "SystemError"
  end.

(** ** The requests library *)

(** The keyword arguments [_request] forwards. *)
Inductive kwargs :=
| kw_none
| kw_data (form : list (string * string))
| kw_params (query : list (string * json))
| kw_json (body : json).

Record Request := {
  method : string;
  url : string;
  timeout_ : Z;
  payload : kwargs
}.

(** [json_doc] is what [response.json()] decodes the body to, [None]
  when the body is no JSON document. *)
Record Response := {
  status_code : Z;
  text : string;
  json_doc : option json
}.

(** What the client is linked against: [requests.Session] and the
  network behind it, and [urllib.parse.urljoin].  [Session_request]
  answers with a response or with the text of a
  [requests.exceptions.RequestException]. *)
Class Requests := {
  world : Type;
  Session : Type;
  Session_new : world -> Session * world;
  Session_request : Session -> Request -> world -> (string + Response) * world;
  Session_close : Session -> world -> world;
  urljoin : string -> string -> string
}.

(** ** class VectisClient *)

Module VectisClient.
Section Client.
Context `{R : Requests}.

Record t := { base_url : string; timeout : Z; session : Session }.

(** The client's code runs over the heap of arrays and the world. *)
Definition state : Type := ndheap * world.

Definition on_heap {A} (c : Py ndheap A) : Py state A :=
  fun s => let '(r, h') := c (fst s) in (r, (h', snd s)).

Definition on_world {A} (c : world -> A * world) : Py state A :=
  fun s => let '(a, w') := c (snd s) in (inr a, (fst s, w')).

(** [response.json()]. *)
Definition json_of (response : Response) : Py state json :=
  match json_doc response with
  | Some j => ret j
  | None => raise JSONDecodeError
  end.

Definition _request (self : t) (method endpoint : string) (kw : kwargs)
  : Py state Response :=
  let url := urljoin (base_url self) endpoint in
  r <- on_world (Session_request (session self)
                   {| method := method; url := url;
                      timeout_ := timeout self; payload := kw |}) ;;
  match r with
  | inr response => ret response
  | inl e => raise (VectisConnectionError ("Request failed: " +:+ e))
  end.

Definition put (self : t) (key value : string) : Py state unit :=
  response <- _request self "POST" "/api/put"
                (kw_data [("key", key); ("value", value)]) ;;
  if negb (status_code response =? 200) then
    raise (VectisError ("PUT failed: " +:+ text response))
  else ret tt.

Definition get (self : t) (key : string) : Py state (option string) :=
  response <- _request self "GET" "/api/get" (kw_params [("key", JStr key)]) ;;
  if status_code response =? 404 then ret None
  else if negb (status_code response =? 200) then
    raise (VectisError ("GET failed: " +:+ text response))
  else ret (Some (text response)).

Definition delete (self : t) (key : string) : Py state unit :=
  response <- _request self "POST" "/api/delete" (kw_data [("key", key)]) ;;
  if negb (status_code response =? 200) then
    raise (VectisError ("DELETE failed: " +:+ text response))
  else ret tt.

(** [items] is the dict in its iteration order. *)
Definition batch_put (self : t) (items : list (string * string)) : Py state unit :=
  let operations :=
    map (fun kv => JObj [("type", JStr "PUT"); ("key", JStr (fst kv));
                         ("value", JStr (snd kv))]) items in
  response <- _request self "POST" "/api/batch"
                (kw_json (JObj [("operations", JArr operations)])) ;;
  if negb (status_code response =? 200) then
    raise (VectisError ("Batch PUT failed: " +:+ text response))
  else ret tt.

(** [{k: v if v else None for k, v in pairs}]: a later pair replaces
    an earlier one with the same key. *)
Definition insert_pair (d : gmap string json) (kv : string * json)
  : gmap string json :=
  <[fst kv := or_None (snd kv)]> d.

Definition pair_up (pairs : list (string * json)) : gmap string json :=
  fold_left insert_pair pairs ∅.

Definition batch_get (self : t) (keys : list string) : Py state (gmap string json) :=
  response <- _request self "POST" "/api/batch_get"
                (kw_json (JObj [("keys", JArr (map JStr keys))])) ;;
  if negb (status_code response =? 200) then
    raise (VectisError ("Batch GET failed: " +:+ text response))
  else
    results <- json_of response ;;
    values <- lift (dict_get results "values") ;;
    vs <- lift (iterate values) ;;
    ret (pair_up (combine keys vs)).

Definition scan (self : t) (start end_ : string) (limit : Z) (reverse : bool)
  : Py state (list (json * json)) :=
  let params := [("start", JStr start); ("end", JStr end_); ("limit", JInt limit);
                 ("reverse", JStr (if reverse then "true" else "false"))] in
  response <- _request self "GET" "/api/scan" (kw_params params) ;;
  if negb (status_code response =? 200) then
    raise (VectisError ("SCAN failed: " +:+ text response))
  else
    results <- json_of response ;;
    entries <- lift (dict_get results "entries") ;;
    items <- lift (iterate entries) ;;
    lift (mapM (fun item =>
                  match subscript item "key", subscript item "value" with
                  | inr k, inr v => inr (k, v)
                  | inl e, _ | _, inl e => inl e
                  end) items).

Definition put_vector (self : t) (key : string) (vector : list float64) : Py state unit :=
  vec <- on_heap (Vector.__init__ (Vector.of_list vector)) ;;
  l <- on_heap (Vector.to_list vec) ;;
  response <- _request self "POST" "/api/vector/put"
                (kw_json (JObj [("key", JStr key); ("vector", JArr (map JFloat l))])) ;;
  if negb (status_code response =? 200) then
    raise (VectisError ("Vector PUT failed: " +:+ text response))
  else ret tt.

Definition get_vector (self : t) (key : string) : Py state (option Vector.t) :=
  response <- _request self "GET" "/api/vector/get" (kw_params [("key", JStr key)]) ;;
  if status_code response =? 404 then ret None
  else if negb (status_code response =? 200) then
    raise (VectisError ("Vector GET failed: " +:+ text response))
  else
    data <- json_of response ;;
    v <- lift (subscript data "vector") ;;
    l <- lift (numbers v) ;;
    vec <- on_heap (Vector.__init__ (Vector.of_list l)) ;;
    ret (Some vec).

Definition search_similar (self : t) (query : list float64) (k : Z)
  : Py state (list (json * json)) :=
  vec <- on_heap (Vector.__init__ (Vector.of_list query)) ;;
  l <- on_heap (Vector.to_list vec) ;;
  response <- _request self "POST" "/api/vector/search"
                (kw_json (JObj [("query", JArr (map JFloat l)); ("k", JInt k)])) ;;
  if negb (status_code response =? 200) then
    raise (VectisError ("Vector search failed: " +:+ text response))
  else
    data <- json_of response ;;
    results <- lift (dict_get data "results") ;;
    items <- lift (iterate results) ;;
    lift (mapM (fun item =>
                  match subscript item "key", subscript item "distance" with
                  | inr k, inr d => inr (k, d)
                  | inl e, _ | _, inl e => inl e
                  end) items).

Definition get_stats (self : t) : Py state json :=
  response <- _request self "GET" "/api/stats" kw_none ;;
  if negb (status_code response =? 200) then
    raise (VectisError ("Failed to get stats: " +:+ text response))
  else json_of response.

Definition health_check (self : t) : Py state json :=
  response <- _request self "GET" "/api/health" kw_none ;;
  if negb (status_code response =? 200) then
    raise (VectisError ("Health check failed: " +:+ text response))
  else json_of response.

Definition close (self : t) : Py state unit :=
  on_world (fun w => (tt, Session_close (session self) w)).

Definition __init__ (base_url : string) (timeout : Z) : Py state t :=
  session <- on_world Session_new ;;
  let self := {| base_url := rstrip_slash base_url; timeout := timeout;
                 session := session |} in
  (* Test connection *)
  try_except (get_stats self ;;; ret self)
    (fun e => raise (VectisConnectionError
                       ("Failed to connect to " +:+ base_url +:+ ": " +:+ str e))).

Definition __enter__ (self : t) : Py state t := ret self.

Definition __exit__ (self : t) : Py state unit := close self.

(** The operations of a client other than [close], and what each
    returns. *)
Inductive operation :=
  | op_put (key value : string)
  | op_get (key : string)
  | op_delete (key : string)
  | op_batch_put (items : list (string * string))
  | op_batch_get (keys : list string)
  | op_scan (start end_ : string) (limit : Z) (reverse : bool)
  | op_put_vector (key : string) (vector : list float64)
  | op_get_vector (key : string)
  | op_search_similar (query : list float64) (k : Z)
  | op_get_stats
  | op_health_check.

Inductive result :=
  | res_none
  | res_value (v : option string)
  | res_dict (d : gmap string json)
  | res_pairs (l : list (json * json))
  | res_vector (v : option Vector.t)
  | res_json (j : json).

Definition call (self : t) (op : operation) : Py state result :=
  match op with
  | op_put k v => put self k v ;;; ret res_none
  | op_get k => v <- get self k ;; ret (res_value v)
  | op_delete k => delete self k ;;; ret res_none
  | op_batch_put items => batch_put self items ;;; ret res_none
  | op_batch_get keys => d <- batch_get self keys ;; ret (res_dict d)
  | op_scan s e l r => p <- scan self s e l r ;; ret (res_pairs p)
  | op_put_vector k v => put_vector self k v ;;; ret res_none
  | op_get_vector k => v <- get_vector self k ;; ret (res_vector v)
  | op_search_similar q k => p <- search_similar self q k ;; ret (res_pairs p)
  | op_get_stats => j <- get_stats self ;; ret (res_json j)
  | op_health_check => j <- health_check self ;; ret (res_json j)
  end.
End Client.
End VectisClient.

(** ** A remote store to run the client against *)

(** Modelled from the spec: the remote store reached through the wire
  contract (section 6), which is not among the sources.  [/api/get]
  answers 200 with the value or 404; [/api/batch_get] answers with a
  value sequence aligned with the keys, [null] marking a missing key.
  [idle] counts the pooled connections of the one session: a request
  leaves one behind, [close] releases them, the next request opens a
  new one. *)
Module Remote.
Record t := {
    kv : gmap string string;
    vectors : gmap string (list float64);
    idle : nat
  }.

Definition base : string := "http://localhost:8080".

Definition answer (code : Z) (body : string) (doc : option json) : Response :=
  {| status_code := code; text := body; json_doc := doc |}.

Definition slot (w : t) (k : json) : json :=
  match k with
  | JStr k => match kv w !! k with Some v => JStr v | None => JNull end
  | _ => JNull
  end.

Definition with_kv (w : t) (m : gmap string string) : t :=
  {| kv := m; vectors := vectors w; idle := 1 |}.

Definition handle (req : Request) (w : t) : Response * t :=
  let same := with_kv w (kv w) in
  if String.eqb (url req) (base +:+ "/api/get") then
    match payload req with
    | kw_params [(_, JStr k)] =>
        match kv w !! k with
        | Some v => (answer 200 v None, same)
        | None => (answer 404 "Key not found" None, same)
        end
    | _ => (answer 400 "Bad request" None, same)
    end
  else if String.eqb (url req) (base +:+ "/api/put") then
    match payload req with
    | kw_data [(_, k); (_, v)] => (answer 200 "OK" None, with_kv w (<[k := v]> (kv w)))
    | _ => (answer 400 "Bad request" None, same)
    end
  else if String.eqb (url req) (base +:+ "/api/delete") then
    match payload req with
    | kw_data [(_, k)] => (answer 200 "OK" None, with_kv w (base.delete k (kv w)))
    | _ => (answer 400 "Bad request" None, same)
    end
  else if String.eqb (url req) (base +:+ "/api/batch_get") then
    match payload req with
    | kw_json (JObj [(_, JArr ks)]) =>
        (answer 200 "" (Some (JObj [("values", JArr (map (slot w) ks))])), same)
    | _ => (answer 400 "Bad request" None, same)
    end
  else if String.eqb (url req) (base +:+ "/api/stats") then
    (answer 200 "{}" (Some (JObj [])), same)
  else (answer 404 "Not found" None, same).

#[export] Instance requests : Requests := {|
    world := t;
    Session := unit;
    Session_new := fun w => (tt, w);
    Session_request := fun _ req w => let '(r, w') := handle req w in (inr r, w');
    Session_close := fun _ w => {| kv := kv w; vectors := vectors w; idle := 0 |};
    urljoin := fun b e => b +:+ e
  |}.

Definition client : VectisClient.t :=
  {| VectisClient.base_url := base; VectisClient.timeout := 30;
     VectisClient.session := tt |}.

Definition holding (m : gmap string string) : VectisClient.state :=
  (∅, {| kv := m; vectors := ∅; idle := 0 |}).
End Remote.

(** A remote that breaks the positional contract: whatever the keys, its
  [/api/batch_get] answers with the one value ["x"]. *)
Module Misaligned.
#[export] Instance requests : Requests := {|
    world := unit;
    Session := unit;
    Session_new := fun w => (tt, w);
    Session_request := fun _ _ w =>
      (inr {| status_code := 200; text := "";
              json_doc := Some (JObj [("values", JArr [JStr "x"])]) |}, w);
    Session_close := fun _ w => w;
    urljoin := fun b e => b +:+ e
  |}.

Definition client : VectisClient.t :=
  {| VectisClient.base_url := "http://localhost:8080"; VectisClient.timeout := 30;
     VectisClient.session := tt |}.
End Misaligned.


(** A remote that cannot be reached: every request raises a
    RequestException. *)
Module Down.
#[export] Instance requests : Requests := {|
  world := unit;
  Session := unit;
  Session_new := fun w => (tt, w);
  Session_request := fun _ _ w => (inl "Connection refused", w);
  Session_close := fun _ w => w;
  urljoin := fun b e => b +:+ e
|}.

Definition client : VectisClient.t :=
  {| VectisClient.base_url := "http://localhost:8080"; VectisClient.timeout := 30;
     VectisClient.session := tt |}.
End Down.

(** A remote that answers every request with the same response. *)
Module Fixed.
Section Answer.
Variable response : Response.

Definition requests : Requests := {|
  world := unit;
  Session := unit;
  Session_new := fun w => (tt, w);
  Session_request := fun _ _ w => (inr response, w);
  Session_close := fun _ w => w;
  urljoin := fun b e => b +:+ e
|}.

Definition client : @VectisClient.t requests :=
  @VectisClient.Build_t requests "http://localhost:8080" 30 tt.
End Answer.
End Fixed.

(** A session that records its calls: the world of [R] together with
  the requests handed to [Session_request], oldest first. *)
Definition recording (R : Requests) : Requests := {|
  world := @world R * list Request;
  Session := @Session R;
  Session_new := fun wl =>
    let '(s, w') := @Session_new R (fst wl) in (s, (w', snd wl));
  Session_request := fun s req wl =>
    let '(r, w') := @Session_request R s req (fst wl) in (r, (w', snd wl ++ [req]));
  Session_close := fun s wl => (@Session_close R s (fst wl), snd wl);
  urljoin := @urljoin R
|}.

Definition recorded {R : Requests} (self : @VectisClient.t R)
  : @VectisClient.t (recording R) :=
  @VectisClient.Build_t (recording R)
    (VectisClient.base_url self) (VectisClient.timeout self)
    (VectisClient.session self).

(** The request [_request] hands to the session. *)
Definition sent {R : Requests} (self : VectisClient.t) (method endpoint : string)
  (kw : kwargs) : Request :=
  {| method := method;
     url := urljoin (VectisClient.base_url self) endpoint;
     timeout_ := VectisClient.timeout self;
     payload := kw |}.

(** A single-key result as a slot of a batch answer: the value, or
  [null] for a missing key. *)
Definition slot_of (o : option string) : json :=
  match o with Some s => JStr s | None => JNull end.

(** The same slot after [batch_get]'s truthiness test: an empty value
  has become [None]. *)
Definition slot_seen (o : option string) : json :=
  match o with
  | Some s => if String.eqb s "" then JNull else JStr s
  | None => JNull
  end.

(** A session that answers after [close] as it does before, as
  [requests.Session] does by opening connections on demand. *)
Definition reconnects {R : Requests} (self : VectisClient.t) : Prop :=
  ∀ req w,
    fst (Session_request (VectisClient.session self) req
           (Session_close (VectisClient.session self) w))
    = fst (Session_request (VectisClient.session self) req w).

(** Code that neither reads nor writes the world: its result and its
  heap are the same whatever the world is. *)
Definition heap_only {R : Requests} {A} (c : Py VectisClient.state A) : Prop :=
  ∀ (h : ndheap) (w1 w2 : world),
    fst (c (h, w1)) = fst (c (h, w2)) ∧ fst (snd (c (h, w1))) = fst (snd (c (h, w2))).

(** What a caller's double becomes in a [Vector] and back in a Python
  list: its float32 rounding, as a double. *)
Definition float32_rounding (x : float64) : float64 := F64.of_f32 (F32.of_f64 x).

(** The integer nearest to [m / 2^k], the even one when two are equally
  near. *)
Definition nearest_even (m k : Z) : Z :=
  let q := m / 2 ^ k in
  match 2 * (m mod 2 ^ k) ?= 2 ^ k with
  | Lt => q
  | Eq => if Z.even q then q else q + 1
  | Gt => q + 1
  end.

(** Rounding to binary32 as IEEE 754 words it (to nearest, ties to
  even), written with integer division and not with [binary_round]:
  the reference [F32.of_f64] is compared with.  For [x = m * 2^e] the
  last place of binary32 at the magnitude of [x] has the exponent [e'],
  which is [-149] for the subnormal numbers; [n * 2^e'] is the multiple
  of [2^e'] nearest to [x]; a mantissa rounded up to [2^24] is
  [2^23 * 2], and an exponent above 104 is beyond the largest binary32
  number. *)
Definition binary32_nearest (x : float64) : float32 :=
  match x with
  | S754_finite s m e =>
      let e' := Z.max (Z.log2 (Z.pos m) + e - 23) (-149) in
      let n := if e' <=? e then Z.pos m * 2 ^ (e - e')
               else nearest_even (Z.pos m) (e' - e) in
      let '(n, e') := if n =? 2 ^ 24 then (2 ^ 23, e' + 1) else (n, e') in
      match n with
      | Z.pos p => if e' <=? 104 then S754_finite s p e' else S754_infinity s
      | _ => S754_zero s
      end
  | _ => x
  end.

(** [json.dumps(v, allow_nan=False)] accepts [v]: no float in it is an
  infinity or a NaN. *)
Fixpoint encodable (v : json) : bool :=
  match v with
  | JFloat x => Fmt.is_finite x
  | JArr l => forallb encodable l
  | JObj m => forallb (fun kv => encodable (snd kv)) m
  | _ => true
  end.

(** The text of the [ValueError] of [json.dumps]. *)
Definition not_JSON_compliant : string :=
  "Out of range float values are not JSON compliant".

(** [requests.Session.request] over a transport [T]: the request is
  prepared before it is sent, and preparing encodes a [json=] body with
  [allow_nan=False]; a body that cannot be encoded raises
  [InvalidJSONError], a [RequestException], and nothing reaches the
  transport. *)
Definition encoding (T : Requests) : Requests := {|
  world := @world T;
  Session := @Session T;
  Session_new := @Session_new T;
  Session_request := fun s req w =>
    match payload req with
    | kw_json body =>
        if encodable body then @Session_request T s req w
        else (inl not_JSON_compliant, w)
    | _ => @Session_request T s req w
    end;
  Session_close := @Session_close T;
  urljoin := @urljoin T
|}.

(** The client on a session that encodes, over a transport that
  records. *)
Definition on_the_wire {R : Requests} (self : @VectisClient.t R)
  : @VectisClient.t (encoding (recording R)) :=
  @VectisClient.Build_t (encoding (recording R))
    (VectisClient.base_url self) (VectisClient.timeout self)
    (VectisClient.session self).

(** What a run of such a client has put on the network. *)
Definition transmitted {R : Requests} {A}
  (r : (exn + A) * (ndheap * (@world R * list Request))) : list Request :=
  snd (snd (snd r)).

(** The requests a run has handed to a recording session: the
  arguments of its calls of [session.request].  What the session puts
  on the network is [transmitted], below. *)
Definition wire {R : Requests} {A}
  (r : (exn + A) * (ndheap * (@world R * list Request))) : list Request :=
  snd (snd (snd r)).

(** The array of [normalize]'s result for a vector whose array is [a]. *)
Definition normalized (a : list float32) : list float32 :=
  if F32.ltb F32.zero (np.linalg_norm a)
  then np.divide_scalar a (np.linalg_norm a)
  else a.

(** The method and the endpoint of each operation, as its body passes
    them to [_request]. *)
Definition route {R : Requests} (op : VectisClient.operation) : string * string :=
  match op with
  | VectisClient.op_put _ _ => ("POST", "/api/put")
  | VectisClient.op_get _ => ("GET", "/api/get")
  | VectisClient.op_delete _ => ("POST", "/api/delete")
  | VectisClient.op_batch_put _ => ("POST", "/api/batch")
  | VectisClient.op_batch_get _ => ("POST", "/api/batch_get")
  | VectisClient.op_scan _ _ _ _ => ("GET", "/api/scan")
  | VectisClient.op_put_vector _ _ => ("POST", "/api/vector/put")
  | VectisClient.op_get_vector _ => ("GET", "/api/vector/get")
  | VectisClient.op_search_similar _ _ => ("POST", "/api/vector/search")
  | VectisClient.op_get_stats => ("GET", "/api/stats")
  | VectisClient.op_health_check => ("GET", "/api/health")
  end.

(** [n] slashes. *)
Fixpoint slashes (n : nat) : string :=
  match n with
  | O => EmptyString
  | S n' => String "/"%char (slashes n')
  end.

(** The last character of a string, if any. *)
Fixpoint last_char (s : string) : option ascii :=
  match s with
  | EmptyString => None
  | String c EmptyString => Some c
  | String _ s' => last_char s'
  end.

(** The text each operation puts before the remote's diagnostic when the
    status is not a success. *)
Definition failure_prefix {R : Requests} (op : VectisClient.operation) : string :=
  match op with
  | VectisClient.op_put _ _ => "PUT failed: "
  | VectisClient.op_get _ => "GET failed: "
  | VectisClient.op_delete _ => "DELETE failed: "
  | VectisClient.op_batch_put _ => "Batch PUT failed: "
  | VectisClient.op_batch_get _ => "Batch GET failed: "
  | VectisClient.op_scan _ _ _ _ => "SCAN failed: "
  | VectisClient.op_put_vector _ _ => "Vector PUT failed: "
  | VectisClient.op_get_vector _ => "Vector GET failed: "
  | VectisClient.op_search_similar _ _ => "Vector search failed: "
  | VectisClient.op_get_stats => "Failed to get stats: "
  | VectisClient.op_health_check => "Health check failed: "
  end.

(** The operations for which status 404 means absent. *)
Definition reads_one_key {R : Requests} (op : VectisClient.operation) : bool :=
  match op with
  | VectisClient.op_get _ | VectisClient.op_get_vector _ => true
  | _ => false
  end.

(** The operations that decode the body of a 200 answer as JSON. *)
Definition decodes_json {R : Requests} (op : VectisClient.operation) : bool :=
  match op with
  | VectisClient.op_batch_get _ | VectisClient.op_scan _ _ _ _
  | VectisClient.op_get_vector _ | VectisClient.op_search_similar _ _
  | VectisClient.op_get_stats | VectisClient.op_health_check => true
  | _ => false
  end.

(** The operations that return nothing. *)
Definition is_write {R : Requests} (op : VectisClient.operation) : bool :=
  match op with
  | VectisClient.op_put _ _ | VectisClient.op_delete _
  | VectisClient.op_batch_put _ | VectisClient.op_put_vector _ _ => true
  | _ => false
  end.

(** Every array of [h] is in [h'] as it was. *)
Definition arrays_kept (h h' : ndheap) : Prop :=
  ∀ l, l ∈ dom h → h' !! l = h !! l.

(** Code that changes no array that exists when it starts. *)
Definition keeps_arrays {R : Requests} {A} (c : Py VectisClient.state A) : Prop :=
  ∀ s, arrays_kept (fst s) (fst (snd (c s))).

(** A JSON object that has [k] under [name1] and [v] under [name2]. *)
Definition has_members (name1 name2 : string) (item : json) (kv : json * json) : Prop :=
  ∃ m, item = JObj m ∧ assoc name1 m = Some (fst kv) ∧ assoc name2 m = Some (snd kv).

(** What the comprehensions of [scan] and [search_similar] make of one
    item: [(item[name1], item[name2])]. *)
Definition item_pair (name1 name2 : string) (item : json) : exn + json * json :=
  match subscript item name1, subscript item name2 with
  | inr k, inr v => inr (k, v)
  | inl e, _ | _, inl e => inl e
  end.

(** ** gen_sample.py: a file of random vectors in the fvecs layout *)

Module gen_sample.

(** [sys.byteorder], the order in which [struct] packs its native
    formats. *)
Inductive byteorder := little | big.

Inductive error :=
| struct_error.     (* struct.error: argument out of range, bad format *)

Definition in_order (order : byteorder) (le : list byte) : list byte :=
  match order with little => le | big => rev le end.

(** [struct.pack('I', n)]: four bytes, for [0 <= n < 2^32] only. *)
Definition pack_I (order : byteorder) (n : Z) : error + list byte :=
  if (0 <=? n) && (n <? 2 ^ 32) then inr (in_order order (le_split 4 n))
  else inl struct_error.

(** [struct.unpack('I', b)]. *)
Definition unpack_I (order : byteorder) (b : list byte) : Z :=
  le_combine (in_order order b).

(** The 32 bits of a binary32 number: sign, biased exponent, fraction. *)
Definition bits_of_f32 (x : float32) : Z :=
  let sign (s : bool) := if s then 2 ^ 31 else 0 in
  match x with
  | S754_zero s => sign s
  | S754_infinity s => sign s + 255 * 2 ^ 23
  | S754_nan => 255 * 2 ^ 23 + 2 ^ 22
  | S754_finite s m e =>
      if Z.pos (digits2_pos m) =? 24
      then sign s + (e + 150) * 2 ^ 23 + (Z.pos m - 2 ^ 23)
      else sign s + Z.pos m
  end.

(** [struct.pack('f', x)] on a Python float, in native mode: the C
    cast to [float], with no range check; a double beyond the float32
    range is written as an infinity. *)
Definition pack_f (order : byteorder) (x : float64) : list byte :=
  in_order order (le_split 4 (bits_of_f32 (F32.of_f64 x))).

Fixpoint pack_each (order : byteorder) (data : list float64) : list byte :=
  match data with
  | [] => []
  | x :: data' => pack_f order x ++ pack_each order data'
  end.

(** [struct.pack(f'{dim}f', *data)]: a negative count is no format,
    and the count must be the number of values. *)
Definition pack_floats (order : byteorder) (dim : Z) (data : list float64)
  : error + list byte :=
  if (dim <? 0) || negb (Z.of_nat (length data) =? dim) then inl struct_error
  else inr (pack_each order data).

(** A record of the fvecs layout: the dimension in four bytes, then
    four bytes for each component. *)
Definition is_record (order : byteorder) (dim : Z) (r : list byte) : Prop :=
  ∃ header body, r = header ++ body
                 ∧ length header = 4%nat
                 ∧ unpack_I order header = dim
                 ∧ length body = (4 * Z.to_nat dim)%nat.

Section Generator.
Variable order : byteorder.
(** The state of the [random] module and its [random.random()]. *)
Variable rng : Type.
Variable random_random : rng → float64 * rng.

(** [[random.random() for _ in range(n)]]. *)
Fixpoint draw (n : nat) (g : rng) : list float64 * rng :=
  match n with
  | O => ([], g)
  | S n' =>
      let '(x, g1) := random_random g in
      let '(xs, g2) := draw n' g1 in
      (x :: xs, g2)
  end.

(** One turn of the loop, on the bytes written so far. *)
Definition write_vector (dim : Z) (out : list byte) (g : rng)
  : (error + unit) * (list byte * rng) :=
  match pack_I order dim with
  | inl e => (inl e, (out, g))
  | inr header =>
      let out1 := out ++ header in
      let '(data, g1) := draw (Z.to_nat dim) g in
      match pack_floats order dim data with
      | inl e => (inl e, (out1, g1))
      | inr body => (inr tt, (out1 ++ body, g1))
      end
  end.

(** [for _ in range(n)]. *)
Fixpoint write_vectors (n : nat) (dim : Z) (out : list byte) (g : rng)
  : (error + unit) * (list byte * rng) :=
  match n with
  | O => (inr tt, (out, g))
  | S n' =>
      match write_vector dim out g with
      | (inr _, (out1, g1)) => write_vectors n' dim out1 g1
      | r => r
      end
  end.

(** The file is opened with ['wb'], so it starts empty; what has been
    written is in it when the [with] block is left, also by an
    exception. *)
Definition generate_fvecs (filename : string) (num_vectors dim : Z)
  (fs : gmap string (list byte)) (g : rng)
  : (error + unit) * (gmap string (list byte) * rng) :=
  let '(r, (out, g')) := write_vectors (Z.to_nat num_vectors) dim [] g in
  (r, (<[filename := out]> fs, g')).
End Generator.

(** A stand-in for the [random] module to run the generator with: it
    counts its draws and always returns 0.5. *)
Definition halves (n : nat) : float64 * nat := (F64.of_bits 1 (-1), S n).
End gen_sample.

(** * Properties *)

(** ** The embedding at work *)

(** [[3, 4]] normalizes to [[0.6, 0.8]] in float32, a vector of norm
    exactly 1. *)
Example normalize_3_4 :
  fst ((v <- Vector.__init__ (Vector.of_list [F64.of_Z 3; F64.of_Z 4]) ;;
        n <- Vector.normalize v ;;
        a <- load (Vector.data n) ;;
        ret (a, np.linalg_norm a)) ∅)
  = inr ([F32.div (F32.of_bits 3 0) (F32.of_bits 5 0);
          F32.div (F32.of_bits 4 0) (F32.of_bits 5 0)],
         F32.of_bits 1 0).
Proof. vm_compute. reflexivity. Qed.

(** A write through the array that [to_numpy] hands out is a write to
    the vector; a normalized copy is not touched by it. *)
Example normalize_copy_is_independent :
  fst ((v <- Vector.__init__ (Vector.of_list [F64.of_Z 0; F64.of_Z 0]) ;;
        n <- Vector.normalize v ;;
        Vector.__setitem__ v 0 (F64.of_Z 7) ;;;
        x <- Vector.__getitem__ v 0 ;;
        y <- Vector.__getitem__ n 0 ;;
        ret (x, y)) ∅)
  = inr (F32.of_bits 7 0, F32.zero).
Proof. vm_compute. reflexivity. Qed.

(** The squares of [[2^-80]] underflow: its float32 norm is 0 and
    [normalize] hands back a copy, although the vector is not zero. *)
Example normalize_underflow_copies :
  np.linalg_norm (np.array [F64.of_bits 1 (-80)]) = S754_zero false
  ∧ fst ((v <- Vector.__init__ (Vector.of_list [F64.of_bits 1 (-80)]) ;;
          n <- Vector.normalize v ;;
          Vector.to_list n) ∅)
    = inr [F64.of_bits 1 (-80)].
Proof. vm_compute. split; reflexivity. Qed.

(** With an infinite component the distance of a vector to itself is
    NaN: [inf - inf]. *)
Example euclidean_distance_inf_is_nan :
  fst ((v <- Vector.__init__ (Vector.of_list [S754_infinity false]) ;;
        Vector.euclidean_distance v v) ∅)
  = inr S754_nan.
Proof. vm_compute. reflexivity. Qed.

(** Equal dimensions: the metrics on [[1, 0, 0]] and [[0, 1, 0]]. *)
Example metrics_on_unit_vectors :
  fst ((v <- Vector.__init__ (Vector.of_list [F64.of_Z 1; F64.of_Z 0; F64.of_Z 0]) ;;
        w <- Vector.__init__ (Vector.of_list [F64.of_Z 0; F64.of_Z 1; F64.of_Z 0]) ;;
        c <- Vector.cosine_similarity v w ;;
        p <- Vector.dot_product v w ;;
        d <- Vector.euclidean_distance v w ;;
        ret (c, p, d)) ∅)
  = inr (F64.zero, F64.zero, F64.of_f32 (F32.sqrt (F32.of_bits 2 0))).
Proof. vm_compute. reflexivity. Qed.

Example rstrip_slash_trailing : rstrip_slash "http://localhost:8080//" = "http://localhost:8080".
Proof. reflexivity. Qed.

(** The scenario of the spec: put, get, delete, get. *)
Example put_get_delete_get :
  fst ((VectisClient.put Remote.client "a" "1" ;;;
        x <- VectisClient.get Remote.client "a" ;;
        VectisClient.delete Remote.client "a" ;;;
        y <- VectisClient.get Remote.client "a" ;;
        ret (x, y)) (Remote.holding ∅))
  = inr (Some "1", None).
Proof. reflexivity. Qed.

(** The constructor probes the remote with [get_stats] and wraps any
    failure into [VectisConnectionError]. *)
Example init_probes_stats :
  wire (VectisClient.__init__ (R := recording Remote.requests)
          "http://localhost:8080/" 30 (∅, (snd (Remote.holding ∅), [])))
  = [{| method := "GET"; url := "http://localhost:8080/api/stats";
        timeout_ := 30; payload := kw_none |}].
Proof. reflexivity. Qed.

Example init_fails_fast :
  fst (VectisClient.__init__ (R := Remote.requests) "http://elsewhere:1/" 30
         (Remote.holding ∅))
  = inl (VectisConnectionError
           "Failed to connect to http://elsewhere:1/: Failed to get stats: Not found").
Proof. reflexivity. Qed.

(** ** Running the monad *)

Ltac run := unfold bind, ret, raise, lift, try_except; simpl.

(** ** The dict comprehension of [batch_get] *)

Section PairUp.
Implicit Types (pairs : list (string * json)) (d : gmap string json).

Lemma fold_step_dom pairs d :
  dom (fold_left VectisClient.insert_pair pairs d) = dom d ∪ list_to_set (map fst pairs).
Proof.
  revert d. induction pairs as [|[k v] pairs IH]; intros d; simpl.
  - by rewrite union_empty_r_L.
  - rewrite IH. unfold VectisClient.insert_pair. simpl. rewrite dom_insert_L.
    by rewrite (union_comm_L {[k]}), <- union_assoc_L.
Qed.

Lemma fold_step_other pairs d k :
  k ∉ map fst pairs → fold_left VectisClient.insert_pair pairs d !! k = d !! k.
Proof.
  revert d. induction pairs as [|[k' v] pairs IH]; intros d Hk; simpl; [done|].
  simpl in Hk. apply not_elem_of_cons in Hk as [Hne Hk].
  rewrite IH by done. unfold VectisClient.insert_pair. simpl. by rewrite lookup_insert_ne.
Qed.

Lemma fold_step_lookup pairs d k v :
  NoDup (map fst pairs) → (k, v) ∈ pairs →
  fold_left VectisClient.insert_pair pairs d !! k = Some (or_None v).
Proof.
  revert d. induction pairs as [|[k' v'] pairs IH]; intros d Hnd Hin; simpl.
  - by apply elem_of_nil in Hin.
  - simpl in Hnd. apply NoDup_cons in Hnd as [Hk' Hnd].
    apply elem_of_cons in Hin as [Heq|Hin].
    + inversion Heq; subst. rewrite fold_step_other by done.
      unfold VectisClient.insert_pair. simpl. by rewrite lookup_insert_eq.
    + by apply IH.
Qed.

Lemma pair_up_dom pairs :
  dom (VectisClient.pair_up pairs) = list_to_set (map fst pairs).
Proof.
  unfold VectisClient.pair_up.
  by rewrite fold_step_dom, dom_empty_L, union_empty_l_L.
Qed.

Lemma pair_up_lookup pairs k v :
  NoDup (map fst pairs) → (k, v) ∈ pairs →
  VectisClient.pair_up pairs !! k = Some (or_None v).
Proof. apply fold_step_lookup. Qed.
End PairUp.

Lemma map_fst_combine {A B} (l : list A) (k : list B) :
  map fst (combine l k) = take (length k) l.
Proof.
  revert k. induction l as [|x l IH]; intros [|y k]; simpl; try done.
  by rewrite IH.
Qed.

Lemma combine_lookup {A B} (l : list A) (k : list B) (i : nat) x y :
  l !! i = Some x → k !! i = Some y → (x, y) ∈ combine l k.
Proof.
  revert k i. induction l as [|a l IH]; intros [|b k] [|i]; simpl; try done.
  - intros [= ->] [= ->]. apply elem_of_cons. by left.
  - intros Hx Hy. apply elem_of_cons. right. by eapply IH.
Qed.

(** ** The client *)

Section ClientFacts.
Context `{R : Requests}.
Implicit Types (self : VectisClient.t) (h : ndheap) (w : world).

Lemma _request_answered self m e kw h w response w' :
  Session_request (VectisClient.session self) (sent self m e kw) w = (inr response, w') →
  VectisClient._request self m e kw (h, w) = (inr response, (h, w')).
Proof.
  intros Hs. unfold VectisClient._request, VectisClient.on_world. run.
  fold (sent self m e kw). by rewrite Hs.
Qed.

Lemma _request_failed self m e kw h w msg w' :
  Session_request (VectisClient.session self) (sent self m e kw) w = (inl msg, w') →
  VectisClient._request self m e kw (h, w)
  = (inl (VectisConnectionError ("Request failed: " +:+ msg)), (h, w')).
Proof.
  intros Hs. unfold VectisClient._request, VectisClient.on_world. run.
  fold (sent self m e kw). by rewrite Hs.
Qed.

(** What [get] makes of an answer, by status code. *)
Lemma get_answered self key h w response w' :
  Session_request (VectisClient.session self)
    (sent self "GET" "/api/get" (kw_params [("key", JStr key)])) w = (inr response, w') →
  VectisClient.get self key (h, w)
  = (if status_code response =? 404 then inr None
     else if status_code response =? 200 then inr (Some (text response))
     else inl (VectisError ("GET failed: " +:+ text response)),
     (h, w')).
Proof.
  intros Hs. unfold VectisClient.get, bind.
  rewrite (_request_answered _ _ _ _ _ _ _ _ Hs).
  destruct (status_code response =? 404); [done|].
  by destruct (status_code response =? 200).
Qed.

(** What [batch_get] makes of a 200 answer that carries a JSON object
  with a list under ["values"]. *)
Lemma batch_get_answered self keys h w response w' members vs :
  Session_request (VectisClient.session self)
    (sent self "POST" "/api/batch_get" (kw_json (JObj [("keys", JArr (map JStr keys))]))) w
  = (inr response, w') →
  status_code response = 200 →
  json_doc response = Some (JObj members) →
  assoc "values" members = Some (JArr vs) →
  VectisClient.batch_get self keys (h, w)
  = (inr (VectisClient.pair_up (combine keys vs)), (h, w')).
Proof.
  intros Hs Hc Hj Hv. unfold VectisClient.batch_get, bind.
  rewrite (_request_answered _ _ _ _ _ _ _ _ Hs), Hc. simpl.
  unfold VectisClient.json_of. rewrite Hj. run. by rewrite Hv.
Qed.
End ClientFacts.

(** C8: [get] tells three outcomes apart by the status code of the
  answer: 404 is the absent value [None] and no error, 200 is the
  body of the response, and every other status raises [VectisError]
  (the spec's OperationFailed) carrying the remote's text. *)
Theorem get_three_outcomes `{R : Requests} (self : VectisClient.t) (key : string)
  (h : ndheap) (w : world) (response : Response) (w' : world) :
  Session_request (VectisClient.session self)
    (sent self "GET" "/api/get" (kw_params [("key", JStr key)])) w = (inr response, w') →
  (status_code response = 404 →
     fst (VectisClient.get self key (h, w)) = inr None) ∧
  (status_code response = 200 →
     fst (VectisClient.get self key (h, w)) = inr (Some (text response))) ∧
  (status_code response ≠ 404 → status_code response ≠ 200 →
     fst (VectisClient.get self key (h, w))
     = inl (VectisError ("GET failed: " +:+ text response))).
Proof.
  intros Hs. rewrite (get_answered _ _ _ _ _ _ Hs). simpl.
  repeat split.
  - by intros ->.
  - by intros ->.
  - intros H404 H200.
    destruct (Z.eqb_spec (status_code response) 404); [done|].
    by destruct (Z.eqb_spec (status_code response) 200).
Qed.

Lemma get_three_outcomes_witness :
  fst (VectisClient.get Remote.client "a" (Remote.holding {["a" := "1"]}))
  = inr (Some "1").
Proof.
  exact (proj1 (proj2 (get_three_outcomes Remote.client "a" ∅
                         {| Remote.kv := {["a" := "1"]}; Remote.vectors := ∅;
                            Remote.idle := 0 |}
                         (Remote.answer 200 "1" None)
                         {| Remote.kv := {["a" := "1"]}; Remote.vectors := ∅;
                            Remote.idle := 1 |}
                         eq_refl)) eq_refl).
Defined.

(** C1, as the claim states it, fails: the remote answers two keys
  with one value, and [batch_get] returns a dict that holds the first
  key only; no exception is raised. *)
Lemma batch_get_short_answer_returns :
  ∃ d, fst (VectisClient.batch_get Misaligned.client ["a"; "b"] (∅, tt)) = inr d
       ∧ d !! "a" = Some (JStr "x") ∧ d !! "b" = None.
Proof. eexists. split; [reflexivity|]. split; reflexivity. Qed.

Lemma batch_get_zip `{R : Requests} (self : VectisClient.t)
  (keys : list string) (h : ndheap) (w : world) (response : Response) (w' : world)
  (members : list (string * json)) (vs : list json) :
  Session_request (VectisClient.session self)
    (sent self "POST" "/api/batch_get" (kw_json (JObj [("keys", JArr (map JStr keys))]))) w
  = (inr response, w') →
  status_code response = 200 →
  json_doc response = Some (JObj members) →
  assoc "values" members = Some (JArr vs) →
  ∃ d, VectisClient.batch_get self keys (h, w) = (inr d, (h, w'))
       ∧ dom d = list_to_set (take (length vs) keys)
       ∧ (NoDup keys → ∀ (i : nat) k v,
            keys !! i = Some k → vs !! i = Some v → d !! k = Some (or_None v)).
Proof.
  intros Hs Hc Hj Hv. eexists. split; [by eapply batch_get_answered|].
  split.
  - by rewrite pair_up_dom, map_fst_combine.
  - intros Hnd i k v Hk Hvi. apply pair_up_lookup.
    + rewrite map_fst_combine. eapply sublist_NoDup; [|apply sublist_take]. done.
    + by eapply combine_lookup.
Qed.

Lemma beyond_take_absent (keys : list string) (n i : nat) (k : string)
  (d : gmap string json) :
  dom d = list_to_set (take n keys) → NoDup keys →
  keys !! i = Some k → (n ≤ i)%nat → d !! k = None.
Proof.
  intros Hdom Hnd Hk Hi. apply not_elem_of_dom. rewrite Hdom.
  rewrite elem_of_list_to_set, elem_of_take. intros (j & Hj & Hlt).
  assert (i = j) by (by eapply NoDup_lookup). subst. lia.
Qed.

(** C1, amended: [batch_get] checks no length.  On a 200 answer whose
  ["values"] list has any length, it returns the dict that pairs the
  keys with the values position by position as far as the shorter of
  the two reaches, and drops the rest: its keys are the first
  [length vs] request keys, and (for distinct keys) the key at
  position [i] maps to the value at position [i], a falsy value
  read as [None]. *)
Theorem batch_get_pairs_by_position `{R : Requests} (self : VectisClient.t)
  (keys : list string) (h : ndheap) (w : world) (response : Response) (w' : world)
  (members : list (string * json)) (vs : list json) :
  Session_request (VectisClient.session self)
    (sent self "POST" "/api/batch_get" (kw_json (JObj [("keys", JArr (map JStr keys))]))) w
  = (inr response, w') →
  status_code response = 200 →
  json_doc response = Some (JObj members) →
  assoc "values" members = Some (JArr vs) →
  ∃ d, VectisClient.batch_get self keys (h, w) = (inr d, (h, w'))
       ∧ dom d = list_to_set (take (length vs) keys)
       ∧ (NoDup keys → ∀ (i : nat) k v,
            keys !! i = Some k → vs !! i = Some v → d !! k = Some (or_None v))
       ∧ (NoDup keys → ∀ (i : nat) k,
            keys !! i = Some k → (length vs ≤ i)%nat → d !! k = None).
Proof.
  intros Hs Hc Hj Hv.
  destruct (batch_get_zip self keys h w response w' members vs Hs Hc Hj Hv)
    as (d & Hd & Hdom & Hlook).
  exists d. repeat split; try done.
  intros Hnd i k Hk Hi. by eapply beyond_take_absent.
Qed.

Lemma batch_get_pairs_by_position_witness :
  ∃ d, VectisClient.batch_get Misaligned.client ["a"; "b"] (∅, tt) = (inr d, (∅, tt))
       ∧ dom d = list_to_set (take 1%nat ["a"; "b"])
       ∧ (NoDup ["a"; "b"] → ∀ (i : nat) k v,
            ["a"; "b"] !! i = Some k → [JStr "x"] !! i = Some v → d !! k = Some (or_None v))
       ∧ (NoDup ["a"; "b"] → ∀ (i : nat) k,
            ["a"; "b"] !! i = Some k → (1 ≤ i)%nat → d !! k = None).
Proof.
  exact (batch_get_pairs_by_position Misaligned.client ["a"; "b"] ∅ tt
           {| status_code := 200; text := "";
              json_doc := Some (JObj [("values", JArr [JStr "x"])]) |} tt
           [("values", JArr [JStr "x"])] [JStr "x"]
           eq_refl eq_refl eq_refl eq_refl).
Defined.

(** C3, as the claim states it, fails: the store holds the empty string
  under ["a"]; [get] returns it as a present empty string, [batch_get]
  returns [None] for the same key. *)
Lemma batch_get_empty_value_absent :
  fst (VectisClient.get Remote.client "a" (Remote.holding {["a" := ""]}))
  = inr (Some "")
  ∧ ∃ d, fst (VectisClient.batch_get Remote.client ["a"] (Remote.holding {["a" := ""]}))
         = inr d
         ∧ d !! "a" = Some JNull.
Proof. split; [reflexivity|]. eexists. split; reflexivity. Qed.

(** C3, amended: for a list of distinct keys answered by a value
  sequence of the same length whose slots are the results [os] of the
  single-key [get]s (the value, [null] for a missing key), [batch_get]
  returns a dict whose key set is the set of the input keys, and each
  key maps to what [get] returns for it, except that a stored empty
  string comes back as [None], like a missing key. *)
Theorem batch_get_matches_get `{R : Requests} (self : VectisClient.t)
  (keys : list string) (h : ndheap) (w : world) (response : Response) (w' : world)
  (members : list (string * json)) (os : list (option string)) :
  NoDup keys →
  Session_request (VectisClient.session self)
    (sent self "POST" "/api/batch_get" (kw_json (JObj [("keys", JArr (map JStr keys))]))) w
  = (inr response, w') →
  status_code response = 200 →
  json_doc response = Some (JObj members) →
  mapM (fun k => fst (VectisClient.get self k (h, w))) keys = inr os →
  assoc "values" members = Some (JArr (map slot_of os)) →
  ∃ d, fst (VectisClient.batch_get self keys (h, w)) = inr d
       ∧ dom d = list_to_set keys
       ∧ ∀ (i : nat) k o, keys !! i = Some k → os !! i = Some o →
           fst (VectisClient.get self k (h, w)) = inr o ∧ d !! k = Some (slot_seen o).
Proof.
  intros Hnd Hs Hc Hj Hos Hv.
  assert (Hlen : length os = length keys).
  { clear -Hos. revert os Hos. induction keys as [|k keys IH]; intros os; simpl.
    - by intros [= <-].
    - destruct (fst (VectisClient.get self k (h, w))); [done|].
      destruct (mapM _ keys) as [|os'] eqn:E; [done|].
      intros [= <-]. simpl. f_equal. by apply IH. }
  destruct (batch_get_zip self keys h w response w' members _
              Hs Hc Hj Hv) as (d & Hd & Hdom & Hlook).
  exists d. rewrite Hd. split; [done|]. split.
  - rewrite Hdom, length_map, Hlen. by rewrite firstn_all.
  - intros i k o Hk Ho. split.
    + clear -Hos Hk Ho. revert os i Hos Hk Ho.
      induction keys as [|k' keys IH]; intros os i; simpl; [done|].
      destruct (fst (VectisClient.get self k' (h, w))) as [|o'] eqn:E; [done|].
      destruct (mapM _ keys) as [|os'] eqn:E'; [done|].
      intros [= <-]. destruct i as [|i]; simpl.
      * by intros [= <-] [= <-].
      * by apply IH.
    + rewrite (Hlook Hnd i k (slot_of o) Hk).
      * f_equal. destruct o as [s|]; [|done]. unfold or_None. simpl.
        by destruct (String.eqb s "").
      * by rewrite list_lookup_fmap, Ho.
Qed.

Lemma batch_get_matches_get_witness :
  let s := Remote.holding {["a" := "1"; "b" := ""]} in
  ∃ d, fst (VectisClient.batch_get Remote.client ["a"; "b"; "c"] s) = inr d
       ∧ dom d = list_to_set ["a"; "b"; "c"]
       ∧ ∀ (i : nat) k o, ["a"; "b"; "c"] !! i = Some k →
           [Some "1"; Some ""; None] !! i = Some o →
           fst (VectisClient.get Remote.client k s) = inr o ∧ d !! k = Some (slot_seen o).
Proof.
  apply (batch_get_matches_get Remote.client ["a"; "b"; "c"] ∅
           {| Remote.kv := {["a" := "1"; "b" := ""]}; Remote.vectors := ∅;
              Remote.idle := 0 |}
           (Remote.answer 200 ""
              (Some (JObj [("values", JArr [JStr "1"; JStr ""; JNull])])))
           {| Remote.kv := {["a" := "1"; "b" := ""]}; Remote.vectors := ∅;
              Remote.idle := 1 |}
           [("values", JArr [JStr "1"; JStr ""; JNull])]
           [Some "1"; Some ""; None]).
  - compute_done.
  - reflexivity.
  - reflexivity.
  - reflexivity.
  - reflexivity.
  - reflexivity.
Defined.

(** ** No Closed state *)

(** C4, as the claim states it, fails: after [put] and [close], [get]
  issues its request and returns the stored value. *)
Lemma get_after_close_returns :
  fst ((VectisClient.put Remote.client "a" "1" ;;;
        VectisClient.close Remote.client ;;;
        VectisClient.call Remote.client (VectisClient.op_get "a")) (Remote.holding ∅))
  = inr (VectisClient.res_value (Some "1")).
Proof. reflexivity. Qed.

Section AfterClose.
Context `{R : Requests}.
Variable self : VectisClient.t.

(** [close] leaves the heap alone and hands the world to the session's
  own [close]. *)
Lemma close_state (h : ndheap) (w : world) :
  VectisClient.close self (h, w)
  = (inr tt, (h, Session_close (VectisClient.session self) w)).
Proof. reflexivity. Qed.

Lemma _request_after_close m e kw (h : ndheap) (w : world) :
  reconnects self →
  ∃ r wa wb,
    VectisClient._request self m e kw (h, Session_close (VectisClient.session self) w)
    = (r, (h, wa))
    ∧ VectisClient._request self m e kw (h, w) = (r, (h, wb)).
Proof.
  intros Hr. unfold VectisClient._request, VectisClient.on_world. run.
  specialize (Hr {| method := m; url := urljoin (VectisClient.base_url self) e;
                    timeout_ := VectisClient.timeout self; payload := kw |} w).
  destruct (Session_request _ _ (Session_close _ w)) as [r1 wa].
  destruct (Session_request _ _ w) as [r2 wb].
  simpl in Hr. subst r2. destruct r1; eauto.
Qed.
End AfterClose.

Section HeapOnly.
Context `{R : Requests}.

Lemma heap_only_ret {A} (a : A) : heap_only (ret a).
Proof. by intros h w1 w2. Qed.

Lemma heap_only_raise {A} (e : exn) : heap_only (@raise _ A e).
Proof. by intros h w1 w2. Qed.

Lemma heap_only_lift {A} (r : exn + A) : heap_only (lift r).
Proof. by intros h w1 w2. Qed.

Lemma heap_only_on_heap {A} (c : Py ndheap A) : heap_only (VectisClient.on_heap c).
Proof. intros h w1 w2. unfold VectisClient.on_heap. simpl. by destruct (c h). Qed.

Lemma heap_only_json_of response : heap_only (VectisClient.json_of response).
Proof. intros h w1 w2. unfold VectisClient.json_of. by destruct (json_doc response). Qed.

Lemma heap_only_bind {A B} (c : Py VectisClient.state A) (k : A → Py VectisClient.state B) :
  heap_only c → (∀ a, heap_only (k a)) → heap_only (bind c k).
Proof.
  intros Hc Hk h w1 w2. unfold bind.
  destruct (Hc h w1 w2) as [Hr Hh].
  destruct (c (h, w1)) as [r1 [h1 w1']], (c (h, w2)) as [r2 [h2 w2']].
  simpl in Hr, Hh. subst r2 h2. destruct r1 as [e|a]; [done|]. apply Hk.
Qed.

Lemma heap_only_if {A} (b : bool) (c1 c2 : Py VectisClient.state A) :
  heap_only c1 → heap_only c2 → heap_only (if b then c1 else c2).
Proof. by destruct b. Qed.

Lemma request_then_after_close {A} (self : VectisClient.t) m e kw
  (k : Response → Py VectisClient.state A) (h : ndheap) (w : world) :
  reconnects self → (∀ response, heap_only (k response)) →
  fst (bind (VectisClient._request self m e kw) k
         (h, Session_close (VectisClient.session self) w))
  = fst (bind (VectisClient._request self m e kw) k (h, w)).
Proof.
  intros Hr Hk. unfold bind.
  destruct (_request_after_close self m e kw h w Hr) as (r & wa & wb & -> & ->).
  destruct r as [err|response]; [done|]. apply Hk.
Qed.

Lemma prelude_then_after_close {A B} (self : VectisClient.t) (c : Py ndheap A)
  (k : A → Py VectisClient.state B) (h : ndheap) (w : world) :
  (∀ a h', fst (k a (h', Session_close (VectisClient.session self) w)) = fst (k a (h', w))) →
  fst (bind (VectisClient.on_heap c) k (h, Session_close (VectisClient.session self) w))
  = fst (bind (VectisClient.on_heap c) k (h, w)).
Proof.
  intros Hk. unfold bind, VectisClient.on_heap. simpl.
  destruct (c h) as [[err|a] h']; [done|]. apply Hk.
Qed.
End HeapOnly.

Lemma bind_assoc {S A B C} (c : Py S A) (k1 : A → Py S B) (k2 : B → Py S C) (s : S) :
  bind (bind c k1) k2 s = bind c (fun a => bind (k1 a) k2) s.
Proof.
  unfold bind. destruct (c s) as [[e|a] s']; [done|]. done.
Qed.

Create HintDb heap_only.
#[local] Hint Resolve heap_only_ret heap_only_raise heap_only_lift heap_only_on_heap
  heap_only_json_of : heap_only.

Ltac heap_only :=
  repeat first
    [ solve [eauto with heap_only]
    | apply heap_only_if
    | apply heap_only_bind; [|intros ?] ].

Ltac after_close Hr :=
  repeat first
    [ rewrite !bind_assoc
    | apply prelude_then_after_close; intros ? ?
    | apply request_then_after_close; [exact Hr | intros ?; heap_only] ].

(** C4, amended: the client keeps no Connected or Closed state, and
  [close] only closes the session.  An operation called after
  [close] still issues its request and raises no ClientClosed
  condition: with a session that answers after [close] as before
  (which [requests.Session] does, opening connections on demand),
  each of the eleven operations returns after [close] exactly what
  it returns without it. *)
Theorem call_after_close `{R : Requests} (self : VectisClient.t)
  (op : VectisClient.operation) (h : ndheap) (w : world) :
  reconnects self →
  fst ((VectisClient.close self ;;; VectisClient.call self op) (h, w))
  = fst (VectisClient.call self op (h, w)).
Proof.
  intros Hr. unfold bind at 1. rewrite close_state.
  destruct op; unfold VectisClient.call;
    unfold VectisClient.put, VectisClient.get, VectisClient.delete,
      VectisClient.batch_put, VectisClient.batch_get, VectisClient.scan,
      VectisClient.put_vector, VectisClient.get_vector, VectisClient.search_similar,
      VectisClient.get_stats, VectisClient.health_check;
    after_close Hr.
Qed.

Lemma Remote_reconnects : reconnects Remote.client.
Proof.
  intros req [kv vectors idle]. simpl.
  assert (fst (Remote.handle req {| Remote.kv := kv; Remote.vectors := vectors;
                                    Remote.idle := 0 |})
          = fst (Remote.handle req {| Remote.kv := kv; Remote.vectors := vectors;
                                      Remote.idle := idle |})) as E.
  { unfold Remote.handle, Remote.with_kv. simpl. repeat case_match; reflexivity. }
  revert E.
  generalize (Remote.handle req {| Remote.kv := kv; Remote.vectors := vectors;
                                   Remote.idle := 0 |}),
             (Remote.handle req {| Remote.kv := kv; Remote.vectors := vectors;
                                   Remote.idle := idle |}).
  intros [r1 w1] [r2 w2]. simpl. by intros ->.
Qed.

Lemma call_after_close_witness :
  fst ((VectisClient.close Remote.client ;;;
        VectisClient.call Remote.client (VectisClient.op_get "a"))
         (Remote.holding {["a" := "1"]}))
  = inr (VectisClient.res_value (Some "1")).
Proof.
  exact (call_after_close Remote.client (VectisClient.op_get "a") ∅
           {| Remote.kv := {["a" := "1"]}; Remote.vectors := ∅; Remote.idle := 0 |}
           Remote_reconnects).
Defined.

(** ** Vectors on the wire *)

Lemma alloc_then_load {A} (a : list float32) (k : loc → list float32 → Py ndheap A)
  (h : ndheap) :
  (l <- alloc a ;; x <- load l ;; k l x) h
  = k (fresh (dom h)) a (<[fresh (dom h) := a]> h).
Proof. unfold bind, alloc, load. simpl. by rewrite lookup_insert_eq. Qed.

Lemma Vector_of_list_to_list (d : list float64) (h : ndheap) :
  (vec <- Vector.__init__ (Vector.of_list d) ;; Vector.to_list vec) h
  = (inr (map float32_rounding d), <[fresh (dom h) := np.array d]> h).
Proof.
  unfold Vector.__init__, Vector.to_list. rewrite bind_assoc.
  unfold bind, alloc, load, ret. simpl. rewrite lookup_insert_eq.
  unfold np.tolist, np.array. by rewrite map_map.
Qed.

Lemma tolist_array (d : list float64) : np.tolist (np.array d) = map float32_rounding d.
Proof. unfold np.tolist, np.array. by rewrite map_map. Qed.

Section Wire.
Context `{R : Requests}.
Variable self : VectisClient.t.

Lemma put_vector_sends key vector (h : ndheap) (w : world) :
  wire (VectisClient.put_vector (recorded self) key vector (h, (w, [])))
  = [sent self "POST" "/api/vector/put"
       (kw_json (JObj [("key", JStr key);
                       ("vector", JArr (map JFloat (map float32_rounding vector)))]))].
Proof.
  unfold wire, VectisClient.put_vector, VectisClient.on_heap, VectisClient._request,
    VectisClient.on_world, Vector.__init__, Vector.to_list, bind, alloc, load, ret, raise.
  simpl. rewrite lookup_insert_eq. simpl. rewrite tolist_array.
  destruct (Session_request _ _ w) as [[msg|response] w']; simpl; [done|].
  by destruct (negb _).
Qed.

Lemma search_similar_sends query k (h : ndheap) (w : world) :
  wire (VectisClient.search_similar (recorded self) query k (h, (w, [])))
  = [sent self "POST" "/api/vector/search"
       (kw_json (JObj [("query", JArr (map JFloat (map float32_rounding query)));
                       ("k", JInt k)]))].
Proof.
  unfold wire, VectisClient.search_similar, VectisClient.on_heap, VectisClient._request,
    VectisClient.on_world, Vector.__init__, Vector.to_list, bind, alloc, load, ret, raise.
  simpl. rewrite lookup_insert_eq. simpl. rewrite tolist_array.
  destruct (Session_request _ _ w) as [[msg|response] w']; simpl; [done|].
  destruct (negb _); [done|].
  unfold VectisClient.json_of, lift, ret, raise.
  repeat (case_match; simplify_eq; simpl; try done).
Qed.
End Wire.

(** ** The Vector class: shapes, indices, copies *)

Section VectorFacts.
Implicit Types (self other : Vector.t) (a b : list float32) (h : ndheap).

Lemma load_some self a h :
  h !! Vector.data self = Some a → load (Vector.data self) h = (inr a, h).
Proof. intros H. unfold load. by rewrite H. Qed.

Lemma dot_same_length a b :
  length a = length b → np.dot a b = inr (np.sum_of_products a b).
Proof. intros H. unfold np.dot. by rewrite H, Nat.eqb_refl. Qed.

Lemma dot_other_length a b : length a ≠ length b → np.dot a b = inl ValueError.
Proof.
  intros H. unfold np.dot. by destruct (Nat.eqb_spec (length a) (length b)).
Qed.

Lemma index_in_range (n : nat) (i : Z) :
  - Z.of_nat n <= i < Z.of_nat n →
  np.index n i = inr (Z.to_nat (i mod Z.of_nat n)) ∧ (Z.to_nat (i mod Z.of_nat n) < n)%nat.
Proof.
  intros Hi. unfold np.index.
  destruct (Z.leb_spec 0 i), (Z.ltb_spec i (Z.of_nat n)); simpl; try lia.
  - rewrite Z.mod_small by lia. split; [done|lia].
  - destruct (Z.leb_spec (- Z.of_nat n) i), (Z.ltb_spec i 0); simpl; try lia.
    replace (i mod Z.of_nat n) with (i + Z.of_nat n).
    + split; [done|lia].
    + apply Z.mod_unique with (q := -1); lia.
Qed.

Lemma index_out_of_range (n : nat) (i : Z) :
  ¬ (- Z.of_nat n <= i < Z.of_nat n) →
  np.index n i = inl (if (- 2 ^ 63 <=? i) && (i <? 2 ^ 63) then IndexError
                      else OverflowError).
Proof.
  intros Hi. unfold np.index.
  destruct (Z.leb_spec 0 i), (Z.ltb_spec i (Z.of_nat n)); simpl; try lia;
    destruct (Z.leb_spec (- Z.of_nat n) i), (Z.ltb_spec i 0); simpl; try lia;
    by destruct (_ && _).
Qed.
End VectorFacts.

(** C6: for two vectors of equal dimension, when the float32 norm of
  either compares equal to zero, [cosine_similarity] returns the
  Python float [0.0] (positive zero: no NaN, no exception) and
  leaves the heap as it was. *)
Theorem cosine_similarity_zero_norm (self other : Vector.t) (a b : list float32)
  (h : ndheap) :
  h !! Vector.data self = Some a →
  h !! Vector.data other = Some b →
  length a = length b →
  F32.eqb (np.linalg_norm a) F32.zero = true
  ∨ F32.eqb (np.linalg_norm b) F32.zero = true →
  Vector.cosine_similarity self other h = (inr (S754_zero false), h).
Proof.
  intros Ha Hb Hlen Hz. unfold Vector.cosine_similarity, bind.
  rewrite (load_some _ _ _ Ha), (load_some _ _ _ Hb).
  rewrite (dot_same_length _ _ Hlen). unfold lift.
  destruct Hz as [-> | ->]; [done|]. by rewrite orb_true_r.
Qed.

Lemma cosine_similarity_zero_norm_witness :
  let h : ndheap := {[1%positive := [F32.zero; F32.zero];
                      2%positive := [F32.of_bits 3 0; F32.of_bits 4 0]]} in
  Vector.cosine_similarity {| Vector.data := 1%positive |} {| Vector.data := 2%positive |} h
  = (inr (S754_zero false), h).
Proof.
  intros h.
  apply (cosine_similarity_zero_norm {| Vector.data := 1%positive |}
           {| Vector.data := 2%positive |}
           [F32.zero; F32.zero] [F32.of_bits 3 0; F32.of_bits 4 0] h).
  - reflexivity.
  - reflexivity.
  - reflexivity.
  - left. reflexivity.
Defined.

(** C2, as the claim states it, fails: the Euclidean distance between
  a vector of two components and a vector of one component raises
  nothing; the single component is broadcast, and the call returns
  [sqrt((3-1)^2 + (4-1)^2) = sqrt(13)] in float32. *)
Lemma euclidean_distance_broadcasts :
  let h : ndheap := {[1%positive := [F32.of_bits 3 0; F32.of_bits 4 0];
                      2%positive := [F32.of_bits 1 0]]} in
  fst (Vector.euclidean_distance {| Vector.data := 1%positive |}
         {| Vector.data := 2%positive |} h)
  = inr (F64.of_f32 (F32.sqrt (F32.of_bits 13 0))).
Proof. vm_compute. reflexivity. Qed.

(** C2, amended: there is no dimension check of the class's own.  For
  vectors of differing dimension, [cosine_similarity] and
  [dot_product] raise NumPy's [ValueError] at their first statement
  and change nothing; [euclidean_distance] raises it too when neither
  dimension is 1, and when exactly one vector has a single component
  it broadcasts that component against the other vector and returns
  a distance. *)
Theorem metrics_on_differing_dimensions (self other : Vector.t) (a b : list float32)
  (h : ndheap) :
  h !! Vector.data self = Some a →
  h !! Vector.data other = Some b →
  length a ≠ length b →
  Vector.cosine_similarity self other h = (inl ValueError, h)
  ∧ Vector.dot_product self other h = (inl ValueError, h)
  ∧ (length a ≠ 1%nat → length b ≠ 1%nat →
       Vector.euclidean_distance self other h = (inl ValueError, h))
  ∧ (∀ x, a = [x] →
       Vector.euclidean_distance self other h
       = (inr (F64.of_f32 (np.linalg_norm (map (fun y => F32.sub x y) b))), h))
  ∧ (∀ y, b = [y] →
       Vector.euclidean_distance self other h
       = (inr (F64.of_f32 (np.linalg_norm (map (fun x => F32.sub x y) a))), h)).
Proof.
  intros Ha Hb Hlen.
  unfold Vector.cosine_similarity, Vector.dot_product, Vector.euclidean_distance, bind.
  rewrite (load_some _ _ _ Ha), (load_some _ _ _ Hb).
  rewrite (dot_other_length _ _ Hlen). unfold lift, np.subtract, np.broadcast.
  destruct (Nat.eqb_spec (length a) (length b)) as [|_]; [done|].
  repeat split.
  - intros H1 H2. destruct a as [|x [|x' a]], b as [|y [|y' b]]; simpl in *; done.
  - intros x ->. simpl. by rewrite map_map.
  - intros y ->. destruct a as [|x [|x' a]]; simpl in *; try done;
      by rewrite ?map_map.
Qed.

Lemma metrics_on_differing_dimensions_witness :
  let h : ndheap := {[1%positive := [F32.of_bits 3 0; F32.of_bits 4 0];
                      2%positive := [F32.of_bits 1 0]]} in
  Vector.dot_product {| Vector.data := 1%positive |} {| Vector.data := 2%positive |} h
  = (inl ValueError, h).
Proof.
  intros h.
  apply (metrics_on_differing_dimensions {| Vector.data := 1%positive |}
           {| Vector.data := 2%positive |}
           [F32.of_bits 3 0; F32.of_bits 4 0] [F32.of_bits 1 0] h).
  - reflexivity.
  - reflexivity.
  - simpl. lia.
Defined.

(** ** normalize *)

(** C5: at a vector whose square overflows float32 the code breaks the
  claim, and with it the docstring of [normalize] ("Normalize the
  vector to unit length (L2 norm = 1)").  The vector [[2^64]] has the
  float32 norm [+inf], which is not zero; every component is divided
  by it, and [normalize] returns [[0.0]], a vector of norm 0 and not
  of norm about 1. *)
Lemma normalize_overflow_gives_zero :
  let v := [F64.of_bits 1 64] in
  np.linalg_norm (np.array v) = S754_infinity false
  ∧ fst ((self <- Vector.__init__ (Vector.of_list v) ;;
          n <- Vector.normalize self ;;
          Vector.to_list n) ∅)
    = inr [S754_zero false]
  ∧ np.linalg_norm [S754_zero false] = S754_zero false.
Proof. vm_compute. repeat split; reflexivity. Qed.

Lemma eqb_zero_not_ltb (x : float32) :
  F32.eqb x F32.zero = true → F32.ltb F32.zero x = false.
Proof. by destruct x as [[]|[]| |[] m e]. Qed.

Lemma init_of_ndarray (q : loc) (x : list float32) (h : ndheap) :
  h !! q = Some x →
  Vector.__init__ (Vector.of_ndarray q) h
  = (inr {| Vector.data := fresh (dom h) |}, <[fresh (dom h) := x]> h).
Proof. intros Hq. unfold Vector.__init__, bind, load. by rewrite Hq. Qed.

(** What [normalize] does keep: it returns a new Vector object and
  changes no array that existed before, the original's included.  When
  the float32 norm [sqrt(v.v)] compares greater than 0, the new
  vector's components are the original's divided by that norm, in
  float32; otherwise, so when the norm is zero, the new vector is a
  componentwise copy of the original. *)
Lemma normalize_new_vector (self : Vector.t) (a : list float32) (h : ndheap) :
  h !! Vector.data self = Some a →
  ∃ (n : Vector.t) (h' : ndheap),
    Vector.normalize self h = (inr n, h')
    ∧ (Vector.data n ∉ dom h)
    ∧ (∀ l, l ∈ dom h → h' !! l = h !! l)
    ∧ h' !! Vector.data self = Some a
    ∧ (F32.ltb F32.zero (np.linalg_norm a) = true →
         h' !! Vector.data n = Some (map (fun x => F32.div x (np.linalg_norm a)) a))
    ∧ (F32.ltb F32.zero (np.linalg_norm a) = false → h' !! Vector.data n = Some a)
    ∧ (F32.eqb (np.linalg_norm a) F32.zero = true → h' !! Vector.data n = Some a).
Proof.
  intros Ha. unfold Vector.normalize, bind. rewrite (load_some _ _ _ Ha).
  assert (Hself : Vector.data self ∈ dom h) by (apply elem_of_dom; eauto).
  destruct (F32.ltb F32.zero (np.linalg_norm a)) eqn:Hpos.
  - (* scaled *)
    set (q := fresh (dom h)).
    set (h1 := <[q := np.divide_scalar a (np.linalg_norm a)]> h).
    set (l := fresh (dom h1)).
    assert (Hq : q ∉ dom h) by apply is_fresh.
    assert (Hl : l ∉ dom h1) by apply is_fresh.
    assert (Hl' : (l ∉ dom h) ∧ l ≠ q).
    { unfold h1 in Hl. rewrite dom_insert_L in Hl. set_solver. }
    destruct Hl' as [Hlh Hlq].
    exists {| Vector.data := l |}, (<[l := np.divide_scalar a (np.linalg_norm a)]> h1).
    split.
    { change (Vector.__init__ (Vector.of_ndarray q) h1
              = (inr {| Vector.data := l |},
                 <[l := np.divide_scalar a (np.linalg_norm a)]> h1)).
      rewrite (init_of_ndarray q (np.divide_scalar a (np.linalg_norm a)) h1); [done|].
      unfold h1. by rewrite lookup_insert_eq. }
    simpl. split; [done|]. split.
    { intros l0 Hl0. rewrite lookup_insert_ne by (intros ->; done).
      unfold h1. rewrite lookup_insert_ne by (intros ->; done). done. }
    split.
    { rewrite lookup_insert_ne by (intros ->; done).
      unfold h1. rewrite lookup_insert_ne by (intros ->; done). done. }
    split; [intros _; by rewrite lookup_insert_eq|].
    split; [done|].
    intros Hz. apply eqb_zero_not_ltb in Hz. congruence.
  - (* copied *)
    set (l := fresh (dom h)).
    assert (Hl : l ∉ dom h) by apply is_fresh.
    exists {| Vector.data := l |}, (<[l := a]> h).
    split.
    { by rewrite (init_of_ndarray _ a h Ha). }
    simpl. split; [done|]. split.
    { intros l0 Hl0. by rewrite lookup_insert_ne by (intros ->; done). }
    split.
    { by rewrite lookup_insert_ne by (intros ->; done). }
    split; [done|].
    split; intros _; by rewrite lookup_insert_eq.
Qed.

(** ** Facts of IEEE arithmetic *)

Section FloatFacts.
Variables prec emax : Z.

Lemma shr_1_nonneg mrs : 0 <= shr_m mrs → 0 <= shr_m (shr_1 mrs).
Proof. destruct mrs as [[|[p|p|]|[p|p|]] r s]; simpl; lia. Qed.

Lemma iter_pos_invariant {A} (P : A → Prop) (f : A → A) :
  (∀ x, P x → P (f x)) → ∀ n x, P x → P (SpecFloat.iter_pos f n x).
Proof.
  intros Hf. induction n as [n IH|n IH|]; intros x Hx; simpl; auto.
Qed.

Lemma shr_nonneg mrs e n : 0 <= shr_m mrs → 0 <= shr_m (fst (shr mrs e n)).
Proof.
  intros H. unfold shr. destruct n as [|p|p]; simpl; try done.
  apply (iter_pos_invariant (fun x => 0 <= shr_m x)); [apply shr_1_nonneg|done].
Qed.

Lemma shr_fexp_nonneg m e l : 0 <= m → 0 <= shr_m (fst (shr_fexp prec emax m e l)).
Proof.
  intros H. unfold shr_fexp. apply shr_nonneg.
  by destruct l as [|[]].
Qed.

Lemma round_nearest_even_nonneg m l : 0 <= m → 0 <= round_nearest_even m l.
Proof.
  intros H. unfold round_nearest_even.
  destruct l as [|[]]; try done; [destruct (Z.even m)|]; lia.
Qed.

(** Rounding a nonnegative mantissa gives a zero, a finite number or an
  infinity of the sign asked for, never a NaN. *)
Lemma binary_round_aux_sign s mx ex lx :
  0 <= mx → Fmt.has_sign s (binary_round_aux prec emax s mx ex lx) = true.
Proof.
  intros Hm. unfold binary_round_aux.
  pose proof (shr_fexp_nonneg mx ex lx Hm) as H1.
  destruct (shr_fexp prec emax mx ex lx) as [mrs' e']. simpl in H1.
  pose proof (shr_fexp_nonneg _ e' loc_Exact
                (round_nearest_even_nonneg _ (loc_of_shr_record mrs') H1)) as H2.
  destruct (shr_fexp prec emax _ e' loc_Exact) as [mrs'' e'']. simpl in H2.
  destruct (shr_m mrs'') as [|p|p]; [| |lia]; simpl.
  - by destruct s.
  - destruct (Z.leb e'' _); simpl; by destruct s.
Qed.

Lemma binary_round_sign s m e : Fmt.has_sign s (binary_round prec emax s m e) = true.
Proof.
  unfold binary_round. destruct (shl_align m e _) as [mz ez].
  by apply binary_round_aux_sign.
Qed.

(** The sign asked for is all that depends on it. *)
Lemma binary_round_aux_abs s s' mx ex lx :
  SFabs (binary_round_aux prec emax s mx ex lx)
  = SFabs (binary_round_aux prec emax s' mx ex lx).
Proof.
  unfold binary_round_aux.
  destruct (shr_fexp prec emax mx ex lx) as [mrs' e'].
  destruct (shr_fexp prec emax _ e' loc_Exact) as [mrs'' e''].
  destruct (shr_m mrs'') as [|p|p]; try done.
  by destruct (Z.leb e'' _).
Qed.

Lemma binary_round_abs s s' m e :
  SFabs (binary_round prec emax s m e) = SFabs (binary_round prec emax s' m e).
Proof.
  unfold binary_round. destruct (shl_align m e _) as [mz ez].
  apply binary_round_aux_abs.
Qed.

Lemma binary_normalize_opp_abs m e :
  SFabs (binary_normalize prec emax (- m) e false)
  = SFabs (binary_normalize prec emax m e false).
Proof. destruct m as [|p|p]; simpl; try done; apply binary_round_abs. Qed.

Lemma has_sign_not_nan s x : Fmt.has_sign s x = true → Fmt.is_nan x = false.
Proof. by destruct x. Qed.

Lemma has_sign_false_nonneg x : Fmt.has_sign false x = true ↔ Fmt.nonneg x = true.
Proof. by destruct x as [[]|[]| |[] m e]. Qed.

(** [x - y] and [y - x] differ in sign at most. *)
Lemma SFsub_swap_abs x y :
  SFabs (SFsub prec emax x y) = SFabs (SFsub prec emax y x).
Proof.
  destruct x as [sx|sx| |sx mx ex], y as [sy|sy| |sy my ey]; simpl; try done;
    try (by destruct sx, sy).
  rewrite (Z.min_comm ey ex).
  set (ez := Z.min ex ey).
  set (A := cond_Zopp sx (Z.pos (fst (shl_align mx ex ez)))).
  set (B := cond_Zopp sy (Z.pos (fst (shl_align my ey ez)))).
  replace (B - A) with (- (A - B)) by lia.
  symmetry. apply binary_normalize_opp_abs.
Qed.

Lemma SFmul_self_abs x y :
  SFabs x = SFabs y → SFmul prec emax x x = SFmul prec emax y y.
Proof.
  destruct x as [sx|sx| |sx mx ex], y as [sy|sy| |sy my ey]; simpl; try done.
  - by destruct sx, sy.
  - by destruct sx, sy.
  - intros [= -> ->]. by destruct sx, sy.
Qed.

Lemma SFmul_self_nonneg x :
  Fmt.is_nan x = false → Fmt.nonneg (SFmul prec emax x x) = true.
Proof.
  intros Hx. destruct x as [s|s| |s m e]; simpl in *; try done;
    try (by destruct s).
  apply has_sign_false_nonneg.
  replace (xorb s s) with false by (by destruct s).
  by apply binary_round_aux_sign.
Qed.

Lemma SFadd_nonneg x y :
  Fmt.nonneg x = true → Fmt.nonneg y = true → Fmt.nonneg (SFadd prec emax x y) = true.
Proof.
  destruct x as [[]|[]| |[] mx ex], y as [[]|[]| |[] my ey]; simpl; try done.
  intros _ _. apply has_sign_false_nonneg, binary_round_sign.
Qed.

Lemma SFsqrt_nonneg x :
  Fmt.nonneg x = true → Fmt.nonneg (SFsqrt prec emax x) = true.
Proof.
  destruct x as [[]|[]| |[] m e]; simpl; try done. intros _.
  unfold SFsqrt_core_binary.
  set (m' := match _ - _ with 0 => Z.pos m | Z.pos _ => _ | Z.neg _ => 0 end).
  pose proof (Z.sqrtrem_sqrt m') as Hq. pose proof (Z.sqrt_nonneg m') as Hs.
  destruct (Z.sqrtrem m') as [q r]. simpl in Hq. subst q.
  apply has_sign_false_nonneg. by apply binary_round_aux_sign.
Qed.

Lemma round_nonneg x :
  Fmt.nonneg x = true → Fmt.nonneg (Fmt.round prec emax x) = true.
Proof.
  destruct x as [[]|[]| |[] m e]; simpl; try done. intros _.
  apply has_sign_false_nonneg, binary_round_sign.
Qed.

(** The difference of two finite numbers is no NaN. *)
Lemma SFsub_finite_not_nan x y :
  Fmt.is_finite x = true → Fmt.is_finite y = true →
  Fmt.is_nan (SFsub prec emax x y) = false.
Proof.
  destruct x as [sx|sx| |sx mx ex], y as [sy|sy| |sy my ey]; simpl; try done.
  - by destruct sx, sy.
  - intros _ _. unfold binary_normalize.
    destruct (_ - _) as [|p|p]; [done| |];
      eapply has_sign_not_nan, binary_round_sign.
Qed.

(** A number minus an equal finite number is a zero, whose square is
  [+0]. *)
Lemma SFsub_equal_square x y :
  Fmt.is_finite x = true → SFeqb x y = true →
  SFmul prec emax (SFsub prec emax x y) (SFsub prec emax x y) = S754_zero false.
Proof.
  unfold SFeqb.
  destruct x as [sx|sx| |sx mx ex], y as [sy|sy| |sy my ey]; simpl; try done;
    try (by destruct sx, sy); try (by destruct sy); try (by destruct sx).
  intros _. destruct sx, sy; try done.
  - destruct (Z.compare_spec ex ey) as [->| |]; try done.
    rewrite Pos.compare_cont_spec. simpl.
    destruct (Pos.compare_spec mx my) as [->| |]; try done.
    intros _. by rewrite Z.sub_diag.
  - destruct (Z.compare_spec ex ey) as [->| |]; try done.
    rewrite Pos.compare_cont_spec. simpl.
    destruct (Pos.compare_spec mx my) as [->| |]; try done.
    intros _. by rewrite Z.sub_diag.
Qed.

Lemma nonneg_leb_zero x : Fmt.nonneg x = true → SFleb (S754_zero false) x = true.
Proof. by destruct x as [[]|[]| |[] m e]. Qed.
End FloatFacts.

(** ** euclidean_distance *)

Section Distance.
Implicit Types (a b d : list float32).

Lemma squares_agree d d' acc :
  Forall2 (fun u v => F32.mul u u = F32.mul v v) d d' →
  fold_left np.accumulate (combine d d) acc = fold_left np.accumulate (combine d' d') acc.
Proof.
  intros H. revert acc.
  induction H as [|u v d d' Huv _ IH]; intros acc; cbn [combine fold_left]; [done|].
  replace (np.accumulate acc (u, u)) with (np.accumulate acc (v, v)); [apply IH|].
  unfold np.accumulate. simpl. by rewrite Huv.
Qed.

Lemma squares_nonneg d acc :
  Forall (fun u => Fmt.is_nan u = false) d → Fmt.nonneg acc = true →
  Fmt.nonneg (fold_left np.accumulate (combine d d) acc) = true.
Proof.
  intros H. revert acc.
  induction H as [|u d Hu _ IH]; intros acc Hacc; cbn [combine fold_left]; [done|].
  apply IH. unfold np.accumulate. simpl. apply SFadd_nonneg; [done|].
  by apply SFmul_self_nonneg.
Qed.

Lemma squares_zero d :
  Forall (fun u => F32.mul u u = S754_zero false) d →
  fold_left np.accumulate (combine d d) (S754_zero false) = S754_zero false.
Proof.
  induction 1 as [|u d Hu _ IH]; cbn [combine fold_left]; [done|].
  replace (np.accumulate (S754_zero false) (u, u)) with (S754_zero false); [done|].
  unfold np.accumulate. simpl. fold (F32.mul u u). by rewrite Hu.
Qed.

Lemma subtract_same_length a b :
  length a = length b →
  np.subtract a b = inr (map (fun xy => F32.sub (fst xy) (snd xy)) (combine a b)).
Proof.
  intros H. unfold np.subtract, np.broadcast. by rewrite H, Nat.eqb_refl.
Qed.

Lemma norm_swap a b :
  length a = length b →
  np.linalg_norm (map (fun xy => F32.sub (fst xy) (snd xy)) (combine a b))
  = np.linalg_norm (map (fun xy => F32.sub (fst xy) (snd xy)) (combine b a)).
Proof.
  intros H. unfold np.linalg_norm, np.sum_of_products. f_equal.
  apply squares_agree.
  revert b H. induction a as [|x a IH]; intros [|y b] H; simpl in *; try done.
  constructor; [|apply IH; congruence].
  apply SFmul_self_abs, SFsub_swap_abs.
Qed.

Lemma norm_nonneg a b :
  Forall (fun x => Fmt.is_finite x = true) a →
  Forall (fun y => Fmt.is_finite y = true) b →
  Fmt.nonneg
    (np.linalg_norm (map (fun xy => F32.sub (fst xy) (snd xy)) (combine a b))) = true.
Proof.
  intros Ha Hb. unfold np.linalg_norm, np.sum_of_products.
  apply SFsqrt_nonneg, squares_nonneg; [|done].
  revert b Hb. induction Ha as [|x a Hx _ IH]; intros b Hb; simpl; [done|].
  destruct Hb as [|y b Hy Hb]; simpl; [done|].
  constructor; [|by apply IH]. by apply SFsub_finite_not_nan.
Qed.

Lemma norm_equal a b :
  Forall2 (fun x y => Fmt.is_finite x = true ∧ F32.eqb x y = true) a b →
  np.linalg_norm (map (fun xy => F32.sub (fst xy) (snd xy)) (combine a b))
  = S754_zero false.
Proof.
  intros H. unfold np.linalg_norm, np.sum_of_products.
  rewrite squares_zero; [done|].
  induction H as [|x y a b [Hx Hxy] _ IH]; simpl; [done|].
  constructor; [|done]. by apply SFsub_equal_square.
Qed.
End Distance.

Lemma euclidean_distance_same_length (self other : Vector.t) (a b : list float32)
  (h : ndheap) :
  h !! Vector.data self = Some a →
  h !! Vector.data other = Some b →
  length a = length b →
  Vector.euclidean_distance self other h
  = (inr (F64.of_f32
            (np.linalg_norm (map (fun xy => F32.sub (fst xy) (snd xy)) (combine a b)))),
     h).
Proof.
  intros Ha Hb Hlen. unfold Vector.euclidean_distance, bind.
  rewrite (load_some _ _ _ Ha), (load_some _ _ _ Hb).
  by rewrite (subtract_same_length _ _ Hlen).
Qed.

(** * Further properties of the Vector class *)

Section VectorMore.
Implicit Types (self other : Vector.t) (a b : list float32) (h : ndheap).

Lemma SFmul_comm (prec emax : Z) (x y : spec_float) :
  SFmul prec emax x y = SFmul prec emax y x.
Proof.
  destruct x as [sx|sx| |sx mx ex], y as [sy|sy| |sy my ey]; simpl;
    rewrite ?(xorb_comm sx sy); try done.
  by rewrite (Pos.mul_comm mx my), (Z.add_comm ex ey).
Qed.

Lemma sum_of_products_comm a b : np.sum_of_products a b = np.sum_of_products b a.
Proof.
  unfold np.sum_of_products. generalize F32.zero.
  revert b. induction a as [|x a IH]; intros [|y b] acc; cbn [combine fold_left]; try done.
  rewrite IH. f_equal. unfold np.accumulate, F32.mul. simpl. by rewrite SFmul_comm.
Qed.

Lemma dot_comm a b : np.dot a b = np.dot b a.
Proof.
  unfold np.dot. rewrite (Nat.eqb_sym (length b)), sum_of_products_comm. done.
Qed.

Lemma getitem_valid self a (i : Z) h :
  h !! Vector.data self = Some a →
  - Z.of_nat (length a) <= i < Z.of_nat (length a) →
  ∃ x, a !! Z.to_nat (i mod Z.of_nat (length a)) = Some x
       ∧ Vector.__getitem__ self i h = (inr x, h).
Proof.
  intros Ha Hi. unfold Vector.__getitem__, bind. rewrite (load_some _ _ _ Ha).
  destruct (index_in_range (length a) i Hi) as [-> Hlt].
  destruct (lookup_lt_is_Some_2 a _ Hlt) as [x Hx]. rewrite Hx. eauto.
Qed.

Lemma setitem_valid self a (i : Z) (value : float64) h :
  h !! Vector.data self = Some a →
  - Z.of_nat (length a) <= i < Z.of_nat (length a) →
  Vector.__setitem__ self i value h
  = (inr tt, <[Vector.data self :=
                 <[Z.to_nat (i mod Z.of_nat (length a)) := F32.of_f64 value]> a]> h).
Proof.
  intros Ha Hi. unfold Vector.__setitem__, bind. rewrite (load_some _ _ _ Ha).
  by destruct (index_in_range (length a) i Hi) as [-> _].
Qed.

(** What [normalize] returns and what it leaves behind. *)
Lemma normalize_result self a h :
  h !! Vector.data self = Some a →
  ∃ (n : Vector.t) (h' : ndheap),
    Vector.normalize self h = (inr n, h')
    ∧ (Vector.data n ∉ dom h)
    ∧ (∀ l, l ∈ dom h → h' !! l = h !! l)
    ∧ h' !! Vector.data n = Some (normalized a).
Proof.
  intros Ha. unfold Vector.normalize, bind, normalized. rewrite (load_some _ _ _ Ha).
  destruct (F32.ltb F32.zero (np.linalg_norm a)).
  - set (q := fresh (dom h)).
    set (h1 := <[q := np.divide_scalar a (np.linalg_norm a)]> h).
    set (l := fresh (dom h1)).
    assert (Hq : q ∉ dom h) by apply is_fresh.
    assert (Hl : l ∉ dom h1) by apply is_fresh.
    assert (Hl' : (l ∉ dom h) ∧ l ≠ q).
    { unfold h1 in Hl. rewrite dom_insert_L in Hl. set_solver. }
    destruct Hl' as [Hlh Hlq].
    exists {| Vector.data := l |}, (<[l := np.divide_scalar a (np.linalg_norm a)]> h1).
    split.
    { change (Vector.__init__ (Vector.of_ndarray q) h1
              = (inr {| Vector.data := l |},
                 <[l := np.divide_scalar a (np.linalg_norm a)]> h1)).
      rewrite (init_of_ndarray q (np.divide_scalar a (np.linalg_norm a)) h1); [done|].
      unfold h1. by rewrite lookup_insert_eq. }
    simpl. split; [done|]. split; [|by rewrite lookup_insert_eq].
    intros l0 Hl0. rewrite lookup_insert_ne by (intros ->; done).
    unfold h1. by rewrite lookup_insert_ne by (intros ->; done).
  - set (l := fresh (dom h)).
    assert (Hl : l ∉ dom h) by apply is_fresh.
    exists {| Vector.data := l |}, (<[l := a]> h).
    split; [by rewrite (init_of_ndarray _ a h Ha)|].
    simpl. split; [done|]. split; [|by rewrite lookup_insert_eq].
    intros l0 Hl0. by rewrite lookup_insert_ne by (intros ->; done).
Qed.

Lemma normalized_length a : length (normalized a) = length a.
Proof.
  unfold normalized, np.divide_scalar.
  destruct (F32.ltb _ _); [by rewrite length_map|done].
Qed.
End VectorMore.

Lemma bind_returned {S A B} (c : Py S A) (k : A → Py S B) (s s' : S) (a : A) :
  c s = (inr a, s') → bind c k s = k a s'.
Proof. intros H. unfold bind. by rewrite H. Qed.

Lemma bind_raised {S A B} (c : Py S A) (k : A → Py S B) (s s' : S) (e : exn) :
  c s = (inl e, s') → bind c k s = (inl e, s').
Proof. intros H. unfold bind. by rewrite H. Qed.

(** X1: [dot_product] and [cosine_similarity] are symmetric in their two
    vectors, on every heap: the same float, or the same exception when
    the dimensions differ. *)
Theorem dot_and_cosine_symmetric (self other : Vector.t) (h : ndheap) :
  Vector.dot_product self other h = Vector.dot_product other self h
  ∧ Vector.cosine_similarity self other h = Vector.cosine_similarity other self h.
Proof.
  unfold Vector.dot_product, Vector.cosine_similarity, bind, load, lift, ret.
  destruct (h !! Vector.data self) as [a|] eqn:Ha,
    (h !! Vector.data other) as [b|] eqn:Hb; simpl; rewrite ?Ha, ?Hb; try done.
  rewrite (dot_comm b a).
  destruct (np.dot a b) as [e|p]; [done|].
  rewrite (orb_comm (F32.eqb (np.linalg_norm b) F32.zero)).
  unfold F32.mul. by rewrite (SFmul_comm _ _ (np.linalg_norm b)).
Qed.

(** X2: the read-only methods ([to_list], [__len__], [__getitem__],
    [cosine_similarity], [euclidean_distance], [dot_product]) never
    change any array, whether they return or raise. *)
Theorem reads_leave_heap (self other : Vector.t) (i : Z) (h : ndheap) :
  snd (Vector.to_list self h) = h
  ∧ snd (Vector.__len__ self h) = h
  ∧ snd (Vector.__getitem__ self i h) = h
  ∧ snd (Vector.cosine_similarity self other h) = h
  ∧ snd (Vector.euclidean_distance self other h) = h
  ∧ snd (Vector.dot_product self other h) = h.
Proof.
  unfold Vector.to_list, Vector.__len__, Vector.__getitem__,
    Vector.cosine_similarity, Vector.euclidean_distance, Vector.dot_product,
    bind, load, lift, ret, raise.
  destruct (h !! Vector.data self) as [a|]; [|done].
  repeat split; try done.
  - destruct (np.index _ _) as [e|p]; [done|]. by destruct (a !! p).
  - destruct (h !! Vector.data other) as [b|]; [|done].
    destruct (np.dot a b); [done|]. by destruct (_ || _).
  - destruct (h !! Vector.data other) as [b|]; [|done].
    by destruct (np.subtract a b).
  - destruct (h !! Vector.data other) as [b|]; [|done].
    by destruct (np.dot a b).
Qed.

(** X3: which metric accepts which dimensions.  [dot_product] and
    [cosine_similarity] return a float exactly when the two dimensions
    are equal; [euclidean_distance] exactly when they are equal or one
    of them is 1. *)
Theorem metric_returns_iff (self other : Vector.t) (a b : list float32) (h : ndheap) :
  h !! Vector.data self = Some a →
  h !! Vector.data other = Some b →
  ((∃ d, fst (Vector.dot_product self other h) = inr d) ↔ length a = length b)
  ∧ ((∃ d, fst (Vector.cosine_similarity self other h) = inr d) ↔ length a = length b)
  ∧ ((∃ d, fst (Vector.euclidean_distance self other h) = inr d)
     ↔ (length a = length b ∨ length a = 1%nat ∨ length b = 1%nat)).
Proof.
  intros Ha Hb.
  unfold Vector.dot_product, Vector.cosine_similarity, Vector.euclidean_distance, bind.
  rewrite (load_some _ _ _ Ha), (load_some _ _ _ Hb).
  unfold lift, ret, np.dot, np.subtract, np.broadcast.
  destruct (Nat.eqb_spec (length a) (length b)) as [Heq|Hne].
  - repeat split; try done; intros _; try (by eexists).
    + destruct (_ || _); by eexists.
    + by left.
  - split; [split; [by intros [d H]|done]|].
    split; [split; [by intros [d H]|done]|].
    destruct a as [|x [|x' a]], b as [|y [|y' b]]; simpl in *;
      try done; split; try (intros _; by eexists); try (intros _; by eauto);
      try (by intros [d H]); intros [H|[H|H]]; done.
Qed.

Lemma metric_returns_iff_witness :
  let h : ndheap := {[1%positive := [F32.of_bits 3 0; F32.of_bits 4 0];
                      2%positive := [F32.of_bits 1 0]]} in
  (∃ d, fst (Vector.euclidean_distance {| Vector.data := 1%positive |}
               {| Vector.data := 2%positive |} h) = inr d).
Proof.
  intros h.
  apply (metric_returns_iff {| Vector.data := 1%positive |}
           {| Vector.data := 2%positive |}
           [F32.of_bits 3 0; F32.of_bits 4 0] [F32.of_bits 1 0] h eq_refl eq_refl).
  right. right. reflexivity.
Defined.

(** X4: a component written with [v[i] = x] is read back by [v[i]] as
    the float32 rounding of [x]; a read at any other position [j]
    returns what it returned before the write, and the dimension stays
    the same. *)
Theorem setitem_then_getitem (self : Vector.t) (a : list float32) (i j : Z)
  (value : float64) (h : ndheap) :
  h !! Vector.data self = Some a →
  let n := Z.of_nat (length a) in
  - n <= i < n →
  fst ((Vector.__setitem__ self i value ;;; Vector.__getitem__ self i) h)
  = inr (F32.of_f64 value)
  ∧ fst ((Vector.__setitem__ self i value ;;; Vector.__len__ self) h)
    = fst (Vector.__len__ self h)
  ∧ (- n <= j < n → i mod n ≠ j mod n →
     fst ((Vector.__setitem__ self i value ;;; Vector.__getitem__ self j) h)
     = fst (Vector.__getitem__ self j h)).
Proof.
  intros Ha n Hi.
  rewrite !(bind_returned _ _ _ _ _ (setitem_valid self a i value h Ha Hi)). fold n.
  set (p := Z.to_nat (i mod n)).
  set (a' := <[p := F32.of_f64 value]> a).
  set (h' := <[Vector.data self := a']> h).
  assert (Ha' : h' !! Vector.data self = Some a') by apply lookup_insert_eq.
  assert (Hlen : length a' = length a) by apply length_insert.
  assert (Hp : (p < length a)%nat).
  { unfold p. pose proof (Z.mod_pos_bound i n). lia. }
  split; [|split].
  - destruct (getitem_valid self a' i h' Ha') as (x & Hx & ->); [rewrite Hlen; done|].
    simpl. f_equal. rewrite Hlen in Hx. fold n p in Hx.
    unfold a' in Hx. rewrite list_lookup_insert_eq in Hx by done. congruence.
  - unfold Vector.__len__, bind. rewrite (load_some _ _ _ Ha'), (load_some _ _ _ Ha).
    simpl. by rewrite Hlen.
  - intros Hj Hne.
    destruct (getitem_valid self a' j h' Ha') as (x & Hx & ->); [rewrite Hlen; done|].
    destruct (getitem_valid self a j h Ha Hj) as (y & Hy & ->).
    simpl. f_equal. rewrite Hlen in Hx. fold n in Hx, Hy.
    unfold a' in Hx. rewrite list_lookup_insert_ne in Hx; [congruence|].
    unfold p. intros Heq. apply Hne.
    pose proof (Z.mod_pos_bound i n). pose proof (Z.mod_pos_bound j n). lia.
Qed.

Lemma setitem_then_getitem_witness :
  let a := [F32.of_bits 1 0; F32.of_bits 2 0; F32.of_bits 3 0] in
  let h : ndheap := {[1%positive := a]} in
  let v := {| Vector.data := 1%positive |} in
  fst ((Vector.__setitem__ v (-1) (F64.of_bits 1 (-1)) ;;; Vector.__getitem__ v (-1)) h)
  = inr (F32.of_f64 (F64.of_bits 1 (-1))).
Proof.
  intros a h v.
  apply (setitem_then_getitem v a (-1) 0 (F64.of_bits 1 (-1)) h eq_refl).
  simpl. lia.
Defined.

(** X5: a Vector built from another vector's array holds a copy: a
    later write to the original does not show in it.  The array that
    [to_numpy] hands out is the vector's own: the write shows in it. *)
Theorem ndarray_copy_and_alias (self : Vector.t) (a : list float32) (i : Z)
  (value : float64) (h : ndheap) :
  h !! Vector.data self = Some a →
  let n := Z.of_nat (length a) in
  - n <= i < n →
  fst ((w <- Vector.__init__ (Vector.of_ndarray (Vector.data self)) ;;
        Vector.__setitem__ self i value ;;;
        Vector.to_list w) h)
  = inr (np.tolist a)
  ∧ fst ((p <- Vector.to_numpy self ;;
          Vector.__setitem__ self i value ;;;
          load p) h)
    = inr (<[Z.to_nat (i mod n) := F32.of_f64 value]> a).
Proof.
  intros Ha n Hi. split.
  - rewrite (bind_returned _ _ _ _ _ (init_of_ndarray _ a h Ha)).
    set (l := fresh (dom h)). set (h1 := <[l := a]> h).
    assert (Hl : l ∉ dom h) by apply is_fresh.
    assert (Hne : l ≠ Vector.data self).
    { intros ->. apply Hl, elem_of_dom. eauto. }
    assert (Ha1 : h1 !! Vector.data self = Some a).
    { unfold h1. by rewrite lookup_insert_ne. }
    rewrite (bind_returned _ _ _ _ _ (setitem_valid self a i value h1 Ha1 Hi)).
    unfold Vector.to_list, bind, load. simpl.
    rewrite lookup_insert_ne by done. unfold h1. by rewrite lookup_insert_eq.
  - unfold Vector.to_numpy. unfold bind at 1, ret.
    rewrite (bind_returned _ _ _ _ _ (setitem_valid self a i value h Ha Hi)).
    unfold load. by rewrite lookup_insert_eq.
Qed.

Lemma ndarray_copy_and_alias_witness :
  let a := [F32.of_bits 1 0; F32.of_bits 2 0] in
  let h : ndheap := {[1%positive := a]} in
  let v := {| Vector.data := 1%positive |} in
  fst ((w <- Vector.__init__ (Vector.of_ndarray (Vector.data v)) ;;
        Vector.__setitem__ v 0 (F64.of_Z 7) ;;;
        Vector.to_list w) h)
  = inr (np.tolist a).
Proof.
  intros a h v.
  apply (ndarray_copy_and_alias v a 0 (F64.of_Z 7) h eq_refl).
  simpl. lia.
Defined.

(** X6: the vector that [normalize] returns has the dimension of the
    original and shares nothing with it: a later write to the original
    does not change the normalized vector, and a write to the
    normalized vector does not change the original. *)
Theorem normalize_is_independent (self : Vector.t) (a : list float32) (i : Z)
  (value : float64) (h : ndheap) :
  h !! Vector.data self = Some a →
  let n := Z.of_nat (length a) in
  - n <= i < n →
  fst ((v <- Vector.normalize self ;; Vector.__len__ v) h) = inr (length a)
  ∧ fst ((v <- Vector.normalize self ;;
          Vector.__setitem__ self i value ;;;
          load (Vector.data v)) h)
    = inr (normalized a)
  ∧ fst ((v <- Vector.normalize self ;;
          Vector.__setitem__ v i value ;;;
          load (Vector.data self)) h)
    = inr a.
Proof.
  intros Ha n Hi.
  destruct (normalize_result self a h Ha) as (v & h' & Hn & Hfresh & Hold & Hv).
  rewrite !(bind_returned _ _ _ _ _ Hn).
  assert (Hself : Vector.data self ∈ dom h) by (apply elem_of_dom; eauto).
  assert (Ha' : h' !! Vector.data self = Some a) by (by rewrite Hold).
  assert (Hne : Vector.data v ≠ Vector.data self) by (by intros Heq; rewrite Heq in Hfresh).
  split; [|split].
  - unfold Vector.__len__, bind. rewrite (load_some _ _ _ Hv). simpl.
    by rewrite normalized_length.
  - rewrite (bind_returned _ _ _ _ _ (setitem_valid self a i value h' Ha' Hi)).
    unfold load. by rewrite lookup_insert_ne, Hv.
  - assert (Hi' : - Z.of_nat (length (normalized a)) <= i
                  < Z.of_nat (length (normalized a)))
      by (by rewrite normalized_length).
    rewrite (bind_returned _ _ _ _ _ (setitem_valid v _ i value h' Hv Hi')).
    unfold load. by rewrite lookup_insert_ne, Ha'.
Qed.

Lemma normalize_is_independent_witness :
  let a := [F32.of_bits 3 0; F32.of_bits 4 0] in
  let h : ndheap := {[1%positive := a]} in
  let self := {| Vector.data := 1%positive |} in
  fst ((v <- Vector.normalize self ;;
        Vector.__setitem__ v 1 (F64.of_Z 9) ;;;
        load (Vector.data self)) h)
  = inr a.
Proof.
  intros a h self.
  apply (normalize_is_independent self a 1 (F64.of_Z 9) h eq_refl).
  simpl. lia.
Defined.

Lemma nonneg_ltb_eqb (x : float32) :
  Fmt.nonneg x = true → F32.ltb F32.zero x = negb (F32.eqb x F32.zero).
Proof. by destruct x as [[]|[]| |[] m e]. Qed.

(** X7: for a vector without NaN components, the product of the vector
    with itself is never NaN and never negative ([0.0 <= v.v], possibly
    [+inf]), and so is its norm; [normalize] then returns the plain
    copy only when the norm is zero, and the scaled vector otherwise. *)
Theorem self_product_nonneg (self : Vector.t) (a : list float32) (h : ndheap) :
  h !! Vector.data self = Some a →
  Forall (fun x => Fmt.is_nan x = false) a →
  (∃ d : float64,
     Vector.dot_product self self h = (inr d, h)
     ∧ Fmt.is_nan d = false ∧ F64.leb F64.zero d = true)
  ∧ Fmt.nonneg (np.linalg_norm a) = true
  ∧ (F32.eqb (np.linalg_norm a) F32.zero = false →
     normalized a = np.divide_scalar a (np.linalg_norm a)).
Proof.
  intros Ha Hnan.
  assert (Hsum : Fmt.nonneg (np.sum_of_products a a) = true)
    by (by apply squares_nonneg).
  assert (Hnorm : Fmt.nonneg (np.linalg_norm a) = true)
    by (by apply SFsqrt_nonneg).
  split; [|split; [done|]].
  - unfold Vector.dot_product, bind, load. rewrite Ha. simpl. rewrite Ha.
    rewrite dot_same_length by done. unfold lift, ret. eexists. split; [done|].
    pose proof (round_nonneg F64.prec F64.emax _ Hsum) as Hd.
    split; [unfold F64.of_f32; by destruct (Fmt.round _ _ _)|].
    by apply nonneg_leb_zero.
  - intros Hz. unfold normalized. by rewrite (nonneg_ltb_eqb _ Hnorm), Hz.
Qed.

Lemma self_product_nonneg_witness :
  let a := [F32.of_bits 3 0; F32.of_bits (-4) 0] in
  let h : ndheap := {[1%positive := a]} in
  Fmt.nonneg (np.linalg_norm a) = true.
Proof.
  intros a h.
  apply (self_product_nonneg {| Vector.data := 1%positive |} a h eq_refl).
  repeat constructor.
Defined.


(** * Lists and arrays: nothing is lost on the way back *)

Section RoundTrip.

Lemma digits_shifted (m k : positive) :
  digits2_pos (Pos.iter xO m k) = (digits2_pos m + k)%positive.
Proof.
  induction k as [|k IH] using Pos.peano_ind.
  - simpl. lia.
  - rewrite Pos.iter_succ. simpl. rewrite IH. lia.
Qed.

Lemma iter_pos_commute {A} (f : A → A) (p : positive) (x : A) :
  SpecFloat.iter_pos f p (f x) = f (SpecFloat.iter_pos f p x).
Proof.
  revert x. induction p as [p IH|p IH|]; intros x; simpl; [|by rewrite !IH|done].
  by rewrite !IH.
Qed.

Lemma iter_pos_succ {A} (f : A → A) (p : positive) (x : A) :
  SpecFloat.iter_pos f (Pos.succ p) x = f (SpecFloat.iter_pos f p x).
Proof.
  revert x. induction p as [p IH|p IH|]; intros x; simpl; try done.
  - rewrite !IH. by rewrite !iter_pos_commute.
  - by rewrite !iter_pos_commute.
Qed.

Lemma shift_back (m k : positive) :
  SpecFloat.iter_pos shr_1 k
    {| shr_m := Z.pos (Pos.iter xO m k); shr_r := false; shr_s := false |}
  = {| shr_m := Z.pos m; shr_r := false; shr_s := false |}.
Proof.
  revert m. induction k as [|k IH] using Pos.peano_ind; intros m.
  - done.
  - rewrite iter_pos_succ, Pos.iter_succ_r. by rewrite IH.
Qed.


Lemma binary_round_aux_exact (prec emax : Z) (s : bool) (m : positive) (e : Z) :
  fexp prec emax (Z.pos (digits2_pos m) + e) = e →
  e <= emax - prec →
  binary_round_aux prec emax s (Z.pos m) e loc_Exact = S754_finite s m e.
Proof.
  intros Hc He. unfold binary_round_aux, shr_fexp. simpl Zdigits2.
  rewrite Hc, Z.sub_diag. simpl.
  rewrite Hc, Z.sub_diag. simpl.
  destruct (Z.leb_spec e (emax - prec)); [done|lia].
Qed.

Lemma binary_round_aux_shifted (prec emax : Z) (s : bool) (m k : positive) (e : Z) :
  fexp prec emax (Z.pos (digits2_pos m) + e) = e →
  e <= emax - prec →
  binary_round_aux prec emax s (Z.pos (Pos.iter xO m k)) (e - Z.pos k) loc_Exact
  = S754_finite s m e.
Proof.
  intros Hc He. unfold binary_round_aux, shr_fexp. simpl Zdigits2.
  rewrite digits_shifted.
  replace (Z.pos (digits2_pos m + k) + (e - Z.pos k)) with (Z.pos (digits2_pos m) + e) by lia.
  rewrite Hc. replace (e - (e - Z.pos k)) with (Z.pos k) by lia.
  unfold shr. simpl shr_record_of_loc. rewrite shift_back. simpl.
  replace (e - Z.pos k + Z.pos k) with e by lia.
  rewrite Hc, Z.sub_diag. simpl.
  destruct (Z.leb_spec e (emax - prec)); [done|lia].
Qed.

Lemma narrow_widen (s : bool) (m : positive) (e : Z) :
  bounded 24 128 m e = true →
  F32.of_f64 (F64.of_f32 (S754_finite s m e)) = S754_finite s m e.
Proof.
  intros Hb. unfold bounded, canonical_mantissa in Hb.
  apply andb_prop in Hb as [Hc He].
  apply Z.eqb_eq in Hc. apply Z.leb_le in He.
  unfold F32.of_f64, F64.of_f32, Fmt.round at 2, F64.prec, F64.emax.
  unfold binary_round, shl_align.
  set (d := digits2_pos m) in *.
  assert (Hlt : fexp 53 1024 (Z.pos d + e) < e).
  { unfold fexp, emin in *. lia. }
  destruct (fexp 53 1024 (Z.pos d + e) - e) as [|k|k] eqn:Hk; try lia.
  assert (He' : fexp 53 1024 (Z.pos d + e) = e - Z.pos k) by lia.
  rewrite He'.
  rewrite (binary_round_aux_exact 53 1024 s (Pos.iter xO m k) (e - Z.pos k)).
  - unfold Fmt.round, F32.prec, F32.emax, binary_round, shl_align.
    rewrite digits_shifted.
    replace (Z.pos (digits2_pos m + k) + (e - Z.pos k)) with (Z.pos d + e) by (unfold d; lia).
    rewrite Hc.
    replace (e - (e - Z.pos k)) with (Z.pos k) by lia.
    by apply binary_round_aux_shifted.
  - rewrite digits_shifted.
    replace (Z.pos (digits2_pos m + k) + (e - Z.pos k)) with (Z.pos d + e) by (unfold d; lia).
    done.
  - lia.
Qed.

Lemma narrow_widen_valid (x : float32) :
  F32.valid x = true → F32.of_f64 (F64.of_f32 x) = x.
Proof.
  destruct x as [s|s| |s m e]; try done. apply narrow_widen.
Qed.

End RoundTrip.

Lemma array_of_tolist (a : list float32) :
  Forall (fun x => F32.valid x = true) a → np.array (np.tolist a) = a.
Proof.
  intros Hvalid. unfold np.array, np.tolist. rewrite map_map.
  induction Hvalid as [|x a Hx _ IH]; simpl; [done|].
  by rewrite narrow_widen_valid, IH.
Qed.

(** X8: a float32 array survives the way through a Python list: for an
    array of binary32 numbers, the list that [to_list] returns holds
    doubles that round back to the same components, so a Vector built
    from that list holds the same array, and sending the list again
    rounds nothing. *)
Theorem to_list_round_trip (self : Vector.t) (a : list float32) (h : ndheap) :
  h !! Vector.data self = Some a →
  Forall (fun x => F32.valid x = true) a →
  np.array (np.tolist a) = a
  ∧ map float32_rounding (np.tolist a) = np.tolist a
  ∧ ∃ (w : Vector.t) (h' : ndheap),
      (l <- Vector.to_list self ;; Vector.__init__ (Vector.of_list l)) h = (inr w, h')
      ∧ (Vector.data w ∉ dom h)
      ∧ h' !! Vector.data w = Some a.
Proof.
  intros Ha Hvalid.
  assert (Hrt : np.array (np.tolist a) = a) by (by apply array_of_tolist).
  split; [done|]. split.
  - unfold float32_rounding. rewrite <- (map_map F32.of_f64 F64.of_f32).
    fold (np.array (np.tolist a)). fold (np.tolist (np.array (np.tolist a))).
    by rewrite Hrt.
  - unfold Vector.to_list, Vector.__init__. rewrite bind_assoc.
    unfold bind, load, alloc, ret. rewrite Ha. simpl. rewrite Hrt.
    eexists _, _. split; [reflexivity|]. simpl.
    split; [apply is_fresh|by rewrite lookup_insert_eq].
Qed.

Lemma to_list_round_trip_witness :
  let a := [F32.of_f64 (F64.div (F64.of_Z 1) (F64.of_Z 10)); F32.of_bits 3 (-149)] in
  np.array (np.tolist a) = a.
Proof.
  intros a.
  apply (to_list_round_trip {| Vector.data := 1%positive |} a
           ({[1%positive := a]} : ndheap)).
  - apply lookup_singleton_eq.
  - repeat constructor.
Defined.

(** * Further properties of the client *)

Section Answers.
Context `{R : Requests}.
Implicit Types (self : VectisClient.t) (h : ndheap) (w : world).

(** The two heap steps that open [put_vector] and [search_similar]. *)
Lemma vector_prelude {A} (vector : list float64)
  (k : list float64 → Py VectisClient.state A) h w :
  (vec <- VectisClient.on_heap (Vector.__init__ (Vector.of_list vector)) ;;
   l <- VectisClient.on_heap (Vector.to_list vec) ;;
   k l) (h, w)
  = k (map float32_rounding vector) (<[fresh (dom h) := np.array vector]> h, w).
Proof.
  unfold bind, VectisClient.on_heap, Vector.__init__, Vector.to_list, bind, alloc,
    load, ret. simpl. rewrite lookup_insert_eq. simpl. by rewrite tolist_array.
Qed.

Lemma on_heap_init_list {A} (vector : list float64)
  (k : Vector.t → Py VectisClient.state A) h w :
  bind (VectisClient.on_heap (Vector.__init__ (Vector.of_list vector))) k (h, w)
  = k {| Vector.data := fresh (dom h) |} (<[fresh (dom h) := np.array vector]> h, w).
Proof. reflexivity. Qed.

Lemma on_heap_to_list {A} (vec : Vector.t) (a : list float32)
  (k : list float64 → Py VectisClient.state A) h w :
  h !! Vector.data vec = Some a →
  bind (VectisClient.on_heap (Vector.to_list vec)) k (h, w) = k (np.tolist a) (h, w).
Proof.
  intros Ha. unfold bind, VectisClient.on_heap, Vector.to_list, bind, load, ret.
  simpl. by rewrite Ha.
Qed.

(** A session that gives the answer [r] to whatever it is asked in the
    world [w]. *)
Lemma request_when_answering self (r : string + Response) m e kw h w :
  (∀ req, fst (Session_request (VectisClient.session self) req w) = r) →
  ∃ w', VectisClient._request self m e kw (h, w)
        = (match r with
           | inr response => inr response
           | inl msg => inl (VectisConnectionError ("Request failed: " +:+ msg))
           end, (h, w')).
Proof.
  intros Hr. unfold VectisClient._request, VectisClient.on_world. run.
  specialize (Hr {| method := m; url := urljoin (VectisClient.base_url self) e;
                    timeout_ := VectisClient.timeout self; payload := kw |}).
  destruct (Session_request _ _ w) as [r' w']. simpl in Hr. subst r'.
  exists w'. by destruct r.
Qed.

Lemma request_then_when_answering {A} self (r : string + Response) m e kw
  (k : Response → Py VectisClient.state A) h w :
  (∀ req, fst (Session_request (VectisClient.session self) req w) = r) →
  ∃ w', bind (VectisClient._request self m e kw) k (h, w)
        = match r with
          | inr response => k response (h, w')
          | inl msg => (inl (VectisConnectionError ("Request failed: " +:+ msg)), (h, w'))
          end.
Proof.
  intros Hr. destruct (request_when_answering self r m e kw h w Hr) as [w' Hw].
  exists w'. unfold bind. rewrite Hw. by destruct r.
Qed.
End Answers.

(** Brings a call into the form [_request ... ;; k] and runs the
    request against a session that answers [r] to everything. *)
Ltac answer_with Hr :=
  unfold VectisClient.call, VectisClient.put, VectisClient.get, VectisClient.delete,
    VectisClient.batch_put, VectisClient.batch_get, VectisClient.scan,
    VectisClient.put_vector, VectisClient.get_vector, VectisClient.search_similar,
    VectisClient.get_stats, VectisClient.health_check;
  rewrite ?bind_assoc;
  try (rewrite on_heap_init_list; cbv beta; rewrite ?bind_assoc;
       match goal with
       | |- context [bind (VectisClient.on_heap (Vector.to_list ?vec)) ?k
                       (<[?l := ?a]> ?h, ?w)] =>
           rewrite (on_heap_to_list vec a k (<[l := a]> h) w (lookup_insert_eq _ _ _))
       end;
       cbv beta; rewrite ?bind_assoc);
  match goal with
  | |- context [bind (VectisClient._request ?self ?m ?e ?kw) ?k (?h, ?w)] =>
      let w' := fresh "w'" in
      let Hw := fresh "Hw" in
      destruct (request_then_when_answering self _ m e kw k h w Hr) as [w' Hw];
      rewrite Hw; clear Hw
  end.

(** X9: a transport failure surfaces as [VectisConnectionError] from
    every operation: when the session raises a RequestException with
    text [msg], each of the eleven operations raises
    [VectisConnectionError("Request failed: " + msg)] and nothing
    else. *)
Theorem transport_failure_is_connection_error `{R : Requests} (self : VectisClient.t)
  (op : VectisClient.operation) (msg : string) (h : ndheap) (w : world) :
  (∀ req, fst (Session_request (VectisClient.session self) req w) = inl msg) →
  fst (VectisClient.call self op (h, w))
  = inl (VectisConnectionError ("Request failed: " +:+ msg)).
Proof.
  intros Hr. destruct op; answer_with Hr; reflexivity.
Qed.

Lemma transport_failure_is_connection_error_witness :
  fst (VectisClient.call (R := Down.requests) Down.client
         (VectisClient.op_put_vector "v" [F64.of_Z 1]) (∅, tt))
  = inl (VectisConnectionError "Request failed: Connection refused").
Proof.
  apply (transport_failure_is_connection_error (R := Down.requests) Down.client
           (VectisClient.op_put_vector "v" [F64.of_Z 1]) "Connection refused" ∅ tt).
  intros req. reflexivity.
Defined.

(** X10: a status that is no success is an error with the remote's
    text: when the answer has a status other than 200 (and other than
    404 for [get] and [get_vector], where 404 means absent), every
    operation raises [VectisError] with its own prefix followed by the
    body of the response, whatever the body is. *)
Theorem non_success_status_raises `{R : Requests} (self : VectisClient.t)
  (op : VectisClient.operation) (response : Response) (h : ndheap) (w : world) :
  (∀ req, fst (Session_request (VectisClient.session self) req w) = inr response) →
  status_code response ≠ 200 →
  (reads_one_key op = true → status_code response ≠ 404) →
  fst (VectisClient.call self op (h, w))
  = inl (VectisError (failure_prefix op +:+ text response)).
Proof.
  intros Hr H200 H404.
  assert (E200 : (status_code response =? 200) = false) by (by apply Z.eqb_neq).
  destruct op; answer_with Hr; unfold bind; simpl; rewrite ?E200; try done.
  - assert (E404 : (status_code response =? 404) = false)
      by (apply Z.eqb_neq; by apply H404).
    by rewrite E404.
  - assert (E404 : (status_code response =? 404) = false)
      by (apply Z.eqb_neq; by apply H404).
    by rewrite E404.
Qed.

Lemma non_success_status_raises_witness :
  let response := {| status_code := 500; text := "disk full"; json_doc := None |} in
  fst (VectisClient.call (Fixed.client response) (VectisClient.op_delete "a") (∅, tt))
  = inl (VectisError "DELETE failed: disk full").
Proof.
  intros response.
  apply (non_success_status_raises (R := Fixed.requests response) (Fixed.client response)
           (VectisClient.op_delete "a") response ∅ tt).
  - intros req. reflexivity.
  - simpl. lia.
  - simpl. intros H. discriminate H.
Defined.

Ltac run_request Hr :=
  match goal with
  | |- context [bind (VectisClient._request ?self ?m ?e ?kw) ?k (?h, ?w)] =>
      let w' := fresh "w'" in
      let Hw := fresh "Hw" in
      destruct (request_then_when_answering self _ m e kw k h w Hr) as [w' Hw];
      rewrite Hw; clear Hw
  end.

(** X11: a write needs nothing but the status: when the answer has
    status 200, [put], [delete], [batch_put] and [put_vector] return
    [None], whatever the body says. *)
Theorem write_returns_on_200 `{R : Requests} (self : VectisClient.t)
  (op : VectisClient.operation) (response : Response) (h : ndheap) (w : world) :
  (∀ req, fst (Session_request (VectisClient.session self) req w) = inr response) →
  status_code response = 200 →
  is_write op = true →
  fst (VectisClient.call self op (h, w)) = inr VectisClient.res_none.
Proof.
  intros Hr H200 Hop.
  destruct op; try discriminate Hop; answer_with Hr; unfold bind; simpl;
    by rewrite H200.
Qed.

Lemma write_returns_on_200_witness :
  let response := {| status_code := 200; text := "ERROR: not stored";
                     json_doc := None |} in
  fst (VectisClient.call (Fixed.client response) (VectisClient.op_put "a" "1") (∅, tt))
  = inr VectisClient.res_none.
Proof.
  intros response.
  apply (write_returns_on_200 (R := Fixed.requests response) (Fixed.client response)
           (VectisClient.op_put "a" "1") response ∅ tt).
  - intros req. reflexivity.
  - reflexivity.
  - reflexivity.
Defined.

(** X12: a 200 answer whose body is no JSON document makes
    [batch_get], [scan], [get_vector], [search_similar], [get_stats]
    and [health_check] raise the decoder's [JSONDecodeError] as it is:
    it is not wrapped into a [VectisError], so a handler for
    [VectisError] does not catch it. *)
Theorem undecodable_body_raises_json_error `{R : Requests} (self : VectisClient.t)
  (op : VectisClient.operation) (response : Response) (h : ndheap) (w : world) :
  (∀ req, fst (Session_request (VectisClient.session self) req w) = inr response) →
  status_code response = 200 →
  json_doc response = None →
  decodes_json op = true →
  fst (VectisClient.call self op (h, w)) = inl JSONDecodeError
  ∧ isinstance_VectisError JSONDecodeError = false.
Proof.
  intros Hr H200 Hj Hop. split; [|done].
  destruct op; try discriminate Hop; answer_with Hr;
    unfold bind, VectisClient.json_of; simpl; by rewrite H200, ?Hj.
Qed.

Lemma undecodable_body_raises_json_error_witness :
  let response := {| status_code := 200; text := "<html>"; json_doc := None |} in
  fst (VectisClient.call (Fixed.client response) VectisClient.op_get_stats (∅, tt))
  = inl JSONDecodeError.
Proof.
  intros response.
  apply (undecodable_body_raises_json_error (R := Fixed.requests response)
           (Fixed.client response) VectisClient.op_get_stats response ∅ tt).
  - intros req. reflexivity.
  - reflexivity.
  - reflexivity.
  - reflexivity.
Defined.

(** X13: a 200 answer that is a JSON object without the expected
    member reads as an empty result and raises nothing: without
    ["values"], [batch_get] returns the empty dict whatever the keys;
    without ["entries"], [scan] returns the empty list; without
    ["results"], [search_similar] returns the empty list. *)
Theorem missing_member_reads_as_empty `{R : Requests} (self : VectisClient.t)
  (response : Response) (members : list (string * json)) (h : ndheap) (w : world)
  (keys : list string) (start end_ : string) (limit : Z) (reverse : bool)
  (query : list float64) (k : Z) :
  (∀ req, fst (Session_request (VectisClient.session self) req w) = inr response) →
  status_code response = 200 →
  json_doc response = Some (JObj members) →
  (assoc "values" members = None →
     fst (VectisClient.batch_get self keys (h, w)) = inr ∅)
  ∧ (assoc "entries" members = None →
     fst (VectisClient.scan self start end_ limit reverse (h, w)) = inr [])
  ∧ (assoc "results" members = None →
     fst (VectisClient.search_similar self query k (h, w)) = inr []).
Proof.
  intros Hr H200 Hj. repeat split; intros Hm.
  - unfold VectisClient.batch_get. run_request Hr.
    rewrite H200. simpl. unfold bind, VectisClient.json_of. rewrite Hj. simpl.
    rewrite Hm. simpl. unfold VectisClient.pair_up.
    by destruct keys.
  - unfold VectisClient.scan. run_request Hr.
    rewrite H200. simpl. unfold bind, VectisClient.json_of. rewrite Hj. simpl.
    by rewrite Hm.
  - unfold VectisClient.search_similar.
    rewrite on_heap_init_list. cbv beta.
    rewrite (on_heap_to_list _ (np.array query)) by apply lookup_insert_eq.
    run_request Hr.
    rewrite H200. simpl. unfold bind, VectisClient.json_of. rewrite Hj. simpl.
    by rewrite Hm.
Qed.

Lemma missing_member_reads_as_empty_witness :
  let response := {| status_code := 200; text := "{}"; json_doc := Some (JObj []) |} in
  fst (VectisClient.batch_get (Fixed.client response) ["a"; "b"] (∅, tt)) = inr ∅.
Proof.
  intros response.
  apply (missing_member_reads_as_empty (R := Fixed.requests response)
           (Fixed.client response) response [] ∅ tt ["a"; "b"] "" "" 0 false [] 0).
  - intros req. reflexivity.
  - reflexivity.
  - reflexivity.
  - reflexivity.
Defined.

(** X14: one call is one request.  Whatever the session answers, each
    operation hands it exactly one request: no retry and no second
    round trip, not even after an error; the request carries the
    operation's method, its endpoint joined to the base URL and the
    client's timeout. *)
Theorem one_request_per_call `{R : Requests} (self : VectisClient.t)
  (op : VectisClient.operation) (h : ndheap) (w : world) :
  ∃ kw, wire (VectisClient.call (recorded self) op (h, (w, [])))
        = [{| method := fst (route op);
              url := urljoin (VectisClient.base_url self) (snd (route op));
              timeout_ := VectisClient.timeout self;
              payload := kw |}].
Proof.
  destruct op; eexists;
    unfold wire, VectisClient.call, VectisClient.put, VectisClient.get,
      VectisClient.delete, VectisClient.batch_put, VectisClient.batch_get,
      VectisClient.scan, VectisClient.put_vector, VectisClient.get_vector,
      VectisClient.search_similar, VectisClient.get_stats, VectisClient.health_check,
      VectisClient.on_heap, VectisClient._request, VectisClient.on_world,
      VectisClient.json_of, Vector.__init__, Vector.to_list,
      bind, alloc, load, ret, raise, lift;
    simpl; rewrite ?lookup_insert_eq; simpl;
    destruct (Session_request _ _ w) as [[msg|response] w']; simpl; try reflexivity;
    repeat (case_match; simplify_eq; simpl; try reflexivity).
Qed.

Section BatchGetMore.
Context `{R : Requests}.

Lemma or_None_cases (v : json) : or_None v = JNull ∨ truthy (or_None v) = true.
Proof. unfold or_None. destruct (truthy v) eqn:E; auto. Qed.

Lemma fold_insert_pair_values (pairs : list (string * json)) (d0 : gmap string json) :
  (∀ k v, d0 !! k = Some v → v = JNull ∨ truthy v = true) →
  ∀ k v, fold_left VectisClient.insert_pair pairs d0 !! k = Some v →
         v = JNull ∨ truthy v = true.
Proof.
  revert d0. induction pairs as [|[k0 v0] pairs IH]; intros d0 Hd0; simpl; [done|].
  apply IH. intros k v. unfold VectisClient.insert_pair. simpl.
  destruct (decide (k0 = k)) as [->|Hne].
  - rewrite lookup_insert_eq. intros [= <-]. apply or_None_cases.
  - rewrite lookup_insert_ne by done. apply Hd0.
Qed.

Lemma combine_lookup_inv {A B} (l : list A) (k : list B) (i : nat) x y :
  combine l k !! i = Some (x, y) → l !! i = Some x ∧ k !! i = Some y.
Proof.
  revert k i. induction l as [|a l IH]; intros [|b k] [|i]; simpl; try done.
  - by intros [= -> ->].
  - apply IH.
Qed.

(** A dict returned by [batch_get] is the comprehension over the keys
    zipped with some value sequence. *)
Lemma batch_get_returned (self : VectisClient.t) (keys : list string)
  (s s' : VectisClient.state) (d : gmap string json) :
  VectisClient.batch_get self keys s = (inr d, s') →
  ∃ vs, d = VectisClient.pair_up (combine keys vs).
Proof.
  unfold VectisClient.batch_get, bind.
  destruct (VectisClient._request _ _ _ _ s) as [[e|response] s1]; [done|].
  destruct (negb _); [done|].
  unfold VectisClient.json_of.
  destruct (json_doc response) as [j|]; [|done]. simpl.
  unfold lift. destruct (dict_get j "values") as [e|values]; [done|].
  destruct (iterate values) as [e|vs]; [done|].
  intros [= <- _]. by exists vs.
Qed.

Lemma pair_up_last (pairs : list (string * json)) (i : nat) (k : string) (v : json)
  (d0 : gmap string json) :
  pairs !! i = Some (k, v) →
  (∀ (j : nat) v', (i < j)%nat → pairs !! j ≠ Some (k, v')) →
  fold_left VectisClient.insert_pair pairs d0 !! k = Some (or_None v).
Proof.
  revert i d0. induction pairs as [|[k0 v0] pairs IH]; intros i d0 Hi Hlast; [done|].
  destruct i as [|i]; simpl in *.
  - injection Hi as -> ->. rewrite fold_step_other.
    + unfold VectisClient.insert_pair. simpl. by rewrite lookup_insert_eq.
    + intros Hin. apply list_elem_of_fmap in Hin as [[k' v'] [Hk Hin]].
      simpl in Hk. subst k'. apply list_elem_of_lookup in Hin as [j Hj].
      apply (Hlast (S j) v'); [lia|done].
  - apply (IH i); [done|]. intros j v' Hlt. apply (Hlast (S j) v'). lia.
Qed.
End BatchGetMore.

(** X15: whatever the remote answers, a dict that [batch_get] returns
    has only requested keys, and none of its values is falsy: each is
    [None] or a value that passes Python's truth test, so an empty
    string, [0], [false], [[]] or [{}] never comes back. *)
Theorem batch_get_values_never_falsy `{R : Requests} (self : VectisClient.t)
  (keys : list string) (s : VectisClient.state) (d : gmap string json) :
  fst (VectisClient.batch_get self keys s) = inr d →
  ∀ k v, d !! k = Some v → k ∈ keys ∧ (v = JNull ∨ truthy v = true).
Proof.
  intros Hd k v Hk.
  destruct (VectisClient.batch_get self keys s) as [r s'] eqn:E. simpl in Hd. subst r.
  destruct (batch_get_returned self keys s s' d E) as [vs ->]. split.
  - assert (Hin : k ∈ dom (VectisClient.pair_up (combine keys vs)))
      by (apply elem_of_dom; eauto).
    rewrite pair_up_dom, map_fst_combine, elem_of_list_to_set in Hin.
    apply elem_of_take in Hin as (i & Hi & _). apply list_elem_of_lookup. eauto.
  - revert Hk. unfold VectisClient.pair_up. apply fold_insert_pair_values.
    intros k' v'. by rewrite lookup_empty.
Qed.

Lemma batch_get_values_never_falsy_witness :
  "a" ∈ ["a"; "b"] ∧ (JNull = JNull ∨ truthy JNull = true).
Proof.
  apply (batch_get_values_never_falsy Remote.client ["a"; "b"]
           (Remote.holding {["a" := ""; "b" := "1"]})
           ({["a" := JNull; "b" := JStr "1"]} : gmap string json)).
  - reflexivity.
  - reflexivity.
Defined.

(** X16: [batch_get] with a key given more than once keeps the value
    of its last occurrence: the key maps to the value at the last
    position, among those the response reaches, where the key stands
    in the request. *)
Theorem batch_get_last_duplicate_wins `{R : Requests} (self : VectisClient.t)
  (keys : list string) (h : ndheap) (w : world) (response : Response) (w' : world)
  (members : list (string * json)) (vs : list json) (i : nat) (k : string) (v : json) :
  Session_request (VectisClient.session self)
    (sent self "POST" "/api/batch_get" (kw_json (JObj [("keys", JArr (map JStr keys))]))) w
  = (inr response, w') →
  status_code response = 200 →
  json_doc response = Some (JObj members) →
  assoc "values" members = Some (JArr vs) →
  keys !! i = Some k →
  vs !! i = Some v →
  (∀ j : nat, (i < j < length vs)%nat → keys !! j ≠ Some k) →
  ∃ d, fst (VectisClient.batch_get self keys (h, w)) = inr d
       ∧ d !! k = Some (or_None v).
Proof.
  intros Hs Hc Hj Hv Hk Hvi Hlast.
  rewrite (batch_get_answered self keys h w response w' members vs Hs Hc Hj Hv).
  eexists. split; [reflexivity|].
  unfold VectisClient.pair_up. apply (pair_up_last _ i).
  - revert Hk Hvi. clear. revert vs i.
    induction keys as [|k0 keys IH]; intros [|v0 vs] [|i]; simpl; try done.
    + by intros [= ->] [= ->].
    + apply IH.
  - intros j v' Hlt Hjk. apply combine_lookup_inv in Hjk as [Hjk Hjv].
    apply (Hlast j); [|done]. split; [done|]. by eapply lookup_lt_Some.
Qed.

Lemma batch_get_last_duplicate_wins_witness :
  let response := {| status_code := 200; text := "";
                     json_doc := Some (JObj [("values", JArr [JStr "1"; JStr "2"])]) |} in
  ∃ d, fst (VectisClient.batch_get (Fixed.client response) ["a"; "a"] (∅, tt)) = inr d
       ∧ d !! "a" = Some (or_None (JStr "2")).
Proof.
  intros response.
  apply (batch_get_last_duplicate_wins (R := Fixed.requests response)
           (Fixed.client response) ["a"; "a"] ∅ tt response tt
           [("values", JArr [JStr "1"; JStr "2"])] [JStr "1"; JStr "2"]
           1%nat "a" (JStr "2")).
  - reflexivity.
  - reflexivity.
  - reflexivity.
  - reflexivity.
  - reflexivity.
  - reflexivity.
  - intros j Hj. simpl in Hj. lia.
Defined.

Section Decoding.
Context `{R : Requests}.

Lemma item_pair_spec (name1 name2 : string) (item : json) (kv : json * json) :
  item_pair name1 name2 item = inr kv ↔ has_members name1 name2 item kv.
Proof.
  unfold item_pair, has_members, subscript. split.
  - destruct item as [| | | | |l|m]; try done.
    destruct (assoc name1 m) as [k|] eqn:E1; [|done].
    destruct (assoc name2 m) as [v|] eqn:E2; [|done].
    intros [= <-]. eauto.
  - intros (m & -> & H1 & H2). rewrite H1, H2. by destruct kv.
Qed.

Lemma mapM_inr {A B} (f : A → exn + B) (l : list A) (ys : list B) :
  mapM f l = inr ys ↔ Forall2 (fun x y => f x = inr y) l ys.
Proof.
  revert ys. induction l as [|x l IH]; intros ys; simpl.
  - split; [intros [= <-]; constructor|by inversion 1].
  - destruct (f x) as [e|y] eqn:Ex.
    + split; [done|]. inversion 1; congruence.
    + destruct (mapM f l) as [e|ys'] eqn:El.
      * split; [done|]. inversion 1 as [|? y' ? ys'' Hy Hl]; subst.
        apply IH in Hl. done.
      * split.
        -- intros [= <-]. constructor; [done|by apply IH].
        -- inversion 1 as [|? y' ? ys'' Hy Hl]; subst.
           apply IH in Hl. congruence.
Qed.

Lemma mapM_item_pair (name1 name2 : string) (items : list json)
  (pairs : list (json * json)) :
  mapM (item_pair name1 name2) items = inr pairs
  ↔ Forall2 (has_members name1 name2) items pairs.
Proof.
  rewrite mapM_inr. split; intros H; eapply Forall2_impl; try exact H;
    intros item kv; by rewrite item_pair_spec.
Qed.

Lemma scan_answered (self : VectisClient.t) (start end_ : string) (limit : Z)
  (reverse : bool) (h : ndheap) (w : world) (response : Response) (w' : world)
  (members : list (string * json)) (items : list json) :
  Session_request (VectisClient.session self)
    (sent self "GET" "/api/scan"
       (kw_params [("start", JStr start); ("end", JStr end_); ("limit", JInt limit);
                   ("reverse", JStr (if reverse then "true" else "false"))])) w
  = (inr response, w') →
  status_code response = 200 →
  json_doc response = Some (JObj members) →
  assoc "entries" members = Some (JArr items) →
  VectisClient.scan self start end_ limit reverse (h, w)
  = (mapM (item_pair "key" "value") items, (h, w')).
Proof.
  intros Hs Hc Hj Hm. unfold VectisClient.scan, bind.
  rewrite (_request_answered _ _ _ _ _ _ _ _ Hs), Hc. simpl.
  unfold VectisClient.json_of. rewrite Hj. run. by rewrite Hm.
Qed.

Lemma search_similar_answered (self : VectisClient.t) (query : list float64) (k : Z)
  (h : ndheap) (w : world) (response : Response) (w' : world)
  (members : list (string * json)) (items : list json) :
  Session_request (VectisClient.session self)
    (sent self "POST" "/api/vector/search"
       (kw_json (JObj [("query", JArr (map JFloat (map float32_rounding query)));
                       ("k", JInt k)]))) w
  = (inr response, w') →
  status_code response = 200 →
  json_doc response = Some (JObj members) →
  assoc "results" members = Some (JArr items) →
  VectisClient.search_similar self query k (h, w)
  = (mapM (item_pair "key" "distance") items,
     (<[fresh (dom h) := np.array query]> h, w')).
Proof.
  intros Hs Hc Hj Hm. unfold VectisClient.search_similar.
  rewrite on_heap_init_list. cbv beta.
  rewrite (on_heap_to_list _ (np.array query)) by apply lookup_insert_eq.
  rewrite tolist_array. unfold bind.
  rewrite (_request_answered _ _ _ _ _ _ _ _ Hs), Hc. simpl.
  unfold VectisClient.json_of. rewrite Hj. run. by rewrite Hm.
Qed.
End Decoding.

(** X17: [scan] hands on what the remote lists, in the remote's order:
    when every entry of the answer is an object with a ["key"] and a
    ["value"], the result is the list of these pairs, one per entry and
    in the order of the entries; when some entry is not, [scan] raises
    and returns no partial list. *)
Theorem scan_decodes_in_order `{R : Requests} (self : VectisClient.t)
  (start end_ : string) (limit : Z) (reverse : bool) (h : ndheap) (w : world)
  (response : Response) (w' : world) (members : list (string * json))
  (items : list json) :
  Session_request (VectisClient.session self)
    (sent self "GET" "/api/scan"
       (kw_params [("start", JStr start); ("end", JStr end_); ("limit", JInt limit);
                   ("reverse", JStr (if reverse then "true" else "false"))])) w
  = (inr response, w') →
  status_code response = 200 →
  json_doc response = Some (JObj members) →
  assoc "entries" members = Some (JArr items) →
  (∀ pairs, Forall2 (has_members "key" "value") items pairs →
     VectisClient.scan self start end_ limit reverse (h, w) = (inr pairs, (h, w')))
  ∧ ((¬ ∃ pairs, Forall2 (has_members "key" "value") items pairs) →
     ∃ e, fst (VectisClient.scan self start end_ limit reverse (h, w)) = inl e).
Proof.
  intros Hs Hc Hj Hm.
  rewrite (scan_answered self start end_ limit reverse h w response w' members items
             Hs Hc Hj Hm).
  split.
  - intros pairs Hp. by apply mapM_item_pair in Hp as ->.
  - intros Hno. simpl. destruct (mapM _ items) as [e|pairs] eqn:E; [by exists e|].
    exfalso. apply Hno. exists pairs. by apply mapM_item_pair.
Qed.

Lemma scan_decodes_in_order_witness :
  let items := [JObj [("key", JStr "a"); ("value", JStr "1")];
                JObj [("value", JStr "2"); ("key", JStr "b")]] in
  let response := {| status_code := 200; text := "";
                     json_doc := Some (JObj [("entries", JArr items)]) |} in
  VectisClient.scan (Fixed.client response) "a" "c" 0 false (∅, tt)
  = (inr [(JStr "a", JStr "1"); (JStr "b", JStr "2")], (∅, tt)).
Proof.
  intros items response.
  apply (scan_decodes_in_order (R := Fixed.requests response) (Fixed.client response)
           "a" "c" 0 false ∅ tt response tt [("entries", JArr items)] items).
  - reflexivity.
  - reflexivity.
  - reflexivity.
  - reflexivity.
  - repeat constructor; eexists; (split; [reflexivity|split; reflexivity]).
Defined.

(** X18: [search_similar] does not rank: when every item of the answer
    is an object with a ["key"] and a ["distance"], the result is the
    list of these pairs in the order the remote gave them, also when
    the distances are not ascending or there are more than [k]. *)
Theorem search_similar_passes_order `{R : Requests} (self : VectisClient.t)
  (query : list float64) (k : Z) (h : ndheap) (w : world)
  (response : Response) (w' : world) (members : list (string * json))
  (items : list json) (pairs : list (json * json)) :
  Session_request (VectisClient.session self)
    (sent self "POST" "/api/vector/search"
       (kw_json (JObj [("query", JArr (map JFloat (map float32_rounding query)));
                       ("k", JInt k)]))) w
  = (inr response, w') →
  status_code response = 200 →
  json_doc response = Some (JObj members) →
  assoc "results" members = Some (JArr items) →
  Forall2 (has_members "key" "distance") items pairs →
  fst (VectisClient.search_similar self query k (h, w)) = inr pairs.
Proof.
  intros Hs Hc Hj Hm Hp.
  rewrite (search_similar_answered self query k h w response w' members items
             Hs Hc Hj Hm).
  simpl. by apply mapM_item_pair.
Qed.

Lemma search_similar_passes_order_witness :
  let items := [JObj [("key", JStr "far"); ("distance", JInt 9)];
                JObj [("key", JStr "near"); ("distance", JInt 1)]] in
  let response := {| status_code := 200; text := "";
                     json_doc := Some (JObj [("results", JArr items)]) |} in
  fst (VectisClient.search_similar (Fixed.client response) [] 1 (∅, tt))
  = inr [(JStr "far", JInt 9); (JStr "near", JInt 1)].
Proof.
  intros items response.
  apply (search_similar_passes_order (R := Fixed.requests response)
           (Fixed.client response) [] 1 ∅ tt response tt
           [("results", JArr items)] items).
  - reflexivity.
  - reflexivity.
  - reflexivity.
  - reflexivity.
  - repeat constructor; eexists; (split; [reflexivity|split; reflexivity]).
Defined.

(** X19: [get_vector] tells absent from present like [get]: on status
    404 it returns [None] and allocates nothing; on status 200 with a
    JSON object whose ["vector"] is a list of numbers that convert
    (floats, ints within the range of a double, booleans, null) it
    returns a new Vector that holds the float32 roundings of these
    numbers and leaves every existing array as it was; on status 200
    with a JSON object that has no ["vector"] it raises [KeyError]. *)
Theorem get_vector_outcomes `{R : Requests} (self : VectisClient.t) (key : string)
  (h : ndheap) (w : world) (response : Response) (w' : world) :
  Session_request (VectisClient.session self)
    (sent self "GET" "/api/vector/get" (kw_params [("key", JStr key)])) w
  = (inr response, w') →
  (status_code response = 404 →
     VectisClient.get_vector self key (h, w) = (inr None, (h, w')))
  ∧ (status_code response = 200 →
     ∀ members items l,
       json_doc response = Some (JObj members) →
       assoc "vector" members = Some (JArr items) →
       mapM number items = inr l →
       ∃ (v : Vector.t) (h' : ndheap),
         VectisClient.get_vector self key (h, w) = (inr (Some v), (h', w'))
         ∧ (Vector.data v ∉ dom h)
         ∧ arrays_kept h h'
         ∧ h' !! Vector.data v = Some (np.array l))
  ∧ (status_code response = 200 →
     ∀ members,
       json_doc response = Some (JObj members) →
       assoc "vector" members = None →
       VectisClient.get_vector self key (h, w) = (inl KeyError, (h, w'))).
Proof.
  intros Hs. unfold VectisClient.get_vector, bind.
  rewrite (_request_answered _ _ _ _ _ _ _ _ Hs).
  repeat split.
  - by intros ->.
  - intros -> members items l Hj Hm Hl. simpl.
    unfold VectisClient.json_of. rewrite Hj. run. rewrite Hm. simpl. rewrite Hl.
    unfold VectisClient.on_heap, alloc. simpl.
    eexists _, _. split; [reflexivity|]. simpl.
    split; [apply is_fresh|]. split; [|by rewrite lookup_insert_eq].
    intros l0 Hl0. rewrite lookup_insert_ne; [done|].
    intros <-. by apply (is_fresh (dom h)).
  - intros -> members Hj Hm. simpl.
    unfold VectisClient.json_of. rewrite Hj. run. by rewrite Hm.
Qed.

Lemma get_vector_outcomes_witness :
  let response := {| status_code := 404; text := "Vector not found";
                     json_doc := None |} in
  VectisClient.get_vector (Fixed.client response) "v" (∅, tt) = (inr None, (∅, tt)).
Proof.
  intros response.
  apply (get_vector_outcomes (R := Fixed.requests response) (Fixed.client response)
           "v" ∅ tt response tt eq_refl).
  reflexivity.
Defined.

Section KeepsArrays.
Context `{R : Requests}.

Lemma arrays_kept_refl (h : ndheap) : arrays_kept h h.
Proof. by intros l Hl. Qed.

Lemma arrays_kept_trans (h1 h2 h3 : ndheap) :
  arrays_kept h1 h2 → arrays_kept h2 h3 → arrays_kept h1 h3.
Proof.
  intros H12 H23 l Hl. rewrite H23, H12; [done..|].
  apply elem_of_dom. rewrite H12 by done. by apply elem_of_dom.
Qed.

Lemma arrays_kept_alloc (h : ndheap) (a : list float32) :
  arrays_kept h (<[fresh (dom h) := a]> h).
Proof.
  intros l Hl. rewrite lookup_insert_ne; [done|].
  intros <-. by apply (is_fresh (dom h)).
Qed.

Lemma keeps_ret {A} (a : A) : keeps_arrays (ret a).
Proof. intros s. apply arrays_kept_refl. Qed.

Lemma keeps_raise {A} (e : exn) : keeps_arrays (@raise _ A e).
Proof. intros s. apply arrays_kept_refl. Qed.

Lemma keeps_lift {A} (r : exn + A) : keeps_arrays (lift r).
Proof. intros s. apply arrays_kept_refl. Qed.

Lemma keeps_json_of response : keeps_arrays (VectisClient.json_of response).
Proof.
  intros s. unfold VectisClient.json_of.
  destruct (json_doc response); apply arrays_kept_refl.
Qed.

Lemma keeps_request self m e kw : keeps_arrays (VectisClient._request self m e kw).
Proof.
  intros [h w]. unfold VectisClient._request, VectisClient.on_world, bind. simpl.
  destruct (Session_request _ _ w) as [[msg|response] w']; apply arrays_kept_refl.
Qed.

Lemma keeps_init_list (l : list float64) :
  keeps_arrays (VectisClient.on_heap (Vector.__init__ (Vector.of_list l))).
Proof. intros [h w]. apply arrays_kept_alloc. Qed.

Lemma keeps_to_list (vec : Vector.t) :
  keeps_arrays (VectisClient.on_heap (Vector.to_list vec)).
Proof.
  intros [h w]. unfold VectisClient.on_heap, Vector.to_list, bind, load. simpl.
  destruct (h !! Vector.data vec); apply arrays_kept_refl.
Qed.

Lemma keeps_bind {A B} (c : Py VectisClient.state A) (k : A → Py VectisClient.state B) :
  keeps_arrays c → (∀ a, keeps_arrays (k a)) → keeps_arrays (bind c k).
Proof.
  intros Hc Hk s. unfold bind. specialize (Hc s).
  destruct (c s) as [[e|a] s1]; [done|].
  eapply arrays_kept_trans; [exact Hc|apply Hk].
Qed.

Lemma keeps_if {A} (b : bool) (c1 c2 : Py VectisClient.state A) :
  keeps_arrays c1 → keeps_arrays c2 → keeps_arrays (if b then c1 else c2).
Proof. by destruct b. Qed.
End KeepsArrays.

Create HintDb keeps.
#[local] Hint Resolve keeps_ret keeps_raise keeps_lift keeps_json_of keeps_request
  keeps_init_list keeps_to_list : keeps.

Ltac keeps :=
  repeat first
    [ solve [eauto with keeps]
    | apply keeps_if
    | apply keeps_bind; [|intros ?] ].

Lemma call_keeps_arrays `{R : Requests} (self : VectisClient.t)
  (op : VectisClient.operation) : keeps_arrays (VectisClient.call self op).
Proof.
  destruct op; unfold VectisClient.call, VectisClient.put, VectisClient.get,
    VectisClient.delete, VectisClient.batch_put, VectisClient.batch_get,
    VectisClient.scan, VectisClient.put_vector, VectisClient.get_vector,
    VectisClient.search_similar, VectisClient.get_stats, VectisClient.health_check;
    keeps.
Qed.

(** X20: no operation of the client changes a vector the caller holds:
    whatever the session answers, every array that exists before a
    call is the same after it ([put_vector], [get_vector] and
    [search_similar] only add arrays of their own). *)
Theorem calls_keep_arrays `{R : Requests} (self : VectisClient.t)
  (op : VectisClient.operation) (s : VectisClient.state) (l : loc) :
  l ∈ dom (fst s) →
  fst (snd (VectisClient.call self op s)) !! l = fst s !! l.
Proof.
  intros Hl. by apply (call_keeps_arrays self op s).
Qed.

Lemma calls_keep_arrays_witness :
  let response := {| status_code := 200; text := "";
                     json_doc := Some (JObj [("vector", JArr [JInt 7])]) |} in
  let a := [F32.of_bits 1 0] in
  let s : @VectisClient.state (Fixed.requests response) := ({[1%positive := a]}, tt) in
  fst (snd (VectisClient.call (Fixed.client response) (VectisClient.op_get_vector "v") s))
    !! 1%positive
  = Some a.
Proof.
  intros response a s.
  apply (calls_keep_arrays (R := Fixed.requests response) (Fixed.client response)
           (VectisClient.op_get_vector "v") s 1%positive).
  apply elem_of_dom. eexists. reflexivity.
Defined.

Section Rstrip.

Lemma append_slashes_cons (c : ascii) (r : string) (n : nat) :
  String c r +:+ slashes n = String c (r +:+ slashes n).
Proof. reflexivity. Qed.

Lemma rstrip_slash_fixed (r : string) :
  last_char r ≠ Some "/"%char → rstrip_slash r = r.
Proof.
  induction r as [|c r IH]; [done|]. intros Hlast. simpl in *.
  destruct r as [|c' r'].
  - simpl. destruct (Ascii.eqb_spec c "/"%char) as [->|]; [done|done].
  - rewrite IH by done. done.
Qed.
End Rstrip.

(** X21: [base_url.rstrip('/')] removes the trailing slashes and
    nothing else: the given string is the result followed by slashes
    only, the result does not end in a slash, and stripping it again
    changes nothing. *)
Theorem rstrip_slash_spec (s : string) :
  (∃ n, s = rstrip_slash s +:+ slashes n)
  ∧ last_char (rstrip_slash s) ≠ Some "/"%char
  ∧ rstrip_slash (rstrip_slash s) = rstrip_slash s.
Proof.
  assert (H : (∃ n, s = rstrip_slash s +:+ slashes n)
              ∧ last_char (rstrip_slash s) ≠ Some "/"%char).
  { induction s as [|c s [[n Hn] Hlast]]; [split; [by exists 0%nat|done]|].
    simpl. destruct (rstrip_slash s) as [|c' r'] eqn:Er.
    - destruct (Ascii.eqb_spec c "/"%char) as [->|Hc].
      + split; [exists (S n); simpl in *; by rewrite Hn at 1|done].
      + split; [exists n; simpl in *; by rewrite Hn at 1|].
        simpl. congruence.
    - split; [exists n; rewrite append_slashes_cons; by rewrite <- Hn|done]. }
  destruct H as [H1 H2]. repeat split; [done..|]. by apply rstrip_slash_fixed.
Qed.

(** X22: the constructor probes the remote once with [get_stats] and
    is all or nothing.  When the probe is answered with status 200 and
    a JSON body, it returns a client whose base URL is the given one
    without its trailing slashes; in every other case (transport
    failure, another status, a body that is no JSON) it raises
    [VectisConnectionError], whose text names the URL as it was given,
    and no other kind of exception. *)
Theorem init_connects_or_fails `{R : Requests} (base_url : string) (timeout : Z)
  (h : ndheap) (w : world) (session : Session) (w0 w1 : world)
  (r : string + Response) :
  Session_new w = (session, w0) →
  let self := {| VectisClient.base_url := rstrip_slash base_url;
                 VectisClient.timeout := timeout;
                 VectisClient.session := session |} in
  Session_request session (sent self "GET" "/api/stats" kw_none) w0 = (r, w1) →
  ((∃ response j, r = inr response ∧ status_code response = 200
                  ∧ json_doc response = Some j)
   ∧ VectisClient.__init__ base_url timeout (h, w) = (inr self, (h, w1)))
  ∨ ((¬ ∃ response j, r = inr response ∧ status_code response = 200
                      ∧ json_doc response = Some j)
     ∧ ∃ msg, VectisClient.__init__ base_url timeout (h, w)
              = (inl (VectisConnectionError
                        ("Failed to connect to " +:+ base_url +:+ ": " +:+ msg)),
                 (h, w1))).
Proof.
  intros Hnew self Hreq.
  assert (Hinit : VectisClient.__init__ base_url timeout (h, w)
                  = try_except (VectisClient.get_stats self ;;; ret self)
                      (fun e => raise (VectisConnectionError
                         ("Failed to connect to " +:+ base_url +:+ ": " +:+ str e)))
                      (h, w0)).
  { unfold VectisClient.__init__, VectisClient.on_world, bind at 1. simpl.
    by rewrite Hnew. }
  rewrite Hinit. clear Hinit.
  unfold try_except, VectisClient.get_stats. rewrite bind_assoc.
  destruct r as [msg|response].
  - right. split; [by intros (? & ? & ? & _)|].
    rewrite (bind_raised _ _ _ _ _
               (_request_failed self "GET" "/api/stats" kw_none h w0 msg w1 Hreq)).
    unfold raise. eauto.
  - rewrite (bind_returned _ _ _ _ _
               (_request_answered self "GET" "/api/stats" kw_none h w0 response w1 Hreq)).
    unfold bind, raise, ret.
    destruct (Z.eqb_spec (status_code response) 200) as [H200|H200]; simpl.
    + unfold VectisClient.json_of.
      destruct (json_doc response) as [j|] eqn:Hj; simpl.
      * left. split; [|done]. by exists response, j.
      * right. split; [|eauto].
        intros (response' & j & [= <-] & _ & Hj'). congruence.
    + right. split; [|eauto].
      intros (response' & j & [= <-] & H & _). done.
Qed.

Lemma init_connects_or_fails_witness :
  VectisClient.__init__ (R := Down.requests) "http://localhost:8080/" 30 (∅, tt)
  = (inl (VectisConnectionError
            "Failed to connect to http://localhost:8080/: Request failed: Connection refused"),
     (∅, tt)).
Proof.
  destruct (init_connects_or_fails (R := Down.requests) "http://localhost:8080/" 30
              ∅ tt tt tt tt (inl "Connection refused") eq_refl eq_refl)
    as [[(response & j & Hr & _) _]|[_ [msg Hmsg]]].
  - discriminate Hr.
  - reflexivity.
Defined.

(** * gen_sample.py *)

Section Fvecs.
Variable order : gen_sample.byteorder.
Variable rng : Type.
Variable random_random : rng → float64 * rng.

Lemma in_order_twice (l : list byte) :
  gen_sample.in_order order (gen_sample.in_order order l) = l.
Proof. destruct order; simpl; [done|apply rev_involutive]. Qed.

Lemma length_in_order (l : list byte) : length (gen_sample.in_order order l) = length l.
Proof. destruct order; simpl; [done|apply length_rev]. Qed.

Lemma pack_I_in_range (n : Z) :
  0 <= n < 2 ^ 32 →
  ∃ header, gen_sample.pack_I order n = inr header
            ∧ length header = 4%nat
            ∧ gen_sample.unpack_I order header = n.
Proof.
  intros Hn. unfold gen_sample.pack_I.
  destruct (Z.leb_spec 0 n), (Z.ltb_spec n (2 ^ 32)); try lia. simpl.
  eexists. split; [reflexivity|]. split.
  - by rewrite length_in_order, length_le_split.
  - unfold gen_sample.unpack_I. rewrite in_order_twice, le_combine_split.
    apply Z.mod_small. simpl. lia.
Qed.

Lemma pack_I_out_of_range (n : Z) :
  ¬ (0 <= n < 2 ^ 32) → gen_sample.pack_I order n = inl gen_sample.struct_error.
Proof.
  intros Hn. unfold gen_sample.pack_I.
  destruct (Z.leb_spec 0 n), (Z.ltb_spec n (2 ^ 32)); try lia; done.
Qed.

Lemma pack_f_length (x : float64) : length (gen_sample.pack_f order x) = 4%nat.
Proof.
  unfold gen_sample.pack_f. by rewrite length_in_order, length_le_split.
Qed.

Lemma pack_each_length (data : list float64) :
  length (gen_sample.pack_each order data) = (4 * length data)%nat.
Proof.
  induction data as [|x data IH]; simpl; [done|].
  rewrite length_app, pack_f_length, IH. lia.
Qed.

Lemma draw_length (n : nat) (g : rng) :
  length (fst (gen_sample.draw rng random_random n g)) = n.
Proof.
  revert g. induction n as [|n IH]; intros g; simpl; [done|].
  destruct (random_random g) as [x g1]. specialize (IH g1).
  destruct (gen_sample.draw rng random_random n g1) as [xs g2]. simpl in *. by rewrite IH.
Qed.

Lemma write_vector_in_range (dim : Z) (out : list byte) (g : rng) :
  0 <= dim < 2 ^ 32 →
  ∃ r g', gen_sample.write_vector order rng random_random dim out g
          = (inr tt, (out ++ r, g'))
          ∧ gen_sample.is_record order dim r.
Proof.
  intros Hdim. unfold gen_sample.write_vector.
  destruct (pack_I_in_range dim Hdim) as (header & -> & Hlen & Hun).
  pose proof (draw_length (Z.to_nat dim) g) as Hdl.
  destruct (gen_sample.draw rng random_random (Z.to_nat dim) g) as [data g1].
  simpl in Hdl.
  unfold gen_sample.pack_floats.
  destruct (Z.ltb_spec dim 0); [lia|].
  replace (Z.of_nat (length data) =? dim) with true
    by (symmetry; apply Z.eqb_eq; lia).
  simpl. exists (header ++ gen_sample.pack_each order data), g1.
  split; [by rewrite app_assoc|].
  exists header, (gen_sample.pack_each order data). repeat split; try done.
  by rewrite pack_each_length, Hdl.
Qed.

Lemma write_vectors_in_range (n : nat) (dim : Z) (out : list byte) (g : rng) :
  0 <= dim < 2 ^ 32 →
  ∃ records g', gen_sample.write_vectors order rng random_random n dim out g
                = (inr tt, (out ++ concat records, g'))
                ∧ length records = n
                ∧ Forall (gen_sample.is_record order dim) records.
Proof.
  intros Hdim. revert out g. induction n as [|n IH]; intros out g; simpl.
  - exists [], g. simpl. by rewrite app_nil_r.
  - destruct (write_vector_in_range dim out g Hdim) as (r & g1 & -> & Hr).
    destruct (IH (out ++ r) g1) as (records & g' & -> & Hlen & Hall).
    exists (r :: records), g'. simpl. rewrite app_assoc.
    repeat split; [by rewrite Hlen|by constructor].
Qed.

Lemma records_length (dim : Z) (records : list (list byte)) :
  0 <= dim → Forall (gen_sample.is_record order dim) records →
  Z.of_nat (length (concat records)) = Z.of_nat (length records) * (4 + 4 * dim).
Proof.
  intros Hdim. induction 1 as [|r records (header & body & -> & Hh & _ & Hb) _ IH].
  - simpl. lia.
  - simpl concat. rewrite length_app, length_app, Hh, Hb.
    simpl length. lia.
Qed.
End Fvecs.






(** * Rounding, bit by bit *)

(** What the shifts of [binary_round] compute, in terms of integer
    division. *)
Section Shifts.

Lemma shr_1_spec mrs :
  0 <= shr_m mrs →
  shr_1 mrs = {| shr_m := shr_m mrs / 2; shr_r := Z.odd (shr_m mrs);
                 shr_s := shr_r mrs || shr_s mrs |}.
Proof.
  destruct mrs as [[|[p|p|]|p] r s]; simpl; intros H; try lia; try done.
  - f_equal. rewrite <- Z.div2_div. done.
  - f_equal. rewrite <- Z.div2_div. done.
Qed.

Lemma pow2_pred (k : Z) : 0 < k → 2 ^ k = 2 * 2 ^ (k - 1).
Proof.
  intros Hk. rewrite <- Z.pow_succ_r by lia. f_equal. lia.
Qed.

Lemma mod_pow2_split (m k : Z) :
  0 < k →
  m mod 2 ^ k = m mod 2 ^ (k - 1) + 2 ^ (k - 1) * ((m / 2 ^ (k - 1)) mod 2).
Proof.
  intros Hk. rewrite (pow2_pred k Hk), (Z.mul_comm 2).
  apply Z.rem_mul_r; [|lia]. apply Z.pow_nonzero; lia.
Qed.

Lemma div_pow2_succ (m k : Z) : 0 <= k → m / 2 ^ k / 2 = m / 2 ^ (k + 1).
Proof.
  intros Hk. rewrite Z.pow_add_r by lia. rewrite Z.div_div; [done| |lia].
  apply Z.pow_nonzero; lia.
Qed.

(** [k] shifts to the right: the quotient by [2^k], the bit last
    shifted out, and whether anything was shifted out before it. *)
Lemma shr_iter_spec (k : positive) (m : Z) (r s : bool) :
  0 <= m →
  SpecFloat.iter_pos shr_1 k {| shr_m := m; shr_r := r; shr_s := s |}
  = {| shr_m := m / 2 ^ Z.pos k;
       shr_r := Z.odd (m / 2 ^ (Z.pos k - 1));
       shr_s := negb (m mod 2 ^ (Z.pos k - 1) =? 0) || r || s |}.
Proof.
  intros Hm. induction k as [|k IH] using Pos.peano_ind.
  - cbn [SpecFloat.iter_pos]. rewrite shr_1_spec by done. simpl.
    rewrite Z.div_1_r. f_equal. rewrite Z.mod_1_r. done.
  - rewrite iter_pos_succ, IH, shr_1_spec.
    + simpl. rewrite Pos2Z.inj_succ.
      replace (Z.succ (Z.pos k) - 1) with (Z.pos k) by lia.
      f_equal.
      * rewrite div_pow2_succ by lia. done.
      * rewrite (mod_pow2_split m (Z.pos k)) by lia.
        rewrite Zmod_odd.
        assert (0 <= m mod 2 ^ (Z.pos k - 1) < 2 ^ (Z.pos k - 1))
          by (apply Z.mod_pos_bound, Z.pow_pos_nonneg; lia).
        destruct (Z.odd (m / 2 ^ (Z.pos k - 1))); simpl.
        -- destruct (Z.eqb_spec (m mod 2 ^ (Z.pos k - 1) + 2 ^ (Z.pos k - 1) * 1) 0); [lia|].
           simpl. by destruct (negb _).
        -- rewrite Z.mul_0_r, Z.add_0_r. done.
    + simpl. apply Z.div_pos; [done|]. apply Z.pow_pos_nonneg; lia.
Qed.

Lemma round_nearest_even_spec (k : positive) (m : Z) :
  0 <= m →
  let mrs := SpecFloat.iter_pos shr_1 k {| shr_m := m; shr_r := false; shr_s := false |} in
  round_nearest_even (shr_m mrs) (loc_of_shr_record mrs) = nearest_even m (Z.pos k).
Proof.
  intros Hm. simpl. rewrite shr_iter_spec by done. simpl.
  unfold nearest_even.
  rewrite (mod_pow2_split m (Z.pos k)) by lia.
  assert (Hp : 2 ^ Z.pos k = 2 * 2 ^ (Z.pos k - 1)) by (apply pow2_pred; lia).
  assert (0 <= m mod 2 ^ (Z.pos k - 1) < 2 ^ (Z.pos k - 1))
    by (apply Z.mod_pos_bound, Z.pow_pos_nonneg; lia).
  rewrite Zmod_odd. rewrite !orb_false_r.
  destruct (Z.odd (m / 2 ^ (Z.pos k - 1))); simpl.
  - destruct (Z.eqb_spec (m mod 2 ^ (Z.pos k - 1)) 0) as [E|E]; simpl.
    + rewrite E. replace (2 * (0 + 2 ^ (Z.pos k - 1) * 1) ?= 2 ^ Z.pos k) with Eq; [done|].
      symmetry. apply Z.compare_eq_iff. lia.
    + replace (2 * (m mod 2 ^ (Z.pos k - 1) + 2 ^ (Z.pos k - 1) * 1) ?= 2 ^ Z.pos k) with Gt; [done|].
      symmetry. apply Z.compare_gt_iff. lia.
  - replace (2 * (m mod 2 ^ (Z.pos k - 1) + 2 ^ (Z.pos k - 1) * 0) ?= 2 ^ Z.pos k) with Lt.
    + by destruct (negb _).
    + symmetry. apply Z.compare_lt_iff. lia.
Qed.

Lemma digits_log2 (m : positive) : Z.pos (digits2_pos m) = Z.log2 (Z.pos m) + 1.
Proof.
  induction m as [m IH|m IH|]; simpl; try done.
  - destruct m; simpl in *; lia.
  - destruct m; simpl in *; lia.
Qed.

Lemma Zdigits2_log2 (n : Z) : 0 < n → Zdigits2 n = Z.log2 n + 1.
Proof. destruct n as [|p|p]; try lia. intros _. apply digits_log2. Qed.

Lemma Zdigits2_bounds (n : Z) : 0 < n → 2 ^ (Zdigits2 n - 1) <= n < 2 ^ Zdigits2 n.
Proof.
  intros Hn. rewrite (Zdigits2_log2 n Hn).
  replace (Z.log2 n + 1 - 1) with (Z.log2 n) by lia.
  apply (Z.log2_spec n Hn).
Qed.

Lemma Zdigits2_le (n d : Z) : 0 <= n < 2 ^ d → 0 <= d → Zdigits2 n <= d.
Proof.
  intros [Hn Hlt] Hd. destruct (Z.eq_dec n 0) as [->|Hz]; [done|].
  rewrite Zdigits2_log2 by lia.
  assert (Z.log2 n < d) by (apply Z.log2_lt_pow2; lia). lia.
Qed.

End Shifts.

Section Nearest.

Lemma binary_round_aux_canonical (prec emax : Z) (s : bool) (m : positive) (e : Z) :
  fexp prec emax (Z.pos (digits2_pos m) + e) = e →
  binary_round_aux prec emax s (Z.pos m) e loc_Exact
  = if e <=? emax - prec then S754_finite s m e else S754_infinity s.
Proof.
  intros Hc. unfold binary_round_aux, shr_fexp. simpl Zdigits2.
  rewrite Hc, Z.sub_diag. simpl.
  by rewrite Hc, Z.sub_diag.
Qed.

Lemma shifted_left (m k : positive) : Z.pos (Pos.iter xO m k) = Z.pos m * 2 ^ Z.pos k.
Proof.
  induction k as [|k IH] using Pos.peano_ind.
  - simpl. lia.
  - rewrite Pos.iter_succ, Pos2Z.inj_xO, IH, Pos2Z.inj_succ, Z.pow_succ_r by lia. lia.
Qed.

Lemma fexp32 (x : Z) : fexp 24 128 x = Z.max (x - 24) (-149).
Proof. done. Qed.

Lemma nearest_even_bounds (m k : Z) :
  0 <= m → 0 < k → m / 2 ^ k <= nearest_even m k <= m / 2 ^ k + 1.
Proof.
  intros Hm Hk. unfold nearest_even.
  destruct (_ ?= _); [destruct (Z.even _)| |]; lia.
Qed.

(** The second look of [binary_round_aux] at a mantissa that fits, or
    that has just been rounded up to [2^24]. *)
Lemma second_shift (n f : Z) :
  -149 <= f → 0 <= n <= 2 ^ 24 →
  shr_fexp 24 128 n f loc_Exact
  = if n =? 2 ^ 24
    then ({| shr_m := 2 ^ 23; shr_r := false; shr_s := false |}, f + 1)
    else ({| shr_m := n; shr_r := false; shr_s := false |}, f).
Proof.
  intros Hf Hn. unfold shr_fexp. rewrite fexp32.
  destruct (Z.eqb_spec n (2 ^ 24)) as [->|Hne].
  - replace (Z.max _ _ - f) with 1 by (simpl Zdigits2; lia). done.
  - assert (Hd : Zdigits2 n <= 24) by (apply Zdigits2_le; lia).
    assert (0 <= Zdigits2 n) by (destruct n; simpl; lia).
    destruct (Z.max (Zdigits2 n + f - 24) (-149) - f) as [|p|p] eqn:E; try done. lia.
Qed.

Theorem of_f64_nearest (x : float64) : F32.of_f64 x = binary32_nearest x.
Proof.
  destruct x as [s|s| |s m e]; try done.
  unfold F32.of_f64, Fmt.round, F32.prec, F32.emax, binary_round, binary32_nearest.
  rewrite fexp32, digits_log2.
  replace (Z.log2 (Z.pos m) + 1 + e - 24) with (Z.log2 (Z.pos m) + e - 23) by lia.
  set (f := Z.max (Z.log2 (Z.pos m) + e - 23) (-149)).
  assert (Hf : f = fexp 24 128 (Z.pos (digits2_pos m) + e)).
  { rewrite fexp32, digits_log2. unfold f. f_equal. lia. }
  pose proof (Zdigits2_bounds (Z.pos m) eq_refl) as Hb. simpl Zdigits2 in Hb.
  rewrite digits_log2 in Hb.
  replace (Z.log2 (Z.pos m) + 1 - 1) with (Z.log2 (Z.pos m)) in Hb by lia.
  pose proof (Z.log2_nonneg (Z.pos m)) as Hl.
  unfold shl_align.
  destruct (Z.leb_spec f e) as [Hle|Hgt].
  - (* nothing to round *)
    assert (Hsh : ∀ mz : positive, Z.pos mz = Z.pos m * 2 ^ (e - f) →
              binary_round_aux 24 128 s (Z.pos mz) f loc_Exact
              = (let '(n, e') := if Z.pos m * 2 ^ (e - f) =? 2 ^ 24
                                 then (2 ^ 23, f + 1) else (Z.pos m * 2 ^ (e - f), f) in
                 match n with
                 | Z.pos p => if e' <=? 104 then S754_finite s p e' else S754_infinity s
                 | _ => S754_zero s
                 end)).
    { intros mz Hmz.
      assert (Hlog : Z.log2 (Z.pos mz) = Z.log2 (Z.pos m) + (e - f)).
      { rewrite Hmz. rewrite Z.log2_mul_pow2; lia. }
      rewrite binary_round_aux_canonical.
      - assert (Z.pos mz < 2 ^ 24).
        { apply Z.log2_lt_pow2; lia. }
        rewrite <- Hmz. destruct (Z.eqb_spec (Z.pos mz) (2 ^ 24)); [lia|]. done.
      - rewrite fexp32, digits_log2, Hlog. lia. }
    destruct (f - e) as [|k|k] eqn:Ek; try lia.
    + replace f with e in * by lia. apply Hsh. rewrite Z.sub_diag. simpl. lia.
    + apply Hsh. replace (e - f) with (Z.pos k) by lia. apply shifted_left.
  - (* the last [f - e] bits are rounded away *)
    destruct (f - e) as [|k|k] eqn:Ek; try lia.
    unfold binary_round_aux. unfold shr_fexp at 1. simpl Zdigits2.
    rewrite <- Hf. rewrite Ek. unfold shr. simpl shr_record_of_loc.
    rewrite round_nearest_even_spec by lia.
    replace (e + Z.pos k) with f by lia.
    pose proof (nearest_even_bounds (Z.pos m) (Z.pos k) ltac:(lia) ltac:(lia)) as Hn.
    assert (Hq : 0 <= Z.pos m / 2 ^ Z.pos k < 2 ^ 24).
    { split; [apply Z.div_pos; lia|].
      apply Z.div_lt_upper_bound; [lia|].
      rewrite <- Z.pow_add_r by lia.
      eapply Z.lt_le_trans; [apply Hb|].
      apply Z.pow_le_mono_r; lia. }
    rewrite second_shift by lia.
    change (2 ^ 23) with 8388608.
    destruct (Z.eqb_spec (nearest_even (Z.pos m) (Z.pos k)) (2 ^ 24)); cbn [shr_m]; [done|].
    destruct (nearest_even (Z.pos m) (Z.pos k)); try done. lia.
Qed.

End Nearest.

(** * When a rounded result is zero *)

Section Zeros.
Variables prec emax : Z.
Hypothesis Hprec : 0 < prec.

Lemma fexp_from_emin (x : Z) : emin prec emax <= fexp prec emax x.
Proof. unfold fexp. lia. Qed.

Lemma shr_fexp_exponent (m e : Z) (l : location) :
  emin prec emax <= snd (shr_fexp prec emax m e l).
Proof.
  unfold shr_fexp, shr. pose proof (fexp_from_emin (Zdigits2 m + e)).
  destruct (fexp prec emax (Zdigits2 m + e) - e) eqn:E; simpl; lia.
Qed.

Lemma shr_record_of_loc_m (m : Z) (l : location) : shr_m (shr_record_of_loc m l) = m.
Proof. by destruct l as [|[]]. Qed.

Lemma shr_m_iter (k : positive) (mrs : shr_record) :
  0 <= shr_m mrs → shr_m (SpecFloat.iter_pos shr_1 k mrs) = shr_m mrs / 2 ^ Z.pos k.
Proof. destruct mrs as [m r s]. intros Hm. by rewrite shr_iter_spec. Qed.

(** A shift by fewer places than the mantissa has digits leaves
    something. *)
Lemma shr_fexp_positive (m e : Z) (l : location) :
  0 < m → fexp prec emax (Zdigits2 m + e) - e < Zdigits2 m →
  0 < shr_m (fst (shr_fexp prec emax m e l)).
Proof.
  intros Hm Hk. unfold shr_fexp, shr.
  destruct (fexp prec emax (Zdigits2 m + e) - e) as [|k|k] eqn:E; simpl;
    rewrite ?shr_record_of_loc_m; try done.
  rewrite shr_m_iter by (rewrite shr_record_of_loc_m; lia).
  rewrite shr_record_of_loc_m.
  pose proof (Zdigits2_bounds m Hm) as [Hlo _].
  apply Z.div_str_pos. split; [apply Z.pow_pos_nonneg; lia|].
  eapply Z.le_trans; [|exact Hlo]. apply Z.pow_le_mono_r; lia.
Qed.

Lemma shr_fexp_of_zero (e : Z) (l : location) :
  shr_m (fst (shr_fexp prec emax 0 e l)) = 0.
Proof.
  unfold shr_fexp, shr.
  destruct (fexp prec emax (Zdigits2 0 + e) - e) as [|k|k]; simpl;
    rewrite ?shr_record_of_loc_m; try done.
  rewrite shr_m_iter by (by rewrite shr_record_of_loc_m).
  by rewrite shr_record_of_loc_m.
Qed.

Lemma round_nearest_even_from (m : Z) (l : location) : m <= round_nearest_even m l.
Proof. destruct l as [|[]]; simpl; try lia. destruct (Z.even m); lia. Qed.

Lemma Zdigits2_positive (m : Z) : 0 < m → 0 < Zdigits2 m.
Proof. destruct m; simpl; lia. Qed.

(** The result of [binary_round_aux] is a zero exactly when the
    mantissa is zero after the first rounding. *)
Lemma binary_round_aux_is_zero (s : bool) (mx ex : Z) (lx : location) :
  0 <= mx →
  Fmt.is_zero (binary_round_aux prec emax s mx ex lx)
  = (let mrs := fst (shr_fexp prec emax mx ex lx) in
     round_nearest_even (shr_m mrs) (loc_of_shr_record mrs) =? 0).
Proof.
  intros Hm. unfold binary_round_aux.
  pose proof (shr_fexp_exponent mx ex lx) as He.
  pose proof (shr_fexp_nonneg prec emax mx ex lx Hm) as H1.
  destruct (shr_fexp prec emax mx ex lx) as [mrs' e']. simpl in He, H1 |- *.
  set (m2 := round_nearest_even (shr_m mrs') (loc_of_shr_record mrs')).
  assert (H2 : 0 <= m2) by (by apply round_nearest_even_nonneg).
  destruct (Z.eqb_spec m2 0) as [->|Hne].
  - pose proof (shr_fexp_of_zero e' loc_Exact) as H0.
    destruct (shr_fexp prec emax 0 e' loc_Exact) as [mrs'' e'']. simpl in H0.
    by rewrite H0.
  - assert (H3 : 0 < shr_m (fst (shr_fexp prec emax m2 e' loc_Exact))).
    { apply shr_fexp_positive; [lia|].
      pose proof (Zdigits2_positive m2 ltac:(lia)). unfold fexp. lia. }
    destruct (shr_fexp prec emax m2 e' loc_Exact) as [mrs'' e'']. simpl in H3.
    destruct (shr_m mrs'') as [|p|p]; try lia.
    by destruct (_ <=? _).
Qed.

Lemma binary_round_aux_exponent (s : bool) (mx ex : Z) (lx : location) :
  Fmt.exponent_from (emin prec emax) (binary_round_aux prec emax s mx ex lx) = true.
Proof.
  unfold binary_round_aux.
  destruct (shr_fexp prec emax mx ex lx) as [mrs' e'].
  pose proof (shr_fexp_exponent
                (round_nearest_even (shr_m mrs') (loc_of_shr_record mrs')) e' loc_Exact) as He.
  destruct (shr_fexp prec emax _ e' loc_Exact) as [mrs'' e'']. simpl in He.
  destruct (shr_m mrs'') as [|p|p]; try done.
  destruct (_ <=? _); [|done]. simpl. by apply Z.leb_le.
Qed.

(** A number of magnitude [2^emin] or more does not round to zero. *)
Lemma binary_round_aux_nonzero (s : bool) (mx ex : Z) (lx : location) :
  0 < mx → emin prec emax < Zdigits2 mx + ex →
  Fmt.is_zero (binary_round_aux prec emax s mx ex lx) = false.
Proof.
  intros Hm He. rewrite binary_round_aux_is_zero by lia. simpl.
  assert (H1 : 0 < shr_m (fst (shr_fexp prec emax mx ex lx))).
  { apply shr_fexp_positive; [done|]. unfold fexp. lia. }
  pose proof (round_nearest_even_from
                (shr_m (fst (shr_fexp prec emax mx ex lx)))
                (loc_of_shr_record (fst (shr_fexp prec emax mx ex lx)))).
  apply Z.eqb_neq. lia.
Qed.

Lemma shl_align_digits (m : positive) (e e' : Z) :
  Z.pos (digits2_pos (fst (shl_align m e e'))) + snd (shl_align m e e')
  = Z.pos (digits2_pos m) + e.
Proof.
  unfold shl_align. destruct (e' - e) as [|k|k] eqn:E; simpl; try done.
  rewrite digits_shifted. lia.
Qed.

Lemma binary_round_nonzero (s : bool) (m : positive) (e : Z) :
  emin prec emax < Z.pos (digits2_pos m) + e →
  Fmt.is_zero (binary_round prec emax s m e) = false.
Proof.
  intros He. unfold binary_round.
  pose proof (shl_align_digits m e (fexp prec emax (Z.pos (digits2_pos m) + e))) as Hd.
  destruct (shl_align m e _) as [mz ez]. simpl in Hd.
  apply binary_round_aux_nonzero; [done|]. simpl. lia.
Qed.

Lemma binary_round_exponent (s : bool) (m : positive) (e : Z) :
  Fmt.exponent_from (emin prec emax) (binary_round prec emax s m e) = true.
Proof.
  unfold binary_round. destruct (shl_align m e _) as [mz ez].
  apply binary_round_aux_exponent.
Qed.

Lemma binary_normalize_exponent (m e : Z) :
  Fmt.exponent_from (emin prec emax) (binary_normalize prec emax m e false) = true.
Proof. destruct m; simpl; try done; apply binary_round_exponent. Qed.

Lemma SFmul_exponent (x y : spec_float) :
  Fmt.exponent_from (emin prec emax) (SFmul prec emax x y) = true.
Proof.
  destruct x as [sx|sx| |sx mx ex], y as [sy|sy| |sy my ey]; simpl; try done.
  apply binary_round_aux_exponent.
Qed.

Lemma SFadd_exponent (x y : spec_float) :
  Fmt.exponent_from (emin prec emax) x = true →
  Fmt.exponent_from (emin prec emax) y = true →
  Fmt.exponent_from (emin prec emax) (SFadd prec emax x y) = true.
Proof.
  destruct x as [sx|sx| |sx mx ex], y as [sy|sy| |sy my ey]; simpl; try done;
    try (by destruct sx, sy).
  intros _ _. apply binary_normalize_exponent.
Qed.

(** Nothing cancels in a sum of two numbers that are not negative. *)
Lemma SFadd_is_zero (x y : spec_float) :
  Fmt.nonneg x = true → Fmt.nonneg y = true →
  Fmt.exponent_from (emin prec emax) x = true →
  Fmt.exponent_from (emin prec emax) y = true →
  Fmt.is_zero (SFadd prec emax x y) = Fmt.is_zero x && Fmt.is_zero y.
Proof.
  destruct x as [[]|[]| |[] mx ex], y as [[]|[]| |[] my ey]; simpl; try done.
  intros _ _ Hx Hy. apply Z.leb_le in Hx, Hy.
  apply binary_round_nonzero.
  pose proof (Pos2Z.is_pos (digits2_pos (fst (shl_align mx ex (Z.min ex ey))
                                          + fst (shl_align my ey (Z.min ex ey))))).
  lia.
Qed.

Lemma valid_exponent (x : spec_float) :
  valid_binary prec emax x = true → Fmt.exponent_from (emin prec emax) x = true.
Proof.
  destruct x as [s|s| |s m e]; simpl; try done.
  unfold bounded, canonical_mantissa. intros H. apply andb_prop in H as [H _].
  apply Z.eqb_eq in H. apply Z.leb_le. pose proof (fexp_from_emin (Z.pos (digits2_pos m) + e)). lia.
Qed.

Lemma SFeqb_finite (sx sy : bool) (mx my : positive) (ex ey : Z) :
  SFeqb (S754_finite sx mx ex) (S754_finite sy my ey) = true
  ↔ sx = sy ∧ mx = my ∧ ex = ey.
Proof.
  unfold SFeqb. simpl. split.
  - destruct sx, sy; try done;
      destruct (Z.compare_spec ex ey) as [->| |]; try done;
      rewrite Pos.compare_cont_spec; simpl;
      destruct (Pos.compare_spec mx my) as [->| |]; try done.
  - intros (-> & -> & ->). rewrite Z.compare_refl, Pos.compare_cont_refl.
    by destruct sy.
Qed.

Lemma shl_align_down (m : positive) (e e' : Z) :
  e' <= e → snd (shl_align m e e') = e'.
Proof.
  intros He. unfold shl_align. destruct (e' - e) as [|k|k] eqn:E; simpl; lia.
Qed.

Lemma shl_align_same (m : positive) (e : Z) : shl_align m e e = (m, e).
Proof. unfold shl_align. by rewrite Z.sub_diag. Qed.

(** The difference of two numbers of the format is a zero exactly when
    they are equal. *)
Lemma SFsub_is_zero (x y : spec_float) :
  valid_binary prec emax x = true → valid_binary prec emax y = true →
  Fmt.is_finite x = true → Fmt.is_finite y = true →
  Fmt.is_zero (SFsub prec emax x y) = SFeqb x y.
Proof.
  destruct x as [sx|sx| |sx mx ex], y as [sy|sy| |sy my ey]; simpl; try done;
    try (by destruct sx, sy); try (by destruct sx); try (by destruct sy).
  intros Hx Hy _ _.
  pose proof (valid_exponent (S754_finite sx mx ex) Hx) as Hex.
  pose proof (valid_exponent (S754_finite sy my ey) Hy) as Hey.
  simpl in Hex, Hey. apply Z.leb_le in Hex, Hey.
  unfold bounded, canonical_mantissa in Hx, Hy.
  apply andb_prop in Hx as [Hx _]. apply andb_prop in Hy as [Hy _].
  apply Z.eqb_eq in Hx, Hy.
  set (ez := Z.min ex ey).
  pose proof (shl_align_digits mx ex ez) as Hdx.
  pose proof (shl_align_digits my ey ez) as Hdy.
  rewrite shl_align_down in Hdx, Hdy by lia.
  set (ax := fst (shl_align mx ex ez)) in *.
  set (ay := fst (shl_align my ey ez)) in *.
  destruct (SFeqb (S754_finite sx mx ex) (S754_finite sy my ey)) eqn:Heq.
  - apply SFeqb_finite in Heq as (-> & -> & ->).
    unfold ax, ay. by rewrite Z.sub_diag.
  - destruct (cond_Zopp sx (Z.pos ax) - cond_Zopp sy (Z.pos ay)) as [|p|p] eqn:E; simpl.
    + exfalso.
      assert (sx = sy ∧ ax = ay) as [-> Ha] by (destruct sx, sy; simpl in E; split; (done || lia)).
      assert (ex = ey) as -> by (rewrite Ha in Hdx; congruence).
      unfold ax, ay, ez in Ha. rewrite Z.min_id, !shl_align_same in Ha. simpl in Ha. subst my.
      assert (SFeqb (S754_finite sy mx ey) (S754_finite sy mx ey) = true)
        by (by apply SFeqb_finite).
      congruence.
    + apply binary_round_nonzero. pose proof (Pos2Z.is_pos (digits2_pos p)). lia.
    + apply binary_round_nonzero. pose proof (Pos2Z.is_pos (digits2_pos p)). lia.
Qed.

End Zeros.

(** * euclidean_distance: when it is zero *)

Section DistanceZero.

Lemma nearest_even_zero (m k : Z) :
  0 <= m → 0 < k → (nearest_even m k =? 0) = (2 * m <=? 2 ^ k).
Proof.
  intros Hm Hk. unfold nearest_even.
  assert (Hp : 0 < 2 ^ k) by (apply Z.pow_pos_nonneg; lia).
  pose proof (Z.div_mod m (2 ^ k) ltac:(lia)) as Hdm.
  pose proof (Z.mod_pos_bound m (2 ^ k) Hp) as Hr.
  assert (Hq : 0 <= m / 2 ^ k) by (apply Z.div_pos; lia).
  destruct (Z.leb_spec (2 * m) (2 ^ k)) as [Hle|Hgt].
  - assert (Hq0 : m / 2 ^ k = 0) by (apply Z.div_small; lia).
    rewrite Hq0 in *. rewrite Z.mod_small by lia.
    destruct (Z.compare_spec (2 * m) (2 ^ k)); try done. lia.
  - apply Z.eqb_neq.
    destruct (Z.compare_spec (2 * (m mod 2 ^ k)) (2 ^ k)) as [He|Hl|Hg].
    + destruct (Z.even (m / 2 ^ k)) eqn:Hev; [|lia].
      intros Hq0. rewrite Hq0 in Hdm. lia.
    + intros Hq0. rewrite Hq0 in Hdm. lia.
    + lia.
Qed.

(** The square of a float32 number is a zero exactly when its magnitude
    is at most [2^-75]: the exact square is then at most [2^-150], half
    of the least positive float32 number, and rounds to zero. *)
Lemma square_is_zero (d : float32) :
  Fmt.is_zero (F32.mul d d) = Fmt.at_most_pow2 (-75) d.
Proof.
  destruct d as [s|s| |s m e]; try done; try (by destruct s).
  unfold F32.mul, SFmul, F32.prec, F32.emax.
  rewrite binary_round_aux_is_zero by done.
  cbv zeta. unfold shr_fexp, shr. rewrite fexp32.
  set (M := Z.pos (m * m)).
  assert (HM : M = Z.pos m * Z.pos m) by (unfold M; lia).
  pose proof (Zdigits2_bounds M eq_refl) as [Hlo Hhi].
  pose proof (Zdigits2_positive M eq_refl) as Hd.
  set (D := Zdigits2 M) in *.
  unfold Fmt.at_most_pow2.
  destruct (Z.max (D + (e + e) - 24) (-149) - (e + e)) as [|k|k] eqn:Ek.
  - simpl. destruct (Z.leb_spec e (-75)); [lia|done].
  - cbn [fst shr_record_of_loc]. rewrite round_nearest_even_spec by done.
    rewrite nearest_even_zero by lia.
    destruct (Z.leb_spec e (-75)) as [He|He]; simpl.
    + destruct (Z.leb_spec (Z.pos m) (2 ^ (-75 - e))) as [Hle|Hgt].
      * apply Z.leb_le.
        assert (M <= 2 ^ (-75 - e) * 2 ^ (-75 - e)) by (rewrite HM; nia).
        rewrite <- Z.pow_add_r in H by lia.
        assert (2 ^ (-75 - e + (-75 - e) + 1) <= 2 ^ Z.pos k)
          by (apply Z.pow_le_mono_r; lia).
        rewrite Z.pow_add_r in H0 by lia. lia.
      * apply Z.leb_gt.
        assert (Hk : Z.pos k = -149 - (e + e) ∨ Z.pos k = D - 24) by lia.
        destruct Hk as [Hk|Hk].
        -- rewrite Hk.
           assert (2 ^ (-75 - e) * 2 ^ (-75 - e) < M).
           { rewrite HM. assert (0 < 2 ^ (-75 - e)) by (apply Z.pow_pos_nonneg; lia). nia. }
           rewrite <- Z.pow_add_r in H by lia.
           replace (-149 - (e + e)) with (-75 - e + (-75 - e) + 1) by lia.
           rewrite Z.pow_add_r by lia. lia.
        -- rewrite Hk.
           assert (2 ^ (D - 24) <= 2 ^ (D - 1)) by (apply Z.pow_le_mono_r; lia).
           lia.
    + apply Z.leb_gt.
      assert (Hk : Z.pos k = D - 24) by lia.
      rewrite Hk.
      assert (2 ^ (D - 24) <= 2 ^ (D - 1)) by (apply Z.pow_le_mono_r; lia).
      lia.
  - simpl. destruct (Z.leb_spec e (-75)); [lia|done].
Qed.

(** The square root of a positive float32 number is not zero. *)
Lemma sqrt_is_zero (x : float32) :
  Fmt.nonneg x = true → Fmt.exponent_from (-149) x = true →
  Fmt.is_zero (F32.sqrt x) = Fmt.is_zero x.
Proof.
  destruct x as [[]|[]| |[] m e]; simpl; try done. intros _ He.
  apply Z.leb_le in He.
  unfold F32.prec, F32.emax, SFsqrt_core_binary.
  set (e' := Z.min _ (Z.div2 e)).
  assert (He' : -149 <= e' ∧ 2 * e' <= e).
  { unfold e'. rewrite fexp32, !Z.div2_div.
    pose proof (Z.div_mod e 2 ltac:(lia)). pose proof (Z.mod_pos_bound e 2 ltac:(lia)).
    lia. }
  set (m' := match e - 2 * e' with 0 => Z.pos m | Z.pos _ => _ | Z.neg _ => 0 end).
  assert (Hm' : 0 < m').
  { unfold m'. destruct (e - 2 * e') as [|p|p] eqn:E; try lia.
    rewrite Z.shiftl_mul_pow2 by lia.
    apply Z.mul_pos_pos; [lia|]. apply Z.pow_pos_nonneg; lia. }
  pose proof (Z.sqrtrem_sqrt m') as Hq.
  assert (Hs : 0 < Z.sqrt m') by (by apply Z.sqrt_pos).
  destruct (Z.sqrtrem m') as [q r]. simpl in Hq. subst q.
  apply binary_round_aux_nonzero; try done.
  pose proof (Zdigits2_positive _ Hs). unfold emin. lia.
Qed.

Lemma sqrt_exponent (x : float32) :
  Fmt.exponent_from (-149) x = true → Fmt.exponent_from (-149) (F32.sqrt x) = true.
Proof.
  destruct x as [[]|[]| |[] m e]; simpl; try done. intros _.
  destruct (SFsqrt_core_binary _ _ _ _) as [[mz ez] lz].
  apply (binary_round_aux_exponent 24 128).
Qed.

(** A float32 number seen as a double is zero only if it is. *)
Lemma widen_is_zero (y : float32) :
  Fmt.exponent_from (-149) y = true → Fmt.is_zero (F64.of_f32 y) = Fmt.is_zero y.
Proof.
  destruct y as [s|s| |s m e]; simpl; try done. intros He. apply Z.leb_le in He.
  apply binary_round_nonzero; [done|].
  pose proof (Pos2Z.is_pos (digits2_pos m)). unfold emin, F64.prec, F64.emax. lia.
Qed.

Lemma eqb_zero_is_zero (x : spec_float) : SFeqb x (S754_zero false) = Fmt.is_zero x.
Proof. by destruct x as [[]|[]| |[] m e]. Qed.

Lemma squares_is_zero (d : list float32) (acc : float32) :
  Forall (fun u => Fmt.is_nan u = false) d →
  Fmt.nonneg acc = true → Fmt.exponent_from (-149) acc = true →
  Fmt.nonneg (fold_left np.accumulate (combine d d) acc) = true
  ∧ Fmt.exponent_from (-149) (fold_left np.accumulate (combine d d) acc) = true
  ∧ Fmt.is_zero (fold_left np.accumulate (combine d d) acc)
    = Fmt.is_zero acc && forallb (fun u => Fmt.is_zero (F32.mul u u)) d.
Proof.
  intros H. revert acc.
  induction H as [|u d Hu _ IH]; intros acc Hn He; cbn [combine fold_left forallb].
  - by rewrite andb_true_r.
  - assert (Hn' : Fmt.nonneg (np.accumulate acc (u, u)) = true).
    { apply SFadd_nonneg; [done|]. by apply SFmul_self_nonneg. }
    assert (He' : Fmt.exponent_from (-149) (np.accumulate acc (u, u)) = true).
    { apply (SFadd_exponent 24 128); [done|]. apply (SFmul_exponent 24 128). }
    destruct (IH _ Hn' He') as (H1 & H2 & Hz).
    split; [done|]. split; [done|].
    etransitivity; [exact Hz|].
    unfold np.accumulate at 1. cbn [fst snd]. unfold F32.add, F32.prec, F32.emax.
    rewrite (SFadd_is_zero 24 128); try done.
    + by rewrite andb_assoc.
    + by apply SFmul_self_nonneg.
    + apply (SFmul_exponent 24 128).
Qed.

(** The float32 norm is zero exactly when every square is. *)
Lemma norm_is_zero (d : list float32) :
  Forall (fun u => Fmt.is_nan u = false) d →
  Fmt.is_zero (F64.of_f32 (np.linalg_norm d))
  = forallb (fun u => Fmt.at_most_pow2 (-75) u) d.
Proof.
  intros H. unfold np.linalg_norm, np.sum_of_products.
  destruct (squares_is_zero d F32.zero H eq_refl eq_refl) as (Hn & He & Hz).
  rewrite widen_is_zero by (by apply sqrt_exponent).
  rewrite sqrt_is_zero by done. rewrite Hz. simpl.
  clear. induction d as [|u d IH]; simpl; [done|].
  by rewrite square_is_zero, IH.
Qed.

Lemma differences_not_nan (a b : list float32) :
  Forall (fun x => Fmt.is_finite x = true) a →
  Forall (fun y => Fmt.is_finite y = true) b →
  Forall (fun u => Fmt.is_nan u = false)
    (map (fun xy => F32.sub (fst xy) (snd xy)) (combine a b)).
Proof.
  intros Ha. revert b. induction Ha as [|x a Hx _ IH]; intros b Hb; simpl; [done|].
  destruct Hb as [|y b Hy Hb]; simpl; [done|].
  constructor; [|by apply IH]. by apply SFsub_finite_not_nan.
Qed.

Lemma forallb_differences (P : float32 → bool) (a b : list float32) :
  length a = length b →
  forallb P (map (fun xy => F32.sub (fst xy) (snd xy)) (combine a b)) = true
  ↔ Forall2 (fun x y => P (F32.sub x y) = true) a b.
Proof.
  revert b. induction a as [|x a IH]; intros [|y b] Hlen; simpl in *; try done.
  rewrite andb_true_iff, IH by lia. split.
  - intros [H1 H2]. by constructor.
  - intros H. inversion H; subst. done.
Qed.

Lemma close_pairs_equal (a b : list float32) :
  Forall2 (fun x y => F32.eqb x y = true
                      ∨ Fmt.at_most_pow2 (-75) (F32.sub x y) = false) a b →
  Forall2 (fun x y => Fmt.at_most_pow2 (-75) (F32.sub x y) = true) a b →
  Forall2 (fun x y => F32.eqb x y = true) a b.
Proof.
  induction 1 as [|x y a b Hxy _ IH]; intros Hclose; [constructor|].
  inversion Hclose; subst. constructor; [|by apply IH].
  destruct Hxy as [Hxy|Hxy]; [done|congruence].
Qed.

Lemma equal_pairs_close (a b : list float32) :
  Forall (fun x => Fmt.is_finite x = true) a →
  Forall2 (fun x y => F32.eqb x y = true) a b →
  Forall2 (fun x y => Fmt.at_most_pow2 (-75) (F32.sub x y) = true) a b.
Proof.
  intros Hfa Heq. induction Heq as [|x y a b Hxy _ IH]; [constructor|].
  inversion Hfa; subst. constructor; [|by apply IH].
  rewrite <- square_is_zero. unfold F32.mul, F32.sub.
  by rewrite (SFsub_equal_square F32.prec F32.emax x y).
Qed.

Lemma differences_zero_equal (a b : list float32) :
  length a = length b →
  Forall (fun x => Fmt.is_finite x = true) a →
  Forall (fun y => Fmt.is_finite y = true) b →
  Forall (fun x => F32.valid x = true) a →
  Forall (fun y => F32.valid y = true) b →
  Forall2 (fun x y => Fmt.is_zero (F32.sub x y) = F32.eqb x y) a b.
Proof.
  revert b. induction a as [|x a IH]; intros [|y b] Hlen Hfa Hfb Hva Hvb;
    simpl in Hlen; try done.
  inversion Hfa; subst. inversion Hfb; subst.
  inversion Hva; subst. inversion Hvb; subst.
  constructor; [|apply IH; (done || lia)].
  by apply (SFsub_is_zero 24 128).
Qed.

End DistanceZero.

(** * The float32 rounding is a binary32 number, the nearest *)

Section NearestFacts.

(** [nearest_even m k * 2^k] is as near to [m] as any multiple of
    [2^k]. *)
Lemma nearest_even_is_nearest (m k j : Z) :
  0 <= m → 0 < k →
  Z.abs (m - nearest_even m k * 2 ^ k) <= Z.abs (m - j * 2 ^ k).
Proof.
  intros Hm Hk. unfold nearest_even.
  assert (Hp : 0 < 2 ^ k) by (apply Z.pow_pos_nonneg; lia).
  pose proof (Z.div_mod m (2 ^ k) ltac:(lia)) as Hdm.
  pose proof (Z.mod_pos_bound m (2 ^ k) Hp) as Hr.
  set (q := m / 2 ^ k) in *. set (r := m mod 2 ^ k) in *. set (P := 2 ^ k) in *.
  assert (Hj : j <= q ∨ q + 1 <= j) by lia.
  destruct (Z.compare_spec (2 * r) P) as [He|Hl|Hg]; [destruct (Z.even q)| |];
    destruct Hj; nia.
Qed.

(** Of two multiples equally near, the even one is taken. *)
Lemma nearest_even_tie (m k : Z) :
  2 * (m mod 2 ^ k) = 2 ^ k → Z.even (nearest_even m k) = true.
Proof.
  intros H. unfold nearest_even. rewrite H, Z.compare_refl.
  destruct (Z.even (m / 2 ^ k)) eqn:E; [done|].
  rewrite Z.even_add, E. done.
Qed.

Lemma bounded32 (p : positive) (e : Z) :
  bounded 24 128 p e = true
  ↔ Z.max (Z.log2 (Z.pos p) + e - 23) (-149) = e ∧ e <= 104.
Proof.
  unfold bounded, canonical_mantissa. rewrite andb_true_iff, fexp32, digits_log2.
  rewrite Z.eqb_eq, Z.leb_le.
  replace (Z.log2 (Z.pos p) + 1 + e - 24) with (Z.log2 (Z.pos p) + e - 23) by lia.
  done.
Qed.

Lemma binary32_nearest_valid (x : float64) : F32.valid (binary32_nearest x) = true.
Proof.
  destruct x as [s|s| |s m e]; try done.
  unfold binary32_nearest.
  set (f := Z.max (Z.log2 (Z.pos m) + e - 23) (-149)).
  pose proof (Z.log2_nonneg (Z.pos m)) as Hl.
  pose proof (Z.log2_spec (Z.pos m) eq_refl) as [Hlo Hhi].
  destruct (Z.leb_spec f e) as [Hle|Hgt].
  - (* exact *)
    set (n := Z.pos m * 2 ^ (e - f)).
    assert (Hn : 0 < n) by (apply Z.mul_pos_pos; [lia|apply Z.pow_pos_nonneg; lia]).
    assert (Hlog : Z.log2 n = Z.log2 (Z.pos m) + (e - f)).
    { unfold n. rewrite Z.log2_mul_pow2; lia. }
    assert (Hlt : n < 2 ^ 24) by (apply Z.log2_lt_pow2; lia).
    destruct (Z.eqb_spec n (2 ^ 24)); [lia|].
    destruct n as [|p|p]; try lia.
    destruct (Z.leb_spec f 104); [|done].
    apply bounded32. lia.
  - (* rounded *)
    set (k := f - e).
    pose proof (nearest_even_bounds (Z.pos m) k ltac:(lia) ltac:(lia)) as Hn.
    assert (Hq : 0 <= Z.pos m / 2 ^ k < 2 ^ 24).
    { split; [apply Z.div_pos; lia|].
      apply Z.div_lt_upper_bound; [lia|].
      rewrite <- Z.pow_add_r by lia.
      eapply Z.lt_le_trans; [apply Hhi|].
      apply Z.pow_le_mono_r; lia. }
    destruct (Z.eqb_spec (nearest_even (Z.pos m) k) (2 ^ 24)) as [|Hne].
    + change (2 ^ 23) with 8388608.
      destruct (Z.leb_spec (f + 1) 104); [|done].
      apply bounded32. change (Z.log2 8388608) with 23. lia.
    + destruct (nearest_even (Z.pos m) k) as [|p|p] eqn:En; try done.
      destruct (Z.leb_spec f 104); [|done].
      apply bounded32. split; [|done].
      assert (Hp : Z.log2 (Z.pos p) < 24) by (apply Z.log2_lt_pow2; lia).
      destruct (Z.eq_dec f (-149)) as [Hf|Hf]; [lia|].
      assert (Hk : k = Z.log2 (Z.pos m) - 23) by lia.
      assert (2 ^ 23 <= Z.pos m / 2 ^ k).
      { apply Z.div_le_lower_bound; [lia|].
        rewrite <- Z.pow_add_r by lia.
        replace (k + 23) with (Z.log2 (Z.pos m)) by lia. done. }
      assert (23 <= Z.log2 (Z.pos p)) by (apply Z.log2_le_pow2; lia).
      lia.
Qed.

(** A binary32 number seen as a double is the same number: the
    mantissa is shifted to the left and nothing is rounded. *)
Lemma widen_exact (y : float32) :
  F32.valid y = true → Fmt.same_number (F64.of_f32 y) y = true.
Proof.
  destruct y as [s|s| |s m e]; try done; try (by destruct s).
  intros Hb. unfold F32.valid, valid_binary, bounded, canonical_mantissa in Hb.
  apply andb_prop in Hb as [Hc He].
  apply Z.eqb_eq in Hc. apply Z.leb_le in He.
  unfold F64.of_f32, Fmt.round, F64.prec, F64.emax, binary_round, shl_align.
  set (d := digits2_pos m) in *.
  assert (Hlt : fexp 53 1024 (Z.pos d + e) < e).
  { unfold fexp, emin, F32.prec, F32.emax in *. lia. }
  destruct (fexp 53 1024 (Z.pos d + e) - e) as [|k|k] eqn:Hk; try lia.
  assert (He' : fexp 53 1024 (Z.pos d + e) = e - Z.pos k) by lia.
  rewrite He'.
  rewrite (binary_round_aux_exact 53 1024 s (Pos.iter xO m k) (e - Z.pos k)).
  - simpl. rewrite eqb_reflx. simpl. apply Z.eqb_eq.
    rewrite Z.min_l by lia. rewrite Z.sub_diag, shifted_left.
    replace (e - (e - Z.pos k)) with (Z.pos k) by lia. simpl. lia.
  - rewrite digits_shifted.
    replace (Z.pos (digits2_pos m + k) + (e - Z.pos k)) with (Z.pos d + e) by (unfold d; lia).
    done.
  - unfold F32.prec, F32.emax in He. lia.
Qed.

Lemma float32_rounding_twice (x : float64) :
  float32_rounding (float32_rounding x) = float32_rounding x.
Proof.
  unfold float32_rounding. rewrite narrow_widen_valid; [done|].
  rewrite of_f64_nearest. apply binary32_nearest_valid.
Qed.

End NearestFacts.

(** * What is put on the network *)

Section Transmitted.
Context `{R : Requests}.
Variable self : VectisClient.t.

Lemma encodable_floats (l : list float64) :
  forallb encodable (map JFloat l) = forallb Fmt.is_finite l.
Proof. induction l as [|x l IH]; simpl; [done|]. by rewrite IH. Qed.

Lemma forallb_finite (l : list float64) :
  forallb Fmt.is_finite l = true ↔ Forall (fun y => Fmt.is_finite y = true) l.
Proof.
  induction l as [|x l IH]; simpl.
  - split; [constructor|done].
  - rewrite andb_true_iff, IH. split.
    + intros [H1 H2]. by constructor.
    + intros H. by inversion H.
Qed.

Lemma put_vector_transmits key vector (h : ndheap) (w : world) :
  let body := kw_json (JObj [("key", JStr key);
                             ("vector", JArr (map JFloat (map float32_rounding vector)))]) in
  let r := VectisClient.put_vector (on_the_wire self) key vector (h, (w, [])) in
  if forallb Fmt.is_finite (map float32_rounding vector)
  then transmitted r = [sent self "POST" "/api/vector/put" body]
  else transmitted r = []
       ∧ fst r = inl (VectisConnectionError ("Request failed: " +:+ not_JSON_compliant)).
Proof.
  unfold transmitted, VectisClient.put_vector, VectisClient.on_heap, VectisClient._request,
    VectisClient.on_world, Vector.__init__, Vector.to_list, bind, alloc, load, ret, raise.
  simpl. rewrite lookup_insert_eq. simpl. rewrite tolist_array, encodable_floats.
  destruct (forallb Fmt.is_finite (map float32_rounding vector)); simpl; [|done].
  destruct (Session_request _ _ w) as [[msg|response] w']; simpl; [done|].
  by destruct (negb _).
Qed.

Lemma search_similar_transmits query k (h : ndheap) (w : world) :
  let body := kw_json (JObj [("query", JArr (map JFloat (map float32_rounding query)));
                             ("k", JInt k)]) in
  let r := VectisClient.search_similar (on_the_wire self) query k (h, (w, [])) in
  if forallb Fmt.is_finite (map float32_rounding query)
  then transmitted r = [sent self "POST" "/api/vector/search" body]
  else transmitted r = []
       ∧ fst r = inl (VectisConnectionError ("Request failed: " +:+ not_JSON_compliant)).
Proof.
  unfold transmitted, VectisClient.search_similar, VectisClient.on_heap,
    VectisClient._request, VectisClient.on_world, Vector.__init__, Vector.to_list,
    bind, alloc, load, ret, raise.
  simpl. rewrite lookup_insert_eq. simpl. rewrite tolist_array, encodable_floats.
  destruct (forallb Fmt.is_finite (map float32_rounding query)); simpl; [|done].
  destruct (Session_request _ _ w) as [[msg|response] w']; simpl; [done|].
  destruct (negb _); [done|].
  unfold VectisClient.json_of, lift, ret, raise.
  repeat (case_match; simplify_eq; simpl; try done).
Qed.
End Transmitted.

(** * Indexed access: valid positions and the failures *)

(** C9, as the claim states it, fails twice.  An index that does not
    fit NumPy's 64-bit index type is refused with [OverflowError], not
    with an index-out-of-range condition: so at [2^63], for reading and
    for writing.  And an index below zero is out of [0 .. n-1] and yet
    returns a value: [v[-1]] is the last component. *)
Lemma index_beyond_machine_range :
  let a := [F32.of_bits 1 0; F32.of_bits 2 0; F32.of_bits 3 0] in
  let h : ndheap := {[1%positive := a]} in
  let v := {| Vector.data := 1%positive |} in
  Vector.__getitem__ v (2 ^ 63) h = (inl OverflowError, h)
  ∧ Vector.__setitem__ v (2 ^ 63) (F64.of_bits 1 (-1)) h = (inl OverflowError, h)
  ∧ Vector.__getitem__ v (-1) h = (inr (F32.of_bits 3 0), h).
Proof. vm_compute. repeat split; reflexivity. Qed.

(** C9, amended: for a vector of [n] components and an integer index
    [i], the valid positions are [-n <= i < n], a negative index
    counting from the end.  At a valid position reading returns the
    component and writing replaces it by the float32 rounding of the
    value, the dimension unchanged.  At any other index both fail and
    the vector is left as it was, neither read nor extended: with
    [IndexError] when the index fits a signed 64-bit integer, and with
    [IndexError] or [OverflowError] when it does not. *)
Theorem indexed_access (self : Vector.t) (a : list float32) (i : Z)
  (value : float64) (h : ndheap) :
  h !! Vector.data self = Some a →
  let n := Z.of_nat (length a) in
  let p := Z.to_nat (i mod n) in
  (- n <= i < n →
     (∃ x, a !! p = Some x ∧ Vector.__getitem__ self i h = (inr x, h))
     ∧ Vector.__setitem__ self i value h
       = (inr tt, <[Vector.data self := <[p := F32.of_f64 value]> a]> h)
     ∧ <[p := F32.of_f64 value]> a !! p = Some (F32.of_f64 value)
     ∧ length (<[p := F32.of_f64 value]> a) = length a)
  ∧ (¬ (- n <= i < n) → - 2 ^ 63 <= i < 2 ^ 63 →
     Vector.__getitem__ self i h = (inl IndexError, h)
     ∧ Vector.__setitem__ self i value h = (inl IndexError, h))
  ∧ (¬ (- n <= i < n) →
     ∃ e, (e = IndexError ∨ e = OverflowError)
          ∧ Vector.__getitem__ self i h = (inl e, h)
          ∧ Vector.__setitem__ self i value h = (inl e, h)).
Proof.
  intros Ha n p. unfold Vector.__getitem__, Vector.__setitem__, bind.
  rewrite (load_some _ _ _ Ha). split; [|split].
  - intros Hi. destruct (index_in_range (length a) i Hi) as [-> Hlt].
    fold n p in Hlt |- *. destruct (lookup_lt_is_Some_2 a p Hlt) as [x Hx].
    rewrite Hx. repeat split; eauto.
    + by apply list_lookup_insert_eq.
    + by rewrite length_insert.
  - intros Hi Hfit. rewrite (index_out_of_range _ _ Hi).
    destruct (Z.leb_spec (- 2 ^ 63) i), (Z.ltb_spec i (2 ^ 63)); try lia. done.
  - intros Hi. rewrite (index_out_of_range _ _ Hi).
    destruct (_ && _); eexists; (split; [|done]); [by left|by right].
Qed.

Lemma indexed_access_witness :
  let a := [F32.of_bits 1 0; F32.of_bits 2 0; F32.of_bits 3 0] in
  let h : ndheap := {[1%positive := a]} in
  let v := {| Vector.data := 1%positive |} in
  Vector.__getitem__ v (-1) h = (inr (F32.of_bits 3 0), h)
  ∧ Vector.__getitem__ v 3 h = (inl IndexError, h)
  ∧ Vector.__setitem__ v 3 (F64.of_bits 1 (-1)) h = (inl IndexError, h).
Proof.
  intros a h v.
  pose proof (indexed_access v a (-1) (F64.of_bits 1 (-1)) h eq_refl) as [Hin _].
  pose proof (indexed_access v a 3 (F64.of_bits 1 (-1)) h eq_refl) as (_ & Hout & _).
  split.
  - destruct Hin as [[x [Hx Hget]] _]; [simpl; lia|].
    rewrite Hget. vm_compute in Hx. by inversion Hx.
  - apply Hout; simpl; lia.
Defined.

(** * euclidean_distance: symmetry, sign, and zero *)

(** C7, as the claim states it, fails: the vectors [[2^-80]] and
    [[0.0]] differ in their one component, and their distance is
    [0.0], because the square of the difference underflows float32.
    (In the other direction the claim needs finite components: the
    distance of [[inf]] to itself is NaN.) *)
Lemma euclidean_distance_zero_for_unequal :
  let h : ndheap := {[1%positive := [F32.of_bits 1 (-80)];
                      2%positive := [F32.zero];
                      3%positive := [S754_infinity false]]} in
  fst (Vector.euclidean_distance {| Vector.data := 1%positive |}
         {| Vector.data := 2%positive |} h) = inr (S754_zero false)
  ∧ F32.valid (F32.of_bits 1 (-80)) = true
  ∧ F32.eqb (F32.of_bits 1 (-80)) F32.zero = false
  ∧ fst (Vector.euclidean_distance {| Vector.data := 3%positive |}
           {| Vector.data := 3%positive |} h) = inr S754_nan.
Proof. vm_compute. repeat split; reflexivity. Qed.

(** C7, amended: for vectors of equal dimension the distance from [v]
    to [w] and the distance from [w] to [v] are the same float.  When
    all components are finite it is no NaN, [0.0 <= d] holds, and it
    is zero exactly when every pair of components is so close that the
    square of their difference underflows to zero, which is when the
    float32 difference [v_i - w_i] is at most [2^-75] in magnitude;
    that difference is zero exactly for equal components.  So, when no
    two unequal components are that close, the distance is zero if and
    only if the vectors are componentwise equal; and for equal finite
    vectors it is [+0.0]. *)
Theorem euclidean_distance_symmetric_nonneg (self other : Vector.t)
  (a b : list float32) (h : ndheap) :
  h !! Vector.data self = Some a →
  h !! Vector.data other = Some b →
  length a = length b →
  ∃ d : float64,
    Vector.euclidean_distance self other h = (inr d, h)
    ∧ Vector.euclidean_distance other self h = (inr d, h)
    ∧ (Forall (fun x => Fmt.is_finite x = true) a →
       Forall (fun y => Fmt.is_finite y = true) b →
       Fmt.is_nan d = false
       ∧ F64.leb F64.zero d = true
       ∧ (F64.eqb d F64.zero = true
          ↔ Forall2 (fun x y => Fmt.at_most_pow2 (-75) (F32.sub x y) = true) a b)
       ∧ (Forall2 (fun x y => F32.eqb x y = true
                              ∨ Fmt.at_most_pow2 (-75) (F32.sub x y) = false) a b →
          (F64.eqb d F64.zero = true ↔ Forall2 (fun x y => F32.eqb x y = true) a b))
       ∧ (Forall (fun x => F32.valid x = true) a →
          Forall (fun y => F32.valid y = true) b →
          Forall2 (fun x y => Fmt.is_zero (F32.sub x y) = F32.eqb x y) a b))
    ∧ (Forall2 (fun x y => Fmt.is_finite x = true ∧ F32.eqb x y = true) a b →
       d = S754_zero false).
Proof.
  intros Ha Hb Hlen.
  rewrite (euclidean_distance_same_length self other a b h),
    (euclidean_distance_same_length other self b a h) by done.
  eexists. split; [reflexivity|].
  split; [by rewrite (norm_swap b a)|]. split.
  - intros Hfa Hfb.
    pose proof (round_nonneg F64.prec F64.emax _ (norm_nonneg a b Hfa Hfb)) as Hn.
    assert (Hzero : F64.eqb (F64.of_f32 (np.linalg_norm
                      (map (fun xy => F32.sub (fst xy) (snd xy)) (combine a b)))) F64.zero
                    = true
                    ↔ Forall2 (fun x y => Fmt.at_most_pow2 (-75) (F32.sub x y) = true) a b).
    { unfold F64.eqb, F64.zero. rewrite eqb_zero_is_zero.
      rewrite norm_is_zero by (by apply differences_not_nan).
      by apply forallb_differences. }
    split; [|split; [|split; [|split]]].
    + unfold F64.of_f32. by destruct (Fmt.round _ _ _).
    + by apply nonneg_leb_zero.
    + done.
    + intros Hfar. rewrite Hzero. split.
      * by apply close_pairs_equal.
      * by apply equal_pairs_close.
    + intros Hva Hvb. by apply differences_zero_equal.
  - intros Heq. by rewrite (norm_equal _ _ Heq).
Qed.

Lemma euclidean_distance_symmetric_nonneg_witness :
  let a := [F32.of_bits 3 0; F32.of_bits 4 0] in
  let b := [F32.of_bits 0 0; F32.of_bits 0 0] in
  let h : ndheap := {[1%positive := a; 2%positive := b]} in
  ∃ d : float64,
    Vector.euclidean_distance {| Vector.data := 1%positive |}
      {| Vector.data := 2%positive |} h = (inr d, h)
    ∧ Vector.euclidean_distance {| Vector.data := 2%positive |}
        {| Vector.data := 1%positive |} h = (inr d, h)
    ∧ Fmt.is_nan d = false ∧ F64.leb F64.zero d = true
    ∧ (F64.eqb d F64.zero = true ↔ Forall2 (fun x y => F32.eqb x y = true) a b).
Proof.
  intros a b h.
  destruct (euclidean_distance_symmetric_nonneg {| Vector.data := 1%positive |}
              {| Vector.data := 2%positive |} a b h eq_refl eq_refl eq_refl)
    as (d & H1 & H2 & Hfin & _).
  exists d. split; [exact H1|]. split; [exact H2|].
  destruct Hfin as (Hnan & Hpos & _ & Hiff & _); [repeat constructor..|].
  split; [exact Hnan|]. split; [exact Hpos|].
  apply Hiff. repeat constructor; right; reflexivity.
Defined.

(** * Vectors on the wire: what is handed over and what is sent *)

(** C10, as the claim states it, fails: the float32 rounding of
    [1e40] is [+inf], which the session refuses to encode as JSON, so
    that [put_vector] and [search_similar] transmit nothing at all and
    raise [VectisConnectionError]. *)
Lemma nothing_sent_for_infinity :
  let vector := [F64.of_Z (10 ^ 40)] in
  let s : ndheap * (Remote.t * list Request) :=
    (∅, ({| Remote.kv := ∅; Remote.vectors := ∅; Remote.idle := 0 |}, [])) in
  let put := VectisClient.put_vector (on_the_wire Remote.client) "v" vector s in
  let search := VectisClient.search_similar (on_the_wire Remote.client) vector 3 s in
  map float32_rounding vector = [S754_infinity false]
  ∧ transmitted put = []
  ∧ fst put = inl (VectisConnectionError
                     "Request failed: Out of range float values are not JSON compliant")
  ∧ transmitted search = []
  ∧ fst search = inl (VectisConnectionError
                        "Request failed: Out of range float values are not JSON compliant").
Proof. vm_compute. repeat split; reflexivity. Qed.

(** C10, amended: the constructor stores every component as its
    float32 rounding: the binary32 number nearest to it, the even one
    of two equally near, an infinity beyond the range; rounding again
    changes nothing.  The list a [Vector] gives back holds these
    roundings as doubles of the same value, and [put_vector] and
    [search_similar] hand them to the session as the JSON body.  When
    every rounding is finite the
    session transmits that body, so that the components on the network
    are the float32 roundings of the caller's, which can differ from
    the doubles given (as for 0.1).  When a rounding is an infinity or
    a NaN the session refuses the body: nothing is transmitted and
    [VectisConnectionError] is raised. *)
Theorem vectors_sent_in_float32 `{R : Requests} (self : VectisClient.t)
  (key : string) (vector : list float64) (k : Z) (h : ndheap) (w : world) :
  let rounded := map float32_rounding vector in
  let body := kw_json (JObj [("key", JStr key); ("vector", JArr (map JFloat rounded))]) in
  let query := kw_json (JObj [("query", JArr (map JFloat rounded)); ("k", JInt k)]) in
  let put := VectisClient.put_vector (on_the_wire self) key vector (h, (w, [])) in
  let search := VectisClient.search_similar (on_the_wire self) vector k (h, (w, [])) in
  fst ((vec <- Vector.__init__ (Vector.of_list vector) ;; Vector.to_list vec) h)
  = inr rounded
  ∧ (∀ x : float64,
       float32_rounding x = F64.of_f32 (binary32_nearest x)
       ∧ F32.valid (binary32_nearest x) = true
       ∧ Fmt.same_number (float32_rounding x) (binary32_nearest x) = true
       ∧ float32_rounding (float32_rounding x) = float32_rounding x)
  ∧ (∀ m j e : Z, 0 <= m → 0 < e →
       Z.abs (m - nearest_even m e * 2 ^ e) <= Z.abs (m - j * 2 ^ e)
       ∧ (2 * (m mod 2 ^ e) = 2 ^ e → Z.even (nearest_even m e) = true))
  ∧ wire (VectisClient.put_vector (recorded self) key vector (h, (w, [])))
    = [sent self "POST" "/api/vector/put" body]
  ∧ wire (VectisClient.search_similar (recorded self) vector k (h, (w, [])))
    = [sent self "POST" "/api/vector/search" query]
  ∧ (Forall (fun y => Fmt.is_finite y = true) rounded →
       transmitted put = [sent self "POST" "/api/vector/put" body]
       ∧ transmitted search = [sent self "POST" "/api/vector/search" query])
  ∧ (¬ Forall (fun y => Fmt.is_finite y = true) rounded →
       transmitted put = [] ∧ transmitted search = []
       ∧ ∃ msg, fst put = inl (VectisConnectionError ("Request failed: " +:+ msg))
                ∧ fst search = inl (VectisConnectionError ("Request failed: " +:+ msg)))
  ∧ ∃ x : float64,
      x = F64.div (F64.of_Z 1) (F64.of_Z 10) ∧ F64.valid x = true
      ∧ F64.eqb (float32_rounding x) x = false.
Proof.
  intros rounded body query put search.
  split; [by rewrite Vector_of_list_to_list|].
  split.
  { intros x. split; [|split; [|split]].
    - unfold float32_rounding. by rewrite of_f64_nearest.
    - apply binary32_nearest_valid.
    - unfold float32_rounding. rewrite of_f64_nearest.
      apply widen_exact, binary32_nearest_valid.
    - apply float32_rounding_twice. }
  split.
  { intros m j e Hm He. split; [by apply nearest_even_is_nearest|].
    apply nearest_even_tie. }
  split; [apply put_vector_sends|].
  split; [apply search_similar_sends|].
  pose proof (put_vector_transmits self key vector h w) as Hput.
  pose proof (search_similar_transmits self vector k h w) as Hsearch.
  cbv zeta in Hput, Hsearch. fold rounded put search in Hput, Hsearch.
  pose proof (forallb_finite rounded) as Hall.
  destruct (forallb Fmt.is_finite rounded).
  - split; [done|]. split; [|by eexists].
    intros Hnot. exfalso. apply Hnot, Hall. done.
  - split.
    + intros Hfin. apply Hall in Hfin. done.
    + split; [|eexists; split; [reflexivity|]; split; reflexivity].
      intros _. destruct Hput as [Hp1 Hp2], Hsearch as [Hs1 Hs2].
      split; [done|]. split; [done|]. by eexists.
Qed.

Lemma vectors_sent_in_float32_witness :
  let tenth := F64.div (F64.of_Z 1) (F64.of_Z 10) in
  let s : ndheap * (Remote.t * list Request) :=
    (∅, ({| Remote.kv := ∅; Remote.vectors := ∅; Remote.idle := 0 |}, [])) in
  transmitted (VectisClient.put_vector (on_the_wire Remote.client) "v" [tenth] s)
  = [sent Remote.client "POST" "/api/vector/put"
       (kw_json (JObj [("key", JStr "v");
                       ("vector", JArr [JFloat (float32_rounding tenth)])]))].
Proof.
  intros tenth s.
  apply (vectors_sent_in_float32 (R := Remote.requests) Remote.client "v" [tenth] 3 ∅
           {| Remote.kv := ∅; Remote.vectors := ∅; Remote.idle := 0 |}).
  repeat constructor.
Defined.
